(** * pyRiemann-qiskit: the Titanic tutorial helpers and the test fixtures

    A shallow embedding of

    - [correlation_ratio] and [clean] from
      [examples/plot_tutorial_quantum_svm_titanic_data.py] (the second
      tutorial script carries the same two functions, line for line);
    - [requires_module] and the [get_labels] fixture from
      [tests/conftest.py].

    Floating point numbers are modelled by exact rationals ([Q]): a
    statement about a number computed there is a statement of exact
    arithmetic.  [correlation_ratio] is embedded a second time over IEEE 754
    binary64 (module [F64]), for what the rounding decides. *)

From Stdlib Require Import QArith Qpower Qabs Lqa ZArith List Lia Floats.
From Stdlib Require Uint63.
From stdpp Require Import gmap strings list fin_maps sorting.

(** ** Python exceptions *)

Inductive exn : Type :=
  | ValueError
  | IndexError
  | KeyError
  | TypeError
  | ZeroDivisionError
  | BaseException.

Inductive result (A : Type) : Type :=
  | Ok (a : A)
  | Raise (e : exn).

Arguments Ok {A} a.
Arguments Raise {A} e.

Definition bind {A B : Type} (r : result A) (k : A -> result B) : result B :=
  match r with
  | Ok a => k a
  | Raise e => Raise e
  end.

Notation "'let*' x ':=' r 'in' k" := (bind r (fun x => k))
  (at level 10, x pattern, r at level 100, k at level 200).

(** ** numpy and pandas primitives used by [correlation_ratio] *)

Module Np.

(** [np.sum] over a one-dimensional array. *)
Definition sum (a : list Q) : Q := foldr Qplus 0%Q a.

(** [np.multiply] of two arrays of the same shape. *)
Definition multiply (a b : list Q) : list Q := zip_with Qmult a b.

(** [np.subtract] of an array and a scalar. *)
Definition subtract (a : list Q) (s : Q) : list Q := map (fun x => (x - s)%Q) a.

(** [np.power] of an array and a non-negative integer exponent. *)
Definition power (a : list Q) (k : Z) : list Q := map (fun x => (x ^ k)%Q) a.

(** [np.zeros]. *)
Definition zeros (k : nat) : list Q := replicate k 0%Q.

(** [np.max] of an integer array; the empty array raises [ValueError]. *)
Definition max (a : list Z) : result Z :=
  match a with
  | [] => Raise ValueError
  | x :: xs => Ok (foldr Z.max x xs)
  end.

(** [np.argwhere(a == i).flatten()]: the positions holding [i], ascending. *)
Fixpoint argwhere_from (pos : nat) (i : Z) (a : list Z) : list nat :=
  match a with
  | [] => []
  | c :: cs =>
      if Z.eqb c i then pos :: argwhere_from (S pos) i cs
      else argwhere_from (S pos) i cs
  end.

Definition argwhere (i : Z) (a : list Z) : list nat := argwhere_from 0 i a.

(** [a[idx]] for an integer index array: a position past the end raises
    [IndexError]. *)
Fixpoint take (a : list Q) (idx : list nat) : result (list Q) :=
  match idx with
  | [] => Ok []
  | p :: ps =>
      match a !! p with
      | None => Raise IndexError
      | Some x => let* xs := take a ps in Ok (x :: xs)
      end
  end.

(** [np.average] of a one-dimensional array: the sum over the length.
    Division by zero in [Q] is [0]; [correlation_ratio] applies [average]
    to non-empty arrays only (lemma [groups_nonempty] below). *)
Definition average (a : list Q) : Q := (sum a / inject_Z (Z.of_nat (length a)))%Q.

End Np.

Module Pd.

Section Factorize.
Context {A : Type} `{EqDecision A}.

(** Position of the first occurrence of [x] in [u]. *)
Fixpoint index_of (x : A) (u : list A) : option nat :=
  match u with
  | [] => None
  | y :: ys => if decide (x = y) then Some 0%nat else S <$> index_of x ys
  end.

(** [pd.factorize]: every label is replaced by the rank of its first
    appearance among the distinct labels seen so far; a missing label
    ([None], pandas' NaN) gets the sentinel code [-1] and is not entered
    among the uniques. *)
Fixpoint factorize_go (uniques : list A) (values : list (option A))
  : list Z * list A :=
  match values with
  | [] => ([], uniques)
  | None :: vs =>
      let '(codes, u) := factorize_go uniques vs in ((-1)%Z :: codes, u)
  | Some a :: vs =>
      match index_of a uniques with
      | Some i =>
          let '(codes, u) := factorize_go uniques vs in (Z.of_nat i :: codes, u)
      | None =>
          let '(codes, u) := factorize_go (uniques ++ [a]) vs in
          (Z.of_nat (length uniques) :: codes, u)
      end
  end.

Definition factorize (values : list (option A)) : list Z * list A :=
  factorize_go [] values.
End Factorize.

End Pd.

(** ** [correlation_ratio] *)

(** The local variables of [correlation_ratio] at its [return]. *)
Record locals : Type := Locals {
  fcat : list Z;
  cat_num : Z;
  n_array : list Q;
  y_avg_array : list Q;
  y_total_avg : Q;
  numerator : Q;
  denominator : Q;
  eta : Q
}.

(** The body of [for i in range(0, cat_num)]: the two arrays are updated
    in place at index [i]. *)
Fixpoint for_loop (fcat : list Z) (measurements : list Q) (range : list nat)
    (arrays : list Q * list Q) : result (list Q * list Q) :=
  match range with
  | [] => Ok arrays
  | i :: range' =>
      let '(n_array, y_avg_array) := arrays in
      let* cat_measures :=
        Np.take measurements (Np.argwhere (Z.of_nat i) fcat) in
      let n_array := <[i := inject_Z (Z.of_nat (length cat_measures))]> n_array in
      let y_avg_array := <[i := Np.average cat_measures]> y_avg_array in
      for_loop fcat measurements range' (n_array, y_avg_array)
  end.

Section Body.
Context {A : Type} `{EqDecision A}.

(** [correlation_ratio], up to its [return], with all its locals.  The
    categories are labels of any type with a decidable equality, [None]
    for a missing one; [measurements] is indexed by position.  The one
    division that can meet a zero divisor is [y_total_avg] when every
    label is missing ([cat_num = 0], both sums empty): numpy yields NaN
    there and [Q] yields [0], and in both the numerator is the empty sum,
    so that [0.0] is returned. *)
Definition correlation_ratio_locals (categories : list (option A))
    (measurements : list Q) : result locals :=
  let '(fcat, _) := Pd.factorize categories in
  let* m := Np.max fcat in
  let cat_num := (m + 1)%Z in
  let y_avg_array := Np.zeros (Z.to_nat cat_num) in
  let n_array := Np.zeros (Z.to_nat cat_num) in
  let* arrays :=
    for_loop fcat measurements (seq 0 (Z.to_nat cat_num)) (n_array, y_avg_array) in
  let '(n_array, y_avg_array) := arrays in
  let y_total_avg :=
    (Np.sum (Np.multiply y_avg_array n_array) / Np.sum n_array)%Q in
  let numerator :=
    Np.sum (Np.multiply n_array
              (Np.power (Np.subtract y_avg_array y_total_avg) 2)) in
  let denominator := Np.sum (Np.power (Np.subtract measurements y_total_avg) 2) in
  let eta :=
    if Qeq_bool numerator 0 then 0%Q else (numerator / denominator)%Q in
  Ok (Locals fcat cat_num n_array y_avg_array y_total_avg
             numerator denominator eta).

Definition correlation_ratio (categories : list (option A))
    (measurements : list Q) : result Q :=
  let* l := correlation_ratio_locals categories measurements in Ok (eta l).
End Body.

(** *** Auxiliary views of the computation *)

(** What a code says about the label it stands for, given the uniques. *)
Definition code_for {A : Type} (u : list A) (c : Z) (v : option A) : Prop :=
  match v with
  | None => c = (-1)%Z
  | Some b => exists i : nat, c = Z.of_nat i /\ u !! i = Some b
  end.

(** The measurements whose code is [g]: what
    [measurements[np.argwhere(fcat == g).flatten()]] selects when no
    position is out of range. *)
Fixpoint group (g : Z) (codes : list Z) (meas : list Q) : list Q :=
  match codes, meas with
  | c :: cs, m :: ms => if Z.eqb c g then m :: group g cs ms else group g cs ms
  | _, _ => []
  end.

(** [len] of an array, as a number. *)
Definition qlen (l : list Q) : Q := inject_Z (Z.of_nat (length l)).

(** Sum of squared deviations of [l] about [mu]. *)
Definition SS (mu : Q) (l : list Q) : Q := Np.sum (map (fun x => (x - mu) ^ 2)%Q l).

(** The locals of [correlation_ratio] written over [group], for [K]
    categories. *)
Definition closed_locals (codes : list Z) (K : nat) (meas : list Q) : locals :=
  let range := seq 0 K in
  let N := fun i : nat => qlen (group (Z.of_nat i) codes meas) in
  let AV := fun i : nat => Np.average (group (Z.of_nat i) codes meas) in
  let mu := (Np.sum (map (fun i => AV i * N i) range) / Np.sum (map N range))%Q in
  let num := Np.sum (map (fun i => N i * (AV i - mu) ^ 2)%Q range) in
  let den := SS mu meas in
  Locals codes (Z.of_nat K) (map N range) (map AV range) mu num den
         (if Qeq_bool num 0 then 0 else num / den)%Q.

(** *** The specification of the correlation ratio, in the words of the
    contract: partition by distinct category value, per-category mean and
    count, count-weighted grand mean, between-group over total sum of
    squares. *)

Section Spec.
Context {A : Type} `{EqDecision A}.

(** The distinct category values; a missing label is not a category. *)
Definition distinct_categories (categories : list (option A)) : list A :=
  remove_dups (omap id categories).

(** The measurements labelled [a]. *)
Fixpoint members (a : A) (categories : list (option A)) (measurements : list Q)
  : list Q :=
  match categories, measurements with
  | v :: vs, m :: ms =>
      if decide (v = Some a) then m :: members a vs ms else members a vs ms
  | _, _ => []
  end.

Definition count (l : list Q) : Q := inject_Z (Z.of_nat (length l)).
Definition mean (l : list Q) : Q := (Np.sum l / count l)%Q.

Definition grand_mean (categories : list (option A)) (measurements : list Q) : Q :=
  let ds := distinct_categories categories in
  let part := fun a => members a categories measurements in
  (Np.sum (map (fun a => count (part a) * mean (part a)) ds)
   / Np.sum (map (fun a => count (part a)) ds))%Q.

Definition between_groups (categories : list (option A)) (measurements : list Q) : Q :=
  let mu := grand_mean categories measurements in
  let part := fun a => members a categories measurements in
  Np.sum (map (fun a => count (part a) * (mean (part a) - mu) ^ 2)%Q
              (distinct_categories categories)).

Definition total_squares (categories : list (option A)) (measurements : list Q) : Q :=
  let mu := grand_mean categories measurements in
  Np.sum (map (fun m => (m - mu) ^ 2)%Q measurements).

Definition eta_spec (categories : list (option A)) (measurements : list Q) : Q :=
  (between_groups categories measurements / total_squares categories measurements)%Q.

(** All labelled positions carry one and the same category. *)
Definition single_category (categories : list (option A)) : Prop :=
  forall a b, Some a ∈ categories -> Some b ∈ categories -> a = b.

(** Every category has the same number of members. *)
Definition balanced (categories : list (option A)) : Prop :=
  forall a b, Some a ∈ categories -> Some b ∈ categories ->
    length (filter (fun v => v = Some a) categories)
    = length (filter (fun v => v = Some b) categories).
End Spec.

(** All measurements are the same number. *)
Definition identical (measurements : list Q) : Prop :=
  forall x y, x ∈ measurements -> y ∈ measurements -> (x == y)%Q.

(** Adding the constant [c] to every measurement. *)
Definition shift (c : Q) (measurements : list Q) : list Q :=
  map (fun m => (m + c)%Q) measurements.

(** Two results that agree as rational numbers. *)
Definition result_Qeq (r1 r2 : result Q) : Prop :=
  match r1, r2 with
  | Ok x, Ok y => (x == y)%Q
  | Raise e1, Raise e2 => e1 = e2
  | _, _ => False
  end.

(** ** pandas frames and [clean] *)

(** A cell of a table: a missing value (pandas' NaN / None), a number or a
    string. *)
Inductive cell : Type :=
  | NaN
  | Num (q : Q)
  | Str (s : string).

Definition isna (c : cell) : bool :=
  match c with
  | NaN => true
  | _ => false
  end.

(** A frame: the length of its index and its columns by label. *)
Record DataFrame : Type := Frame {
  nrows : nat;
  columns : gmap string (list cell)
}.

(** Frames are mutable objects: variables hold references into a store.
    A new frame is allocated at the end of the store. *)
Abbreviation loc := nat (only parsing).
Abbreviation heap := (list DataFrame) (only parsing).

(** A column of a frame, as [data[label]] hands it out: a view that writes
    through to the frame.  This is the pandas the tutorials were written
    for (before copy-on-write), which lets
    [data[label].fillna(v, inplace=True)] update [data]. *)
Record Series : Type := SeriesOf {
  frame : loc;
  label : string
}.

(** Computations that read and write the store and may raise. *)
Definition M (X : Type) : Type := heap -> result X * heap.

Definition ret {X : Type} (x : X) : M X := fun h => (Ok x, h).
Definition raise {X : Type} (e : exn) : M X := fun h => (Raise e, h).
Definition bindM {X Y : Type} (c : M X) (k : X -> M Y) : M Y :=
  fun h =>
    match c h with
    | (Ok x, h') => k x h'
    | (Raise e, h') => (Raise e, h')
    end.

Notation "'let!' x ':=' c 'in' k" := (bindM c (fun x => k))
  (at level 10, x pattern, c at level 100, k at level 200).

(** Replace the missing cells of a column by [value]. *)
Definition fill (value : cell) (col : list cell) : list cell :=
  map (fun x => if isna x then value else x) col.

(** The numbers of a column, missing cells skipped; a string makes the
    reduction raise. *)
Fixpoint numbers (col : list cell) : result (list Q) :=
  match col with
  | [] => Ok []
  | NaN :: rest => numbers rest
  | Num q :: rest => let* qs := numbers rest in Ok (q :: qs)
  | Str _ :: rest => Raise TypeError
  end.

(** [Series.mean()] on the values of a column: the mean of the non-missing
    numbers, NaN when there is none. *)
Definition mean_of (col : list cell) : result cell :=
  let* qs := numbers col in
  match qs with
  | [] => Ok NaN
  | _ => Ok (Num (Np.sum qs / inject_Z (Z.of_nat (length qs)))%Q)
  end.

(** A reference that is not in the store does not arise in Python; the
    operations below answer it with [BaseException]. *)

Module DataFrame.

(** [data.drop(labels, axis=1)]: a new frame without the columns [labels];
    a label that is not a column raises [KeyError]. *)
Definition drop (data : loc) (labels : list string) : M loc :=
  fun h =>
    match h !! data with
    | None => (Raise BaseException, h)
    | Some df =>
        if forallb (fun c => bool_decide (is_Some (columns df !! c))) labels
        then (Ok (length h),
              h ++ [Frame (nrows df) (foldr delete (columns df) labels)])
        else (Raise KeyError, h)
    end.

(** [data[key]]. *)
Definition getitem (data : loc) (key : string) : M Series :=
  fun h =>
    match h !! data with
    | None => (Raise BaseException, h)
    | Some df =>
        match columns df !! key with
        | None => (Raise KeyError, h)
        | Some _ => (Ok (SeriesOf data key), h)
        end
    end.

End DataFrame.

Module Series.

Definition values (s : Series) : M (list cell) :=
  fun h =>
    match h !! frame s with
    | None => (Raise BaseException, h)
    | Some df =>
        match columns df !! label s with
        | None => (Raise BaseException, h)
        | Some col => (Ok col, h)
        end
    end.

(** [s.mean()]. *)
Definition mean (s : Series) : M cell :=
  let! col := values s in
  match mean_of col with
  | Ok m => ret m
  | Raise e => raise e
  end.

(** [s.fillna(value, inplace=True)]. *)
Definition fillna (s : Series) (value : cell) : M unit :=
  let! col := values s in
  fun h =>
    match h !! frame s with
    | None => (Raise BaseException, h)
    | Some df =>
        (Ok tt,
         <[frame s := Frame (nrows df) (<[label s := fill value col]> (columns df))]> h)
    end.

End Series.

(** [clean(data)]: the local name [data] is rebound to the frame [drop]
    returns, and every fill goes through a column of that frame. *)
Definition clean (data : loc) : M loc :=
  (* dropping the columns that are not significant for survival *)
  let droppable_columns := ["Name"; "Ticket"; "Cabin"]%string in
  let! data := DataFrame.drop data droppable_columns in
  (* "Age" missing values replaced by the mean age *)
  let! age := DataFrame.getitem data "Age" in
  let! age' := DataFrame.getitem data "Age" in
  let! m := Series.mean age' in
  let! _ := Series.fillna age m in
  (* "Embarked" missing values replaced by U(unknown) *)
  let! embarked := DataFrame.getitem data "Embarked" in
  let! _ := Series.fillna embarked (Str "U") in
  (* "SibSp", "Parch" missing values replaced by 0 *)
  let! sibsp := DataFrame.getitem data "SibSp" in
  let! _ := Series.fillna sibsp (Num 0) in
  let! parch := DataFrame.getitem data "Parch" in
  let! _ := Series.fillna parch (Num 0) in
  (* "Fare" missing values replaced by its median (so the source's comment;
     the call is [mean]) *)
  let! fare := DataFrame.getitem data "Fare" in
  let! fare' := DataFrame.getitem data "Fare" in
  let! m := Series.mean fare' in
  let! _ := Series.fillna fare m in
  ret data.

(** *** Shapes of the input table *)

Definition has_column (df : DataFrame) (c : string) : bool :=
  match columns df !! c with
  | Some _ => true
  | None => false
  end.

(** The column holds numbers and missing values only. *)
Definition numeric_column (df : DataFrame) (c : string) : bool :=
  match columns df !! c with
  | Some col => forallb (fun x => match x with Str _ => false | _ => true end) col
  | None => false
  end.

(** The column holds at least one value that is not missing. *)
Definition has_value (df : DataFrame) (c : string) : bool :=
  match columns df !! c with
  | Some col => existsb (fun x => negb (isna x)) col
  | None => false
  end.

(** The column holds no missing value. *)
Definition no_missing (df : DataFrame) (c : string) : bool :=
  match columns df !! c with
  | Some col => forallb (fun x => negb (isna x)) col
  | None => false
  end.

(** The passenger table of the data model: the columns [clean] names are
    there, and age and fare are numeric. *)
Definition passenger_table (df : DataFrame) : bool :=
  forallb (has_column df)
    ["Name"; "Ticket"; "Cabin"; "Age"; "Embarked"; "SibSp"; "Parch"; "Fare"]%string
  && numeric_column df "Age" && numeric_column df "Fare".

(** ** [tests/conftest.py] *)

(** What [exec(call)] does in the running interpreter: it completes, it
    raises an [Exception] whose [str] is [msg], or it raises something that
    is not an [Exception] (a [SystemExit], a [KeyboardInterrupt]). *)
Inductive exec_outcome : Type :=
  | Completed
  | RaisedException (msg : string)
  | RaisedBaseException.

(** A [pytest.mark.skipif(condition, reason=reason)] mark. *)
Record skipif : Type := Skipif {
  condition : bool;
  reason : string
}.

(** A test function: its [__name__] and the marks it carries. *)
Record test_function : Type := TestFunction {
  fn_name : string;
  pytestmark : list skipif
}.

Section RequiresModule.
Variable exec : string -> exec_outcome.

Definition requires_module (function : test_function) (name : string)
    (call : option string) : result test_function :=
  let call := match call with
              | None => ("import " ++ name)%string
              | Some c => c
              end in
  let reason :=
    ("Test " ++ fn_name function ++ " skipped, requires " ++ name ++ ".")%string in
  match exec call with
  | RaisedBaseException => Raise BaseException
  | RaisedException exc =>
      let reason :=
        if negb (Nat.eqb (String.length exc) 0)
           && negb (String.eqb exc ("No module named " ++ name))
        then (reason ++ " Got exception (" ++ exc ++ ")")%string
        else reason in
      let skip := true in
      Ok (TestFunction (fn_name function)
            (pytestmark function ++ [Skipif skip reason]))
  | Completed =>
      let skip := false in
      Ok (TestFunction (fn_name function)
            (pytestmark function ++ [Skipif skip reason]))
  end.

Definition requires_matplotlib (function : test_function) : result test_function :=
  requires_module function "matplotlib" None.
Definition requires_seaborn (function : test_function) : result test_function :=
  requires_module function "seaborn" None.
End RequiresModule.

(** [np.arange(n)]. *)
Definition arange (n : Z) : list Z := map Z.of_nat (seq 0 (Z.to_nat n)).

(** [a.repeat(k)]: every element [k] times in a row; a negative count
    raises [ValueError]. *)
Definition np_repeat (a : list Z) (k : Z) : result (list Z) :=
  if (k <? 0)%Z then Raise ValueError
  else Ok (flat_map (fun x => replicate (Z.to_nat k) x) a).

(** Python's [//] on integers. *)
Definition floordiv (a b : Z) : result Z :=
  if (b =? 0)%Z then Raise ZeroDivisionError else Ok (a / b)%Z.

(** The function the [get_labels] fixture returns. *)
Definition get_labels (n_matrices n_classes : Z) : result (list Z) :=
  let a := arange n_classes in
  let* k := floordiv n_matrices n_classes in
  np_repeat a k.

(** ** Auxiliary definitions for [clean] and the fixtures *)

Local Open Scope string_scope.
Local Open Scope list_scope.

(** The columns of the table [clean] returns, given the two means. *)
Definition cleaned_columns (cols : gmap string (list cell)) (age_mean fare_mean : cell)
  : gmap string (list cell) :=
  alter (fill fare_mean) "Fare"
    (alter (fill (Num 0)) "Parch"
       (alter (fill (Num 0)) "SibSp"
          (alter (fill (Str "U")) "Embarked"
             (alter (fill age_mean) "Age"
                (delete "Name" (delete "Ticket" (delete "Cabin" cols))))))).

(** The value [clean] puts in the missing cells of column [c]; NaN stands
    for "left as it is". *)
Definition fill_value (age_mean fare_mean : cell) (c : string) : cell :=
  if decide (c = "Age") then age_mean
  else if decide (c = "Fare") then fare_mean
  else if decide (c = "Embarked") then Str "U"
  else if decide (c = "SibSp") then Num 0
  else if decide (c = "Parch") then Num 0
  else NaN.

(** A triple for computations on the store: from a store in [P], the
    computation ends in [Q] when it returns and in [E] when it raises. *)
Definition hoare {X : Type} (P : list DataFrame -> Prop) (c : M X)
    (Q : X -> list DataFrame -> Prop) (E : list DataFrame -> Prop) : Prop :=
  forall h, P h ->
    match c h with
    | (Ok x, h') => Q x h'
    | (Raise _, h') => E h'
    end.

(** The store [h0] of the caller with one more frame: the copy. *)
Definition with_copy (h0 h : list DataFrame) : Prop := exists fr, h = h0 ++ [fr].
(** The store [h0] of the caller, possibly with more frames after it. *)
Definition extends (h0 h : list DataFrame) : Prop := exists rest, h = h0 ++ rest.

(** Every label of [seq a n], [k] times in a row. *)
Definition blocks (k a n : nat) : list Z :=
  flat_map (fun x => replicate k x) (map Z.of_nat (seq a n)).


(** A small passenger table with missing values, and a store holding it. *)
Definition sample_passengers : DataFrame :=
  Frame 3
    (list_to_map
       [("PassengerId", [Num 1; Num 2; Num 3]);
        ("Survived", [Num 0; Num 1; NaN]);
        ("Name", [Str "Braund"; Str "Cumings"; NaN]);
        ("Ticket", [NaN; Str "PC 17599"; NaN]);
        ("Cabin", [NaN; Str "C85"; NaN]);
        ("Age", [Num 22; NaN; Num 31]);
        ("Embarked", [NaN; Str "C"; Str "S"]);
        ("SibSp", [Num 1; NaN; Num 0]);
        ("Parch", [NaN; Num 2; Num 0]);
        ("Fare", [Num 7; Num 71; NaN])]).

Local Close Scope string_scope.

(** ** Further notions for [correlation_ratio] and [clean] *)

(** Every position of [codes] that holds [g] has a measurement. *)
Definition covered (g : Z) (codes : list Z) (meas : list Q) : Prop :=
  forall pos, codes !! pos = Some g -> (pos < length meas)%nat.

(** Every row that carries a label has a measurement. *)
Definition rows_measured {A : Type} (categories : list (option A))
    (measurements : list Q) : Prop :=
  forall i a, categories !! i = Some (Some a) -> (i < length measurements)%nat.

(** Multiplying every measurement by the constant [c]. *)
Definition scale (c : Q) (measurements : list Q) : list Q :=
  map (fun m => (c * m)%Q) measurements.

(** The measurements of the rows whose label is missing. *)
Fixpoint unlabelled {A : Type} (categories : list (option A)) (measurements : list Q)
  : list Q :=
  match categories, measurements with
  | v :: vs, m :: ms =>
      if v is None then m :: unlabelled vs ms else unlabelled vs ms
  | _, _ => []
  end.

(** The within-group sum of squares: the squared deviations of the
    measurements of each category about the mean of that category. *)
Definition within_groups {A : Type} `{EqDecision A}
    (categories : list (option A)) (measurements : list Q) : Q :=
  Np.sum (map (fun a => SS (mean (members a categories measurements))
                           (members a categories measurements))
              (distinct_categories categories)).

(** A passenger table in which nothing is missing. *)
Definition complete_passengers : DataFrame :=
  Frame 2
    (list_to_map
       [("Survived", [Num 0; Num 1]);
        ("Name", [Str "Braund"; Str "Cumings"]);
        ("Ticket", [Str "A/5 21171"; Str "PC 17599"]);
        ("Cabin", [Str "B5"; Str "C85"]);
        ("Sex", [Str "male"; NaN]);
        ("Age", [Num 22; Num 38]);
        ("Embarked", [Str "S"; Str "C"]);
        ("SibSp", [Num 1; Num 1]);
        ("Parch", [Num 0; Num 0]);
        ("Fare", [Num 7; Num 71])]%string).

Local Open Scope string_scope.
Local Open Scope list_scope.

(** ** matplotlib calls and the display functions *)

(** The text of an axis label or of a title.  The formatted ones keep the
    arguments of [str.format]. *)
Inductive text : Type :=
  | Literal (s : string)
  (* "F{} ({}%)".format(rank, percent) *)
  | AxisText (rank : Z) (percent : Q)
  (* "Cercle des corrélations (F{} et F{})".format(r1, r2) *)
  | CircleTitle (r1 r2 : Z)
  (* "Projection des individus (sur F{} et F{})".format(r1, r2) *)
  | PlaneTitle (r1 r2 : Z).

(** A call into matplotlib, with the arguments that are computed; the
    keyword arguments that are constants of the source are named in the
    comments. *)
Inductive plot_call : Type :=
  (* plt.subplots(figsize=(w, h)) *)
  | Subplots (w h : Q)
  (* plt.figure(figsize=(w, h)) *)
  | Figure (w h : Q)
  (* plt.quiver(x, y, u, v, angles="xy", scale_units="xy", scale=1, color="grey") *)
  | Quiver (x y u v : list Q)
  (* ax.add_collection(LineCollection(lines, axes=ax, alpha=0.1, color="black")),
     a line being [[0, 0], [x, y]] *)
  | AddLines (lines : list ((Q * Q) * (Q * Q)))
  (* plt.text(x, y, s, fontsize="14", ha="center", va="center"), with
     rotation=rotation, color="blue", alpha=0.5 in [display_circles] *)
  | TextAt (x y : Q) (s : string) (rotation : option Q)
  (* plt.gca().add_artist(plt.Circle((0, 0), 1, facecolor="none", edgecolor="b")) *)
  | AddCircle
  (* plt.xlim(lo, hi), plt.ylim(lo, hi) *)
  | Xlim (lo hi : Q)
  | Ylim (lo hi : Q)
  (* plt.plot(xs, ys, color="grey", ls="--") *)
  | PlotDashed (xs ys : list Q)
  (* plt.plot(xs, ys, c="red", marker="o") *)
  | PlotRed (xs ys : list Q)
  (* plt.scatter(xs, ys, alpha=alpha) and, with label=value, per value *)
  | Scatter (xs ys : list Q) (alpha : Q) (label : option Z)
  (* plt.legend() *)
  | Legend
  (* plt.bar(xs, heights) *)
  | Bar (xs heights : list Q)
  | Xlabel (t : text)
  | Ylabel (t : text)
  | Title (t : text)
  (* plt.show(block=False) *)
  | ShowFigure.

(** Computations that call matplotlib and may raise: the calls made so far
    are kept when an exception is raised. *)
Definition Plot (X : Type) : Type := result X * list plot_call.

Definition pret {X : Type} (x : X) : Plot X := (Ok x, []).
Definition praise {X : Type} (e : exn) : Plot X := (Raise e, []).
Definition call (c : plot_call) : Plot unit := (Ok tt, [c]).
Definition lift {X : Type} (r : result X) : Plot X := (r, []).
Definition pbind {X Y : Type} (c : Plot X) (k : X -> Plot Y) : Plot Y :=
  match c with
  | (Ok x, t) => let '(r, t') := k x in (r, t ++ t')
  | (Raise e, t) => (Raise e, t)
  end.

Notation "'plot!' x ':=' c 'in' k" := (pbind c (fun x => k))
  (at level 10, x pattern, c at level 100, k at level 200).

(** A two-dimensional numpy array: its shape and its rows. *)
Record ndarray : Type := Array2 {
  shape0 : nat;
  shape1 : nat;
  rows : list (list Q)
}.

(** The rows agree with the shape. *)
Definition well_shaped (a : ndarray) : Prop :=
  length (rows a) = shape0 a /\ Forall (fun r => length r = shape1 a) (rows a).

(** A Python index into an axis of length [n]: negative indices count from
    the end, anything else out of range raises [IndexError]. *)
Definition index (n : nat) (d : Z) : result nat :=
  if ((0 <=? d) && (d <? Z.of_nat n))%Z then Ok (Z.to_nat d)
  else if ((- Z.of_nat n <=? d) && (d <? 0))%Z then Ok (Z.to_nat (d + Z.of_nat n))
  else Raise IndexError.

(** [a[:, d]]. *)
Definition column (a : ndarray) (d : Z) : result (list Q) :=
  let* j := index (shape1 a) d in
  Ok (map (fun r => default 0%Q (r !! j)) (rows a)).

(** [a[d, :]]. *)
Definition row (a : ndarray) (d : Z) : result (list Q) :=
  let* i := index (shape0 a) d in
  Ok (default [] (rows a !! i)).

(** [l[i]] on a Python list or a one-dimensional array. *)
Definition item {X : Type} (l : list X) (i : Z) : result X :=
  let* j := index (length l) i in
  match l !! j with
  | Some x => Ok x
  | None => Raise IndexError
  end.

(** [min(xs)], [max(xs)] of Python on a one-dimensional array, and
    [np.max]: the empty sequence raises [ValueError]. *)
Definition py_min (xs : list Q) : result Q :=
  match xs with
  | [] => Raise ValueError
  | x :: rest => Ok (foldl (fun m y => if Qlt_le_dec y m then y else m) x rest)
  end.

Definition py_max (xs : list Q) : result Q :=
  match xs with
  | [] => Raise ValueError
  | x :: rest => Ok (foldl (fun m y => if Qlt_le_dec m y then y else m) x rest)
  end.



(** [np.unique] of an integer array: the distinct values, ascending. *)
Definition unique (a : list Z) : list Z := merge_sort Z.le (remove_dups a).

(** A fitted PCA, as far as the display functions read it. *)
Record PCA : Type := { explained_variance_ratio_ : list Q }.

(** [np.max] of a non-negative float array, here of [np.abs(...)]. *)
Definition amax (xs : list Q) : result Q := py_max xs.

(** [a[:, [d1, d2]]] and [a[[d1, d2]].T]: the pairs of the two columns,
    of the two rows. *)
Definition column_pairs (a : ndarray) (d1 d2 : Z) : result (list (Q * Q)) :=
  let* c1 := column a d1 in
  let* c2 := column a d2 in
  Ok (zip c1 c2).

Definition row_pairs (a : ndarray) (d1 d2 : Z) : result (list (Q * Q)) :=
  let* r1 := row a d1 in
  let* r2 := row a d2 in
  Ok (zip r1 r2).

(** [a[selected, d]] for the positions [selected] that [np.where] found. *)
Definition select (a : ndarray) (selected : list nat) (d : Z) : result (list Q) :=
  let* c := column a d in
  Np.take c selected.


Section Display.
(** [round(x, 1)] of the interpreter. *)
Variable round1 : Q -> Q.

(** ["F{} ({}%)".format(d + 1, round(100 * pca.explained_variance_ratio_[d], 1))]. *)
Definition axis_text (pca : PCA) (d : Z) : result text :=
  let* r := item (explained_variance_ratio_ pca) d in
  Ok (AxisText (d + 1) (round1 (100 * r))).

(** [for value in np.unique(illustrative_var)]: one scatter per value. *)
Fixpoint scatter_values (X_projected : ndarray) (d1 d2 : Z) (alpha : Q)
    (illustrative_var : list Z) (values : list Z) : Plot unit :=
  match values with
  | [] => pret tt
  | value :: values' =>
      let selected := Np.argwhere value illustrative_var in
      plot! xs := lift (select X_projected selected d1) in
      plot! ys := lift (select X_projected selected d2) in
      plot! _ := call (Scatter xs ys alpha (Some value)) in
      scatter_values X_projected d1 d2 alpha illustrative_var values'
  end.

(** [for i, (x, y) in enumerate(...)]: [plt.text(x, y, labels[i], ...)]. *)
Fixpoint text_points (i : nat) (points : list (Q * Q)) (labels : list string)
  : Plot unit :=
  match points with
  | [] => pret tt
  | (x, y) :: points' =>
      plot! s := lift (item labels (Z.of_nat i)) in
      plot! _ := call (TextAt x y s None) in
      text_points (S i) points' labels
  end.

(** The body of the loop of [display_factorial_planes], for one pair of
    axis ranks. *)
Definition factorial_plane (X_projected : ndarray) (n_comp : Z) (pca : PCA)
    (labels : option (list string)) (alpha : Q) (illustrative_var : option (list Z))
    (d1 d2 : Z) : Plot unit :=
  if (d2 <? n_comp)%Z then
    plot! _ := call (Figure 7 6) in
    (* print points *)
    plot! _ :=
      match illustrative_var with
      | None =>
          plot! xs := lift (column X_projected d1) in
          plot! ys := lift (column X_projected d2) in
          call (Scatter xs ys alpha None)
      | Some illustrative_var =>
          plot! _ := scatter_values X_projected d1 d2 alpha illustrative_var
                       (unique illustrative_var) in
          call Legend
      end in
    (* print labels *)
    plot! _ :=
      match labels with
      | None => pret tt
      | Some labels =>
          plot! points := lift (column_pairs X_projected d1 d2) in
          text_points 0 points labels
      end in
    (* set graphic frame *)
    plot! points := lift (column_pairs X_projected d1 d2) in
    plot! m := lift (amax (flat_map (fun p => [Qabs p.1; Qabs p.2]) points)) in
    let boundary := (m * (11 # 10))%Q in
    plot! _ := call (Xlim (- boundary) boundary) in
    plot! _ := call (Ylim (- boundary) boundary) in
    plot! _ := call (PlotDashed [-100; 100] [0; 0])%Q in
    plot! _ := call (PlotDashed [0; 0] [-100; 100])%Q in
    (* print explained variance (%) *)
    plot! tx := lift (axis_text pca d1) in
    plot! _ := call (Xlabel tx) in
    plot! ty := lift (axis_text pca d2) in
    plot! _ := call (Ylabel ty) in
    plot! _ := call (Title (PlaneTitle (d1 + 1) (d2 + 1))) in
    call ShowFigure
  else pret tt.

Fixpoint display_factorial_planes (X_projected : ndarray) (n_comp : Z) (pca : PCA)
    (axis_ranks : list (Z * Z)) (labels : option (list string)) (alpha : Q)
    (illustrative_var : option (list Z)) : Plot unit :=
  match axis_ranks with
  | [] => pret tt
  | (d1, d2) :: axis_ranks' =>
      plot! _ := factorial_plane X_projected n_comp pca labels alpha illustrative_var
                   d1 d2 in
      display_factorial_planes X_projected n_comp pca axis_ranks' labels alpha
        illustrative_var
  end.

(** The limits of a correlation circle. *)
Definition circle_limits (pcs : ndarray) (lims : option (Q * Q * Q * Q)) (d1 d2 : Z)
  : result (Q * Q * Q * Q) :=
  match lims with
  | Some l => Ok l
  | None =>
      if (shape1 pcs <? 30)%nat then Ok (-1, 1, -1, 1)%Q
      else
        let* r := row pcs d1 in
        let* xmin := py_min r in
        let* r := row pcs d1 in
        let* xmax := py_max r in
        let* r := row pcs d2 in
        let* ymin := py_min r in
        let* r := row pcs d2 in
        let* ymax := py_max r in
        Ok (xmin, xmax, ymin, ymax)
  end.

(** [for i, (x, y) in enumerate(pcs[[d1, d2]].T)]: the name of a variable
    is written when its point lies within the limits. *)
Fixpoint text_variables (i : nat) (points : list (Q * Q)) (labels : list string)
    (label_rotation : Q) (limits : Q * Q * Q * Q) : Plot unit :=
  match points with
  | [] => pret tt
  | (x, y) :: points' =>
      let '(xmin, xmax, ymin, ymax) := limits in
      plot! _ :=
        if Qle_bool xmin x && Qle_bool x xmax && Qle_bool ymin y && Qle_bool y ymax
        then
          plot! s := lift (item labels (Z.of_nat i)) in
          call (TextAt x y s (Some label_rotation))
        else pret tt in
      text_variables (S i) points' labels label_rotation limits
  end.

(** The body of the loop of [display_circles], for one pair of axis ranks. *)
Definition circle (pcs : ndarray) (n_comp : Z) (pca : PCA)
    (labels : option (list string)) (label_rotation : Q)
    (lims : option (Q * Q * Q * Q)) (d1 d2 : Z) : Plot unit :=
  if (d2 <? n_comp)%Z then
    plot! _ := call (Subplots 7 6) in
    plot! limits := lift (circle_limits pcs lims d1 d2) in
    let '(xmin, xmax, ymin, ymax) := limits in
    (* display arrows *)
    plot! _ :=
      if (shape1 pcs <? 30)%nat then
        plot! u := lift (row pcs d1) in
        plot! v := lift (row pcs d2) in
        call (Quiver (Np.zeros (shape1 pcs)) (Np.zeros (shape1 pcs)) u v)
      else
        plot! points := lift (row_pairs pcs d1 d2) in
        call (AddLines (map (fun p => ((0, 0)%Q, p)) points)) in
    (* display variable names *)
    plot! _ :=
      match labels with
      | None => pret tt
      | Some labels =>
          plot! points := lift (row_pairs pcs d1 d2) in
          text_variables 0 points labels label_rotation limits
      end in
    (* display circle *)
    plot! _ := call AddCircle in
    plot! _ := call (Xlim xmin xmax) in
    plot! _ := call (Ylim ymin ymax) in
    plot! _ := call (PlotDashed [-1; 1] [0; 0])%Q in
    plot! _ := call (PlotDashed [0; 0] [-1; 1])%Q in
    (* display axis with explained variance (%) *)
    plot! tx := lift (axis_text pca d1) in
    plot! _ := call (Xlabel tx) in
    plot! ty := lift (axis_text pca d2) in
    plot! _ := call (Ylabel ty) in
    plot! _ := call (Title (CircleTitle (d1 + 1) (d2 + 1))) in
    call ShowFigure
  else pret tt.

Fixpoint display_circles (pcs : ndarray) (n_comp : Z) (pca : PCA)
    (axis_ranks : list (Z * Z)) (labels : option (list string)) (label_rotation : Q)
    (lims : option (Q * Q * Q * Q)) : Plot unit :=
  match axis_ranks with
  | [] => pret tt
  | (d1, d2) :: axis_ranks' =>
      plot! _ := circle pcs n_comp pca labels label_rotation lims d1 d2 in
      display_circles pcs n_comp pca axis_ranks' labels label_rotation lims
  end.
End Display.

(** A fitted PCA with two components, the projection of three rows on
    them, and the components of thirty variables. *)
Definition sample_pca : PCA := {| explained_variance_ratio_ := [6 # 10; 3 # 10]%Q |}.

Definition sample_projection : ndarray :=
  Array2 3 2 [[1; -2]; [3; 1 # 2]; [-4; 0]]%Q.

Definition sample_components : ndarray :=
  Array2 2 30
    [map (fun i => inject_Z (Z.of_nat i)) (seq 0 30);
     map (fun i => inject_Z (15 - Z.of_nat i)) (seq 0 30)].

Local Close Scope string_scope.

(** ** [correlation_ratio] in binary64

    The same function over IEEE 754 binary64 numbers, as numpy computes it
    when [measurements] is a one-dimensional float64 array: every operation
    rounds to nearest.  Nothing here raises on a division by zero or an
    overflow; numpy yields [nan] or an infinity (and a warning). *)

Module F64.

(** [float(n)] for a length [n]. *)
Definition of_nat (n : nat) : float :=
  PrimFloat.of_uint63 (Uint63.of_Z (Z.of_nat n)).

(** [np.sum] adds with numpy's pairwise summation: fewer than eight
    elements are added one after the other, from the left; up to 128
    elements go through eight running sums that are combined at the end,
    the elements past the last full group of eight being added one by one;
    a longer array is cut in two near its middle, at a multiple of eight.
    The reduction starts from [0]. *)
Definition sum_loop (res : float) (a : list float) : float :=
  fold_left PrimFloat.add a res.

(** Eight accumulators take the elements in turn while eight more remain. *)
Fixpoint accumulate (fuel : nat) (r a : list float) : list float * list float :=
  match fuel with
  | O => (r, a)
  | S fuel =>
      if (8 <=? length a)%nat
      then accumulate fuel (zip_with PrimFloat.add r (firstn 8 a)) (skipn 8 a)
      else (r, a)
  end.

Definition sum_block (a : list float) : float :=
  let '(r, rest) := accumulate (length a) (firstn 8 a) (skipn 8 a) in
  match r with
  | [r0; r1; r2; r3; r4; r5; r6; r7] =>
      sum_loop (((r0 + r1) + (r2 + r3)) + ((r4 + r5) + (r6 + r7)))%float rest
  | _ => 0%float
  end.

Fixpoint pairwise_sum (fuel : nat) (a : list float) : float :=
  let n := length a in
  if (n <? 8)%nat then sum_loop 0%float a
  else if (n <=? 128)%nat then sum_block a
  else
    match fuel with
    | O => 0%float
    | S fuel =>
        let n2 := (n / 2)%nat in
        let n2 := (n2 - n2 mod 8)%nat in
        (pairwise_sum fuel (firstn n2 a) + pairwise_sum fuel (skipn n2 a))%float
    end.

Definition sum (a : list float) : float := (0 + pairwise_sum (length a) a)%float.

(** [np.multiply], [np.subtract] of an array and a scalar, [np.power(a, 2)]
    (the square), [np.zeros]. *)
Definition multiply (a b : list float) : list float := zip_with PrimFloat.mul a b.
Definition subtract (a : list float) (s : float) : list float :=
  map (fun x => (x - s)%float) a.
Definition power (a : list float) : list float := map (fun x => (x * x)%float) a.
Definition zeros (k : nat) : list float := replicate k 0%float.

(** [a[idx]] for an integer index array. *)
Fixpoint take (a : list float) (idx : list nat) : result (list float) :=
  match idx with
  | [] => Ok []
  | p :: ps =>
      match a !! p with
      | None => Raise IndexError
      | Some x => let* xs := take a ps in Ok (x :: xs)
      end
  end.

(** [np.average]: the sum over the length. *)
Definition average (a : list float) : float := (sum a / of_nat (length a))%float.

(** The local variables of [correlation_ratio] at its [return]. *)
Record locals : Type := Locals {
  fcat : list Z;
  cat_num : Z;
  n_array : list float;
  y_avg_array : list float;
  y_total_avg : float;
  numerator : float;
  denominator : float;
  eta : float
}.

Fixpoint for_loop (fcat : list Z) (measurements : list float) (range : list nat)
    (arrays : list float * list float) : result (list float * list float) :=
  match range with
  | [] => Ok arrays
  | i :: range' =>
      let '(n_array, y_avg_array) := arrays in
      let* cat_measures :=
        take measurements (Np.argwhere (Z.of_nat i) fcat) in
      let n_array := <[i := of_nat (length cat_measures)]> n_array in
      let y_avg_array := <[i := average cat_measures]> y_avg_array in
      for_loop fcat measurements range' (n_array, y_avg_array)
  end.

Section Body.
Context {A : Type} `{EqDecision A}.

Definition correlation_ratio_locals (categories : list (option A))
    (measurements : list float) : result locals :=
  let '(fcat, _) := Pd.factorize categories in
  let* m := Np.max fcat in
  let cat_num := (m + 1)%Z in
  let y_avg_array := zeros (Z.to_nat cat_num) in
  let n_array := zeros (Z.to_nat cat_num) in
  let* arrays :=
    for_loop fcat measurements (seq 0 (Z.to_nat cat_num)) (n_array, y_avg_array) in
  let '(n_array, y_avg_array) := arrays in
  let y_total_avg := (sum (multiply y_avg_array n_array) / sum n_array)%float in
  let numerator :=
    sum (multiply n_array (power (subtract y_avg_array y_total_avg))) in
  let denominator := sum (power (subtract measurements y_total_avg)) in
  let eta :=
    if (numerator =? 0)%float then 0%float else (numerator / denominator)%float in
  Ok (Locals fcat cat_num n_array y_avg_array y_total_avg numerator denominator eta).

Definition correlation_ratio (categories : list (option A))
    (measurements : list float) : result float :=
  let* l := correlation_ratio_locals categories measurements in Ok (eta l).
End Body.

(** Adding the constant [c] to every measurement. *)
Definition shift (c : float) (measurements : list float) : list float :=
  map (fun m => (m + c)%float) measurements.

(** Every row that carries a label has a measurement. *)
Definition rows_measured {A : Type} (categories : list (option A))
    (measurements : list float) : Prop :=
  forall i a, categories !! i = Some (Some a) -> (i < length measurements)%nat.

End F64.

(** ** The words of the contract of [clean] *)




(** The column holds a string and a number. *)
Definition mixed_column (df : DataFrame) (c : string) : bool :=
  match columns df !! c with
  | Some col =>
      existsb (fun x => match x with Str _ => true | _ => false end) col
      && existsb (fun x => match x with Num _ => true | _ => false end) col
  | None => false
  end.

(** ** [clean] under copy-on-write

    From pandas 3 on, the Series that [data[label]] hands out no longer
    shares its values with the frame: [fillna(value, inplace=True)] on it
    changes that temporary object, and the frame stays as it is. *)

Module CopyOnWrite.

(** [s.fillna(value, inplace=True)] on the Series [data[label]] handed out. *)
Definition fillna (s : Series) (value : cell) : M unit :=
  let! _ := Series.values s in
  ret tt.

(** [clean(data)], statement by statement as above. *)
Definition clean (data : loc) : M loc :=
  let droppable_columns := ["Name"; "Ticket"; "Cabin"]%string in
  let! data := DataFrame.drop data droppable_columns in
  let! age := DataFrame.getitem data "Age" in
  let! age' := DataFrame.getitem data "Age" in
  let! m := Series.mean age' in
  let! _ := fillna age m in
  let! embarked := DataFrame.getitem data "Embarked" in
  let! _ := fillna embarked (Str "U") in
  let! sibsp := DataFrame.getitem data "SibSp" in
  let! _ := fillna sibsp (Num 0) in
  let! parch := DataFrame.getitem data "Parch" in
  let! _ := fillna parch (Num 0) in
  let! fare := DataFrame.getitem data "Fare" in
  let! fare' := DataFrame.getitem data "Fare" in
  let! m := Series.mean fare' in
  let! _ := fillna fare m in
  ret data.

End CopyOnWrite.

(** * Properties *)

(** ** [correlation_ratio]: indexing and the loop *)

Local Open Scope Q_scope.

Lemma take_argwhere_from g codes : forall pos meas,
  (pos + length codes <= length meas)%nat ->
  Np.take meas (Np.argwhere_from pos g codes) = Ok (group g codes (drop pos meas)).
Proof.
  induction codes as [|c cs IH]; intros pos meas Hlen; simpl in *.
  - reflexivity.
  - destruct (lookup_lt_is_Some_2 meas pos) as [x Hx]; [lia|].
    rewrite (drop_S _ _ _ Hx).
    destruct (Z.eqb c g); simpl.
    + rewrite Hx, IH by lia. reflexivity.
    + apply IH. lia.
Qed.

Lemma take_argwhere g codes meas :
  (length codes <= length meas)%nat ->
  Np.take meas (Np.argwhere g codes) = Ok (group g codes meas).
Proof. intros H. unfold Np.argwhere. rewrite take_argwhere_from by (simpl; lia). reflexivity. Qed.

Lemma for_loop_fill codes meas (Hlen : (length codes <= length meas)%nat) :
  forall b a pre_n pre_a suf_n suf_a,
    length pre_n = a -> length pre_a = a -> length suf_n = b -> length suf_a = b ->
    for_loop codes meas (seq a b) (pre_n ++ suf_n, pre_a ++ suf_a)
    = Ok (pre_n ++ map (fun i => qlen (group (Z.of_nat i) codes meas)) (seq a b),
          pre_a ++ map (fun i => Np.average (group (Z.of_nat i) codes meas)) (seq a b)).
Proof.
  induction b as [|b IH]; intros a pre_n pre_a suf_n suf_a Hn Ha Hsn Hsa.
  - destruct suf_n, suf_a; try discriminate. reflexivity.
  - destruct suf_n as [|x suf_n], suf_a as [|y suf_a]; try discriminate.
    cbn [seq for_loop map]. rewrite take_argwhere by exact Hlen. cbn [bind].
    rewrite (insert_app_r_alt pre_n _ a), (insert_app_r_alt pre_a _ a) by lia.
    rewrite Hn, Ha, Nat.sub_diag. cbn [insert list_insert].
    rewrite 2!(cons_middle _ pre_n), 2!(cons_middle _ pre_a), !(assoc_L (++)).
    apply IH; rewrite ?length_app; simpl in *; lia.
Qed.

Lemma pow2 (x : Q) : x ^ 2 == x * x.
Proof. reflexivity. Qed.

Lemma sq_nonneg (z : Q) : 0 <= z ^ 2.
Proof. rewrite pow2. nra. Qed.

Lemma sum_nonneg l : (forall x, x ∈ l -> 0 <= x) -> 0 <= Np.sum l.
Proof.
  induction l as [|x l IH]; intros H; simpl; [lra|].
  assert (0 <= x) by (apply H; left).
  assert (0 <= Np.sum l) by (apply IH; intros y Hy; apply H; right; exact Hy).
  unfold Np.sum in *. lra.
Qed.

Lemma sum_map_ext_in {X} (f g : X -> Q) l :
  (forall x, x ∈ l -> f x == g x) -> Np.sum (map f l) == Np.sum (map g l).
Proof.
  induction l as [|x l IH]; intros H; simpl; [reflexivity|].
  rewrite (H x) by left. rewrite IH; [reflexivity|].
  intros y Hy. apply H. right. exact Hy.
Qed.

Lemma sum_map_le {X} (f g : X -> Q) l :
  (forall x, x ∈ l -> f x <= g x) -> Np.sum (map f l) <= Np.sum (map g l).
Proof.
  induction l as [|x l IH]; intros H; simpl; [lra|].
  assert (f x <= g x) by (apply H; left).
  assert (Np.sum (map f l) <= Np.sum (map g l))
    by (apply IH; intros y Hy; apply H; right; exact Hy).
  unfold Np.sum in *. lra.
Qed.

Lemma sum_map_plus {X} (f g : X -> Q) l :
  Np.sum (map (fun x => f x + g x) l) == Np.sum (map f l) + Np.sum (map g l).
Proof.
  induction l as [|x l IH]; simpl; [lra|]. unfold Np.sum in *. rewrite IH. lra.
Qed.

Lemma sum_map_scale {X} c (f : X -> Q) l :
  Np.sum (map (fun x => c * f x) l) == c * Np.sum (map f l).
Proof.
  induction l as [|x l IH]; simpl; [lra|]. unfold Np.sum in *. rewrite IH. ring.
Qed.

Lemma sum_map_zero {X} (l : list X) : Np.sum (map (fun _ => 0) l) == 0.
Proof. induction l as [|x l IH]; simpl; [lra|]. unfold Np.sum in *. rewrite IH. lra. Qed.

Lemma sum_multiply_map {X} (f g : X -> Q) (l : list X) :
  Np.sum (Np.multiply (map f l) (map g l)) = Np.sum (map (fun i => f i * g i) l).
Proof. induction l as [|x l IH]; simpl; [reflexivity|]. unfold Np.sum in *. simpl. by rewrite IH. Qed.

Lemma power_subtract l mu :
  Np.power (Np.subtract l mu) 2 = map (fun x => (x - mu) ^ 2) l.
Proof. unfold Np.power, Np.subtract. by rewrite map_map. Qed.

Lemma qlen_cons x l : qlen (x :: l) == qlen l + 1.
Proof.
  unfold qlen. cbn [length]. rewrite Nat2Z.inj_succ. unfold Z.succ.
  rewrite inject_Z_plus. reflexivity.
Qed.

Lemma qlen_nonneg l : 0 <= qlen l.
Proof. unfold qlen. change 0 with (inject_Z 0). rewrite <- Zle_Qle. lia. Qed.

Lemma qlen_pos l : l <> [] -> 0 < qlen l.
Proof.
  intros H. unfold qlen. change 0 with (inject_Z 0). rewrite <- Zlt_Qlt.
  destruct l; [congruence|]. simpl. lia.
Qed.

Lemma SS_nonneg mu l : 0 <= SS mu l.
Proof.
  apply sum_nonneg. intros x Hx. apply list_elem_of_fmap in Hx as (y & -> & _).
  apply sq_nonneg.
Qed.

Lemma SS_expand mu l :
  SS mu l == Np.sum (map (fun x => x * x) l) - 2 * mu * Np.sum l + qlen l * mu * mu.
Proof.
  induction l as [|x l IH].
  - unfold SS, qlen. simpl. ring.
  - rewrite qlen_cons. unfold SS in *. cbn [map]. unfold Np.sum in *. cbn [foldr].
    rewrite IH, pow2. ring.
Qed.

Lemma SS_decompose mu l :
  SS mu l == SS (Np.average l) l + qlen l * (Np.average l - mu) ^ 2.
Proof.
  destruct (decide (l = [])) as [->|Hne].
  - unfold SS, qlen. simpl. ring.
  - pose proof (qlen_pos l Hne) as Hpos.
    rewrite !SS_expand, pow2. unfold Np.average. fold (qlen l).
    field. lra.
Qed.

Lemma between_le_SS mu l : qlen l * (Np.average l - mu) ^ 2 <= SS mu l.
Proof. rewrite (SS_decompose mu l). pose proof (SS_nonneg (Np.average l) l). lra. Qed.

Lemma SS_cons mu x l : SS mu (x :: l) == (x - mu) ^ 2 + SS mu l.
Proof. reflexivity. Qed.

Lemma indicator_sum_le (c : Z) (v : Q) (range : list nat) :
  NoDup range -> 0 <= v ->
  Np.sum (map (fun i => if Z.eqb c (Z.of_nat i) then v else 0) range) <= v.
Proof.
  intros Hnd Hv. induction Hnd as [|i range Hi Hnd IH]; simpl; [lra|].
  destruct (Z.eqb_spec c (Z.of_nat i)) as [->|Hne].
  - rewrite (sum_map_ext_in _ (fun _ => 0)).
    + fold (Np.sum (map (fun _ : nat => 0) range)). rewrite sum_map_zero. lra.
    + intros j Hj. destruct (Z.eqb_spec (Z.of_nat i) (Z.of_nat j)) as [E|_]; [|reflexivity].
      apply Nat2Z.inj in E. subst j. contradiction.
  - unfold Np.sum in *. lra.
Qed.

Lemma groups_SS_le mu range codes : forall meas,
  NoDup range ->
  Np.sum (map (fun i => SS mu (group (Z.of_nat i) codes meas)) range) <= SS mu meas.
Proof.
  induction codes as [|c cs IH]; intros meas Hnd.
  - simpl. rewrite (sum_map_zero range). apply SS_nonneg.
  - destruct meas as [|m ms].
    + simpl. rewrite (sum_map_zero range). apply SS_nonneg.
    + rewrite (sum_map_ext_in _
        (fun i => (if Z.eqb c (Z.of_nat i) then (m - mu) ^ 2 else 0)
                  + SS mu (group (Z.of_nat i) cs ms))).
      * rewrite sum_map_plus, SS_cons.
        pose proof (IH ms Hnd).
        pose proof (sq_nonneg (m - mu)).
        pose proof (indicator_sum_le c _ range Hnd H0). lra.
      * intros i _. cbn [group]. destruct (Z.eqb c (Z.of_nat i)).
        -- apply SS_cons.
        -- lra.
Qed.

Lemma numerator_le_denominator mu range codes meas :
  NoDup range ->
  Np.sum (map (fun i => qlen (group (Z.of_nat i) codes meas)
                        * (Np.average (group (Z.of_nat i) codes meas) - mu) ^ 2) range)
  <= SS mu meas.
Proof.
  intros Hnd. eapply Qle_trans; [|apply (groups_SS_le mu range codes meas Hnd)].
  apply sum_map_le. intros i _. apply between_le_SS.
Qed.

Lemma numerator_nonneg mu range codes meas :
  0 <= Np.sum (map (fun i => qlen (group (Z.of_nat i) codes meas)
                        * (Np.average (group (Z.of_nat i) codes meas) - mu) ^ 2) range).
Proof.
  apply sum_nonneg. intros x Hx. apply list_elem_of_fmap in Hx as (y & -> & _).
  apply Qmult_le_0_compat; [apply qlen_nonneg | apply sq_nonneg].
Qed.

Section FactorizeFacts.
Context {A : Type} `{EqDecision A}.
Implicit Types (u : list A) (vs : list (option A)).

Lemma index_of_Some a u i : Pd.index_of a u = Some i -> u !! i = Some a.
Proof.
  revert i. induction u as [|y ys IH]; intros i; simpl; [discriminate|].
  destruct (decide (a = y)) as [->|Hne].
  - intros [= <-]. reflexivity.
  - destruct (Pd.index_of a ys) as [j|]; simpl; [|discriminate].
    intros [= <-]. simpl. by apply IH.
Qed.

Lemma index_of_None a u : Pd.index_of a u = None -> a ∉ u.
Proof.
  induction u as [|y ys IH]; simpl; [intros _; apply not_elem_of_nil|].
  destruct (decide (a = y)) as [->|Hne]; [discriminate|].
  destruct (Pd.index_of a ys); simpl; [discriminate|].
  intros _. apply not_elem_of_cons. split; [exact Hne | by apply IH].
Qed.

Lemma code_for_app u w c v : code_for u c v -> code_for (u ++ w) c v.
Proof.
  destruct v as [b|]; simpl; [|done].
  intros (i & -> & Hi). exists i. split; [done|]. by apply lookup_app_l_Some.
Qed.

Lemma factorize_go_inv vs : forall u codes u',
  NoDup u -> Pd.factorize_go u vs = (codes, u') ->
  NoDup u' /\ (exists w, u' = u ++ w) /\ Forall2 (code_for u') codes vs
  /\ (forall b, b ∈ u' <-> b ∈ u \/ Some b ∈ vs).
Proof.
  induction vs as [|[a|] vs IH]; intros u codes u' Hnd; simpl.
  - intros [= <- <-]. split; [done|]. split; [exists []; by rewrite app_nil_r|].
    split; [constructor|]. intros b. rewrite elem_of_nil. tauto.
  - destruct (Pd.index_of a u) as [i|] eqn:Hidx.
    + destruct (Pd.factorize_go u vs) as [codes0 u0] eqn:Hgo. intros [= <- <-].
      destruct (IH _ _ _ Hnd Hgo) as (Hnd0 & [w ->] & Hcodes & Hel).
      split; [done|]. split; [by exists w|]. split.
      * constructor; [|done]. exists i. split; [done|].
        apply lookup_app_l_Some. by apply index_of_Some.
      * intros b. rewrite Hel, elem_of_cons. split; [tauto|].
        intros [?|[[= ->]|?]]; [tauto| |tauto]. left.
        apply list_elem_of_lookup. exists i. by apply index_of_Some.
    + destruct (Pd.factorize_go (u ++ [a]) vs) as [codes0 u0] eqn:Hgo. intros [= <- <-].
      apply index_of_None in Hidx.
      assert (NoDup (u ++ [a])) as Hnd1.
      { apply NoDup_app. split; [done|]. split; [|apply NoDup_singleton].
        intros x Hx Hxa. apply list_elem_of_singleton in Hxa. by subst. }
      destruct (IH _ _ _ Hnd1 Hgo) as (Hnd0 & [w ->] & Hcodes & Hel).
      split; [done|]. split; [exists ([a] ++ w); by rewrite (assoc_L (++))|]. split.
      * constructor; [|done]. exists (length u). split; [done|].
        rewrite <- (assoc_L (++)). simpl. by apply list_lookup_middle.
      * intros b. rewrite Hel, elem_of_app, list_elem_of_singleton, elem_of_cons.
        split; [intros [[?| ->]|?]; tauto|]. intros [?|[[= ->]|?]]; tauto.
  - destruct (Pd.factorize_go u vs) as [codes0 u0] eqn:Hgo. intros [= <- <-].
    destruct (IH _ _ _ Hnd Hgo) as (Hnd0 & Hw & Hcodes & Hel).
    split; [done|]. split; [done|]. split; [by constructor|].
    intros b. rewrite Hel, elem_of_cons. split; [tauto|].
    intros [?|[?|?]]; [tauto|discriminate|tauto].
Qed.

Lemma factorize_inv vs codes u' :
  Pd.factorize vs = (codes, u') ->
  NoDup u' /\ Forall2 (code_for u') codes vs /\ (forall b, b ∈ u' <-> Some b ∈ vs).
Proof.
  intros Hf. destruct (factorize_go_inv vs [] codes u' (NoDup_nil_2) Hf)
    as (Hnd & _ & Hc & Hel).
  split; [done|]. split; [done|]. intros b. rewrite Hel, elem_of_nil. tauto.
Qed.

Lemma max_spec l m :
  Np.max l = Ok m -> m ∈ l /\ (forall c, c ∈ l -> (c <= m)%Z).
Proof.
  destruct l as [|x xs]; simpl; [discriminate|]. intros [= <-].
  induction xs as [|y ys IH]; simpl.
  - split; [left|]. intros c Hc. apply list_elem_of_singleton in Hc. subst. lia.
  - destruct IH as [Hin Hle]. split.
    + destruct (Z.max_spec y (foldr Z.max x ys)) as [[_ ->]|[_ ->]].
      * apply elem_of_cons in Hin as [Hin|Hin]; [rewrite Hin; left|right; by right].
      * right. left.
    + intros c Hc. apply elem_of_cons in Hc as [->|Hc].
      * assert (x ∈ x :: ys) as Hx by left. specialize (Hle x Hx). lia.
      * apply elem_of_cons in Hc as [->|Hc]; [lia|].
        assert (c ∈ x :: ys) as Hx by (by right). specialize (Hle c Hx). lia.
Qed.

Lemma codes_present vs codes u' i :
  Pd.factorize vs = (codes, u') -> (i < length u')%nat -> Z.of_nat i ∈ codes.
Proof.
  intros Hf Hi. destruct (factorize_inv _ _ _ Hf) as (Hnd & Hc & Hel).
  destruct (lookup_lt_is_Some_2 u' i Hi) as [a Ha].
  assert (Some a ∈ vs) as Hin by (apply Hel, list_elem_of_lookup; eauto).
  apply list_elem_of_lookup in Hin as [j Hj].
  destruct (Forall2_lookup_r _ _ _ _ _ Hc Hj) as (c & Hcj & i' & -> & Hi').
  rewrite (NoDup_lookup _ _ _ _ Hnd Ha Hi').
  apply list_elem_of_lookup. eauto.
Qed.

Lemma codes_bound vs codes u' c :
  Forall2 (code_for u') codes vs -> c ∈ codes ->
  c = (-1)%Z \/ exists i : nat, c = Z.of_nat i /\ (i < length u')%nat.
Proof.
  intros Hc Hin. apply list_elem_of_lookup in Hin as [j Hj].
  destruct (Forall2_lookup_l _ _ _ _ _ Hc Hj) as ([b|] & _ & Hcode); simpl in Hcode.
  - right. destruct Hcode as (i & -> & Hi). exists i. split; [done|].
    by apply lookup_lt_Some in Hi.
  - by left.
Qed.

Lemma max_factorize vs codes u' :
  vs <> [] -> Pd.factorize vs = (codes, u') ->
  Np.max codes = Ok (Z.of_nat (length u') - 1)%Z.
Proof.
  intros Hne Hf. destruct (factorize_inv _ _ _ Hf) as (Hnd & Hc & Hel).
  destruct codes as [|c0 cs].
  { apply Forall2_length in Hc. destruct vs; [done|discriminate]. }
  destruct (Np.max (c0 :: cs)) as [m|] eqn:Hm; [|discriminate].
  destruct (max_spec _ _ Hm) as [Hin Hle]. f_equal.
  destruct (codes_bound _ _ _ _ Hc Hin) as [->|(i & -> & Hi)].
  - destruct (length u') as [|k] eqn:Hk; [lia|].
    assert (Z.of_nat k ∈ c0 :: cs) as Hp by (eapply codes_present; [done|lia]).
    specialize (Hle _ Hp). lia.
  - assert (Z.of_nat (length u' - 1) ∈ c0 :: cs) as Hp
      by (eapply codes_present; [done|lia]).
    specialize (Hle _ Hp). lia.
Qed.

Lemma group_members u' codes vs i a :
  NoDup u' -> Forall2 (code_for u') codes vs -> u' !! i = Some a ->
  forall meas, group (Z.of_nat i) codes meas = members a vs meas.
Proof.
  intros Hnd Hc Ha. induction Hc as [|c v cs vs Hcv Hc IH]; intros meas; [done|].
  destruct meas as [|m ms]; [done|]. cbn [group members]. rewrite IH.
  destruct (decide (v = Some a)) as [->|Hne].
  - destruct Hcv as (i' & -> & Hi'). rewrite (NoDup_lookup _ _ _ _ Hnd Ha Hi').
    by rewrite Z.eqb_refl.
  - destruct (Z.eqb_spec c (Z.of_nat i)) as [->|_]; [|done].
    destruct v as [b|]; simpl in Hcv; [|lia].
    destruct Hcv as (i' & Hii & Hi'). apply Nat2Z.inj in Hii. subst i'. congruence.
Qed.

Lemma members_nonempty a vs : forall meas,
  Some a ∈ vs -> (length vs <= length meas)%nat -> members a vs meas <> [].
Proof.
  induction vs as [|v vs IH]; intros meas Hin Hlen.
  - by apply elem_of_nil in Hin.
  - destruct meas as [|m ms]; [simpl in Hlen; lia|]. cbn [members].
    destruct (decide (v = Some a)) as [->|Hne]; [done|].
    apply IH; [|simpl in Hlen; lia].
    apply elem_of_cons in Hin as [?|?]; [congruence|done].
Qed.

Lemma groups_nonempty vs codes u' meas i :
  Pd.factorize vs = (codes, u') -> (length vs <= length meas)%nat ->
  (i < length u')%nat -> group (Z.of_nat i) codes meas <> [].
Proof.
  intros Hf Hlen Hi. destruct (factorize_inv _ _ _ Hf) as (Hnd & Hc & Hel).
  destruct (lookup_lt_is_Some_2 u' i Hi) as [a Ha].
  rewrite (group_members _ _ _ _ _ Hnd Hc Ha).
  apply members_nonempty; [|done]. apply Hel, list_elem_of_lookup. eauto.
Qed.
End FactorizeFacts.

Section ClosedForm.
Context {A : Type} `{EqDecision A}.

Lemma locals_closed_form (vs : list (option A)) meas codes u' :
  vs <> [] -> (length vs <= length meas)%nat -> Pd.factorize vs = (codes, u') ->
  correlation_ratio_locals vs meas = Ok (closed_locals codes (length u') meas).
Proof.
  intros Hne Hlen Hf. unfold correlation_ratio_locals. rewrite Hf.
  rewrite (max_factorize _ _ _ Hne Hf). cbn [bind].
  replace (Z.of_nat (length u') - 1 + 1)%Z with (Z.of_nat (length u')) by lia.
  rewrite Nat2Z.id.
  destruct (factorize_inv _ _ _ Hf) as (_ & Hc & _).
  apply Forall2_length in Hc.
  assert (length codes <= length meas)%nat as Hlen' by lia.
  pose proof (for_loop_fill codes meas Hlen' (length u') 0%nat [] []
                (Np.zeros (length u')) (Np.zeros (length u'))) as Hloop.
  cbn [app] in Hloop. rewrite Hloop
    by (unfold Np.zeros; rewrite ?length_replicate; done).
  cbn [bind]. unfold closed_locals.
  rewrite !power_subtract, map_map, !sum_multiply_map. reflexivity.
Qed.
End ClosedForm.

(** ** [correlation_ratio]: the value returned *)

Lemma eta_bounds num den :
  0 <= num -> num <= den ->
  0 <= (if Qeq_bool num 0 then 0 else num / den) <= 1
  /\ (~ num == 0 -> 0 < den).
Proof.
  intros H0 Hle. destruct (Qeq_bool num 0) eqn:Hz.
  - apply Qeq_bool_eq in Hz. split; [lra|]. intros Hn. contradiction.
  - apply Qeq_bool_neq in Hz. assert (0 < den) as Hden by lra.
    split; [|done]. split.
    + apply Qle_shift_div_l; [done|]. lra.
    + apply Qle_shift_div_r; [done|]. lra.
Qed.

Lemma closed_locals_bounds codes K meas :
  0 <= numerator (closed_locals codes K meas)
  /\ numerator (closed_locals codes K meas) <= denominator (closed_locals codes K meas).
Proof.
  unfold closed_locals. cbn [numerator denominator]. split.
  - apply numerator_nonneg.
  - apply numerator_le_denominator, NoDup_seq.
Qed.

Lemma closed_locals_eta codes K meas :
  eta (closed_locals codes K meas)
  = if Qeq_bool (numerator (closed_locals codes K meas)) 0 then 0
    else numerator (closed_locals codes K meas) / denominator (closed_locals codes K meas).
Proof. reflexivity. Qed.

Section Returned.
Context {A : Type} `{EqDecision A}.
Implicit Types (categories : list (option A)) (measurements : list Q).

Lemma correlation_ratio_closed_form categories measurements :
  categories <> [] -> length categories = length measurements ->
  exists codes uniques,
    Pd.factorize categories = (codes, uniques)
    /\ correlation_ratio_locals categories measurements
       = Ok (closed_locals codes (length uniques) measurements)
    /\ correlation_ratio categories measurements
       = Ok (eta (closed_locals codes (length uniques) measurements)).
Proof.
  intros Hne Hlen. destruct (Pd.factorize categories) as [codes uniques] eqn:Hf.
  exists codes, uniques. split; [done|].
  assert (correlation_ratio_locals categories measurements
          = Ok (closed_locals codes (length uniques) measurements)) as Hl
    by (apply locals_closed_form; [done|lia|done]).
  split; [done|]. unfold correlation_ratio. by rewrite Hl.
Qed.

(** C3: on a non-empty input of equal lengths the returned value lies in
    [0, 1]; and when the numerator is not zero the denominator is strictly
    positive and at least the numerator, so the quotient returned in the
    else-branch is a genuine division. *)
Theorem eta_in_unit_interval categories measurements :
  categories <> [] -> length categories = length measurements ->
  exists l,
    correlation_ratio_locals categories measurements = Ok l
    /\ correlation_ratio categories measurements = Ok (eta l)
    /\ 0 <= eta l <= 1
    /\ (~ numerator l == 0 ->
        0 < denominator l /\ numerator l <= denominator l
        /\ eta l = numerator l / denominator l).
Proof.
  intros Hne Hlen.
  destruct (correlation_ratio_closed_form _ _ Hne Hlen) as (codes & u & _ & Hl & Hr).
  eexists. split; [exact Hl|]. split; [exact Hr|].
  destruct (closed_locals_bounds codes (length u) measurements) as [H0 Hle].
  destruct (eta_bounds _ _ H0 Hle) as [Hb Hpos]. rewrite closed_locals_eta.
  split; [exact Hb|]. intros Hn. split; [by apply Hpos|]. split; [done|].
  destruct (Qeq_bool _ 0) eqn:Hz; [|done]. apply Qeq_bool_eq in Hz. contradiction.
Qed.
End Returned.

Lemma eta_in_unit_interval_witness :
  exists l,
    correlation_ratio_locals [Some "a"; Some "b"; None; Some "a"]%string [1; 2; 5; 4] = Ok l
    /\ correlation_ratio [Some "a"; Some "b"; None; Some "a"]%string [1; 2; 5; 4] = Ok (eta l)
    /\ 0 <= eta l <= 1
    /\ (~ numerator l == 0 ->
        0 < denominator l /\ numerator l <= denominator l
        /\ eta l = numerator l / denominator l).
Proof. apply eta_in_unit_interval; [discriminate | reflexivity]. Defined.

(** ** [correlation_ratio]: when the numerator vanishes *)

Lemma SS_proper mu mu' l : mu == mu' -> SS mu l == SS mu' l.
Proof. intros E. rewrite !SS_expand, E. reflexivity. Qed.

Lemma group_subset g codes : forall meas x, x ∈ group g codes meas -> x ∈ meas.
Proof.
  induction codes as [|c cs IH]; intros meas x; simpl; [by rewrite elem_of_nil|].
  destruct meas as [|m ms]; [by rewrite elem_of_nil|].
  destruct (Z.eqb c g); intros Hx.
  - apply elem_of_cons in Hx as [->|Hx]; [left|right; by apply IH].
  - right. by apply IH.
Qed.

Lemma sum_const l v : (forall x, x ∈ l -> x == v) -> Np.sum l == qlen l * v.
Proof.
  induction l as [|x l IH]; intros H.
  - unfold qlen. simpl. ring.
  - rewrite qlen_cons. cbn [Np.sum foldr]. fold (Np.sum l).
    rewrite (H x) by left. rewrite IH; [ring|]. intros y Hy. apply H. by right.
Qed.

Lemma average_const l v :
  l <> [] -> (forall x, x ∈ l -> x == v) -> Np.average l == v.
Proof.
  intros Hne H. pose proof (qlen_pos l Hne). unfold Np.average. fold (qlen l).
  rewrite (sum_const l v H). field. lra.
Qed.

Lemma SS_const l v : (forall x, x ∈ l -> x == v) -> SS v l == 0.
Proof.
  intros H. unfold SS. rewrite (sum_map_ext_in _ (fun _ => 0)); [apply sum_map_zero|].
  intros x Hx. rewrite (H x Hx), pow2. ring.
Qed.

Lemma identical_value meas : identical meas -> exists v, forall x, x ∈ meas -> x == v.
Proof.
  destruct meas as [|v ms]; intros Hid.
  - exists 0. intros x Hx. by apply elem_of_nil in Hx.
  - exists v. intros x Hx. apply Hid; [done|left].
Qed.

Section Groups.
Variables (codes : list Z) (K : nat) (meas : list Q).
Hypothesis groups_inhabited :
  forall i, (i < K)%nat -> group (Z.of_nat i) codes meas <> [].

Local Abbreviation N := (fun i : nat => qlen (group (Z.of_nat i) codes meas)).
Local Abbreviation AV := (fun i : nat => Np.average (group (Z.of_nat i) codes meas)).

Lemma counts_sum_pos : (0 < K)%nat -> 0 < Np.sum (map N (seq 0 K)).
Proof using groups_inhabited.
  intros HK. destruct K as [|k]; [lia|]. cbn [seq map Np.sum foldr].
  assert (0 < N 0%nat) by (apply qlen_pos, groups_inhabited; lia).
  assert (0 <= Np.sum (map N (seq 1 k))).
  { apply sum_nonneg. intros x Hx. apply list_elem_of_fmap in Hx as (y & -> & _).
    apply qlen_nonneg. }
  unfold Np.sum in *. lra.
Qed.

Lemma single_group_numerator :
  (K <= 1)%nat -> numerator (closed_locals codes K meas) == 0.
Proof using groups_inhabited.
  intros HK. destruct K as [|[|k]]; [reflexivity| |lia].
  assert (0 < N 0%nat) as Hpos by (apply qlen_pos, groups_inhabited; lia).
  unfold closed_locals. cbn [numerator seq map Np.sum foldr].
  rewrite pow2. field. cbv beta in Hpos. lra.
Qed.

Lemma identical_numerator :
  identical meas -> numerator (closed_locals codes K meas) == 0.
Proof using groups_inhabited.
  intros Hid. destruct (identical_value meas Hid) as [v Hv].
  assert (forall i, i ∈ seq 0 K -> AV i == v) as Hav.
  { intros i Hi. apply elem_of_seq in Hi. apply average_const.
    - apply groups_inhabited. lia.
    - intros x Hx. apply Hv. eapply group_subset, Hx. }
  unfold closed_locals. cbn [numerator].
  set (mu := Np.sum (map (fun i => AV i * N i) (seq 0 K)) / Np.sum (map N (seq 0 K))).
  destruct (Nat.eq_dec K 0%nat) as [HK0|HK]; [rewrite HK0; reflexivity|].
  assert (0 < Np.sum (map N (seq 0 K))) as Hpos by (apply counts_sum_pos; lia).
  assert (mu == v) as Hmu.
  { unfold mu. rewrite (sum_map_ext_in _ (fun i => v * N i)).
    - rewrite sum_map_scale. field. lra.
    - intros i Hi. cbv beta. rewrite (Hav i Hi). reflexivity. }
  rewrite (sum_map_ext_in _ (fun _ => 0)); [apply sum_map_zero|].
  intros i Hi. cbv beta. rewrite (Hav i Hi), Hmu, pow2. ring.
Qed.

Lemma identical_denominator :
  identical meas -> (0 < K)%nat -> denominator (closed_locals codes K meas) == 0.
Proof using groups_inhabited.
  intros Hid HK. destruct (identical_value meas Hid) as [v Hv].
  assert (forall i, i ∈ seq 0 K -> AV i == v) as Hav.
  { intros i Hi. apply elem_of_seq in Hi. apply average_const.
    - apply groups_inhabited. lia.
    - intros x Hx. apply Hv. eapply group_subset, Hx. }
  pose proof (counts_sum_pos HK) as Hpos.
  unfold closed_locals. cbn [denominator].
  rewrite (SS_proper _ v); [by apply SS_const|].
  rewrite (sum_map_ext_in _ (fun i => v * N i)).
  - rewrite sum_map_scale. field. lra.
  - intros i Hi. cbv beta. rewrite (Hav i Hi). reflexivity.
Qed.
End Groups.

Section ZeroNumerator.
Context {A : Type} `{EqDecision A}.
Implicit Types (categories : list (option A)) (measurements : list Q).

Lemma single_category_uniques categories codes uniques :
  Pd.factorize categories = (codes, uniques) ->
  single_category categories -> (length uniques <= 1)%nat.
Proof.
  intros Hf Hs. destruct (factorize_inv _ _ _ Hf) as (Hnd & _ & Hel).
  destruct uniques as [|a [|b rest]]; simpl; [lia|lia|]. exfalso.
  assert (a = b) as ->.
  { apply Hs; apply Hel; [left|right; left]. }
  apply NoDup_cons in Hnd as [Hnin _]. apply Hnin. left.
Qed.

(** Over exact arithmetic: whenever the between-group sum (the numerator) is exactly zero the
    function returns exactly 0 instead of the quotient; this is the case
    for every input with a single category and for every input whose
    measurements are all the same number (where, as soon as some label is
    present, the denominator is zero as well: the quotient would be 0/0). *)
Theorem zero_numerator_returns_zero categories measurements :
  categories <> [] -> length categories = length measurements ->
  exists l,
    correlation_ratio_locals categories measurements = Ok l
    /\ (numerator l == 0 -> correlation_ratio categories measurements = Ok 0)
    /\ (single_category categories ->
        numerator l == 0 /\ correlation_ratio categories measurements = Ok 0)
    /\ (identical measurements ->
        numerator l == 0 /\ correlation_ratio categories measurements = Ok 0
        /\ ((exists a, Some a ∈ categories) -> denominator l == 0)).
Proof.
  intros Hne Hlen.
  destruct (correlation_ratio_closed_form _ _ Hne Hlen) as (codes & u & Hf & Hl & Hr).
  eexists. split; [exact Hl|].
  assert (forall i, (i < length u)%nat ->
            group (Z.of_nat i) codes measurements <> []) as Hgroups.
  { intros i Hi. eapply groups_nonempty; [exact Hf|lia|done]. }
  assert (numerator (closed_locals codes (length u) measurements) == 0 ->
          correlation_ratio categories measurements = Ok 0) as Hzero.
  { intros Hz. rewrite Hr, closed_locals_eta.
    apply Qeq_eq_bool in Hz. by rewrite Hz. }
  split; [exact Hzero|]. split.
  - intros Hs.
    assert (numerator (closed_locals codes (length u) measurements) == 0) as Hz.
    { apply single_group_numerator; [done|]. eapply single_category_uniques; done. }
    split; [done|]. by apply Hzero.
  - intros Hid.
    assert (numerator (closed_locals codes (length u) measurements) == 0) as Hz
      by (by apply identical_numerator).
    split; [done|]. split; [by apply Hzero|].
    intros [a Ha]. apply identical_denominator; [done|done|].
    destruct (factorize_inv _ _ _ Hf) as (_ & _ & Hel).
    apply Hel in Ha. destruct u; [by apply elem_of_nil in Ha|simpl; lia].
Qed.
End ZeroNumerator.

(** ** [correlation_ratio]: a constant added to every measurement *)

Lemma group_map (f : Q -> Q) g codes : forall meas,
  group g codes (map f meas) = map f (group g codes meas).
Proof.
  induction codes as [|c cs IH]; intros [|m ms]; simpl; try reflexivity.
  destruct (Z.eqb c g); simpl; by rewrite IH.
Qed.

Lemma qlen_map (f : Q -> Q) l : qlen (map f l) = qlen l.
Proof. unfold qlen. by rewrite length_map. Qed.

Lemma sum_shift c l : Np.sum (shift c l) == Np.sum l + qlen l * c.
Proof.
  induction l as [|x l IH].
  - unfold qlen. simpl. ring.
  - rewrite qlen_cons. cbn [shift map Np.sum foldr].
    fold (shift c l) (Np.sum (shift c l)) (Np.sum l). rewrite IH. ring.
Qed.

Lemma average_shift c l : l <> [] -> Np.average (shift c l) == Np.average l + c.
Proof.
  intros Hne. pose proof (qlen_pos l Hne). unfold Np.average.
  fold (qlen (shift c l)) (qlen l). unfold shift at 2. rewrite qlen_map, sum_shift.
  field. lra.
Qed.

Lemma SS_shift mu c l : SS (mu + c) (shift c l) == SS mu l.
Proof.
  unfold SS, shift. rewrite map_map. apply sum_map_ext_in.
  intros x _. cbv beta. rewrite !pow2. ring.
Qed.

Lemma eta_proper num num' den den' :
  num' == num -> den' == den ->
  (if Qeq_bool num' 0 then 0 else num' / den')
  == (if Qeq_bool num 0 then 0 else num / den).
Proof.
  intros En Ed. destruct (Qeq_bool num 0) eqn:Hz.
  - apply Qeq_bool_eq in Hz. rewrite <- En in Hz. apply Qeq_eq_bool in Hz.
    rewrite Hz. reflexivity.
  - apply Qeq_bool_neq in Hz. destruct (Qeq_bool num' 0) eqn:Hz'.
    + apply Qeq_bool_eq in Hz'. rewrite En in Hz'. contradiction.
    + rewrite En, Ed. reflexivity.
Qed.

Lemma shift_closed_locals codes K meas c :
  (forall i, (i < K)%nat -> group (Z.of_nat i) codes meas <> []) ->
  eta (closed_locals codes K (shift c meas)) == eta (closed_locals codes K meas).
Proof.
  intros Hgroups. destruct (Nat.eq_dec K 0%nat) as [->|HK]; [reflexivity|].
  rewrite !closed_locals_eta.
  assert (forall i, i ∈ seq 0 K ->
            Np.average (group (Z.of_nat i) codes (shift c meas))
            == Np.average (group (Z.of_nat i) codes meas) + c) as Hav.
  { intros i Hi. apply elem_of_seq in Hi. unfold shift at 1. rewrite group_map.
    apply average_shift, Hgroups. lia. }
  assert (forall i, qlen (group (Z.of_nat i) codes (shift c meas))
                    = qlen (group (Z.of_nat i) codes meas)) as Hn.
  { intros i. unfold shift. by rewrite group_map, qlen_map. }
  pose proof (counts_sum_pos codes K meas Hgroups ltac:(lia)) as Hpos.
  assert (y_total_avg (closed_locals codes K (shift c meas))
          == y_total_avg (closed_locals codes K meas) + c) as Hmu.
  { unfold closed_locals. cbn [y_total_avg].
    rewrite (sum_map_ext_in
               (fun i => Np.average (group (Z.of_nat i) codes (shift c meas))
                         * qlen (group (Z.of_nat i) codes (shift c meas)))
               (fun i => Np.average (group (Z.of_nat i) codes meas)
                         * qlen (group (Z.of_nat i) codes meas)
                         + c * qlen (group (Z.of_nat i) codes meas))).
    - rewrite sum_map_plus, sum_map_scale.
      rewrite (map_ext _ _ Hn). field. lra.
    - intros i Hi. cbv beta. rewrite (Hav i Hi), Hn. ring. }
  apply eta_proper.
  - unfold closed_locals in *. cbn [numerator y_total_avg] in *.
    apply sum_map_ext_in. intros i Hi. cbv beta.
    rewrite (Hav i Hi), Hn, Hmu, !pow2. ring.
  - unfold closed_locals in *. cbn [denominator y_total_avg] in *.
    rewrite (SS_proper _ _ _ Hmu). apply SS_shift.
Qed.

Lemma shift_correlation_ratio {A : Type} `{EqDecision A}
    (categories : list (option A)) (measurements : list Q) (c : Q) :
  categories <> [] -> length categories = length measurements ->
  exists e e',
    correlation_ratio categories measurements = Ok e
    /\ correlation_ratio categories (shift c measurements) = Ok e'
    /\ e' == e.
Proof.
  intros Hne Hlen.
  destruct (correlation_ratio_closed_form _ _ Hne Hlen) as (codes & u & Hf & _ & Hr).
  assert (length categories = length (shift c measurements)) as Hlen'
    by (unfold shift; by rewrite length_map).
  destruct (correlation_ratio_closed_form _ _ Hne Hlen') as (codes' & u' & Hf' & _ & Hr').
  rewrite Hf in Hf'. injection Hf' as <- <-.
  eexists _, _. split; [exact Hr|]. split; [exact Hr'|].
  apply shift_closed_locals. intros i Hi.
  eapply groups_nonempty; [exact Hf|lia|done].
Qed.

(** X28: over exact arithmetic, adding one constant to every measurement
    never changes the returned value, whether the categories are balanced
    or not. *)
Theorem shift_invariant {A : Type} `{EqDecision A}
    (categories : list (option A)) (measurements : list Q) (c : Q) :
  categories <> [] -> length categories = length measurements ->
  exists e e',
    correlation_ratio categories measurements = Ok e
    /\ correlation_ratio categories (shift c measurements) = Ok e'
    /\ e' == e.
Proof. apply shift_correlation_ratio. Qed.

Lemma shift_invariant_witness :
  exists e e',
    correlation_ratio [Some "m"; Some "m"; Some "f"]%string [1; 2; 4] = Ok e
    /\ correlation_ratio [Some "m"; Some "m"; Some "f"]%string (shift 10 [1; 2; 4]) = Ok e'
    /\ e' == e.
Proof. apply shift_invariant; [discriminate | reflexivity]. Defined.

(** ** [correlation_ratio] against its contract *)

Lemma map_seq_lookup {X Y : Type} (f : nat -> Y) (g : X -> Y) (u : list X) : forall k,
  (forall i a, u !! i = Some a -> f (k + i)%nat = g a) ->
  map f (seq k (length u)) = map g u.
Proof.
  induction u as [|x u IH]; intros k H; simpl; [reflexivity|]. f_equal.
  - rewrite <- (H 0%nat x eq_refl). f_equal. lia.
  - apply IH. intros i a Hi. rewrite <- (H (S i) a Hi). f_equal. lia.
Qed.

Lemma sum_Permutation {X : Type} (f : X -> Q) (l k : list X) :
  l ≡ₚ k -> Np.sum (map f l) == Np.sum (map f k).
Proof.
  induction 1 as [|x l k _ IH|x y l|l k m _ IH1 _ IH2]; simpl.
  - reflexivity.
  - fold (Np.sum (map f l)) (Np.sum (map f k)). rewrite IH. reflexivity.
  - ring.
  - rewrite IH1. exact IH2.
Qed.

Section Contract.
Context {A : Type} `{EqDecision A}.
Implicit Types (categories : list (option A)) (measurements : list Q).

Lemma uniques_distinct categories codes uniques :
  Pd.factorize categories = (codes, uniques) ->
  uniques ≡ₚ distinct_categories categories.
Proof.
  intros Hf. destruct (factorize_inv _ _ _ Hf) as (Hnd & _ & Hel).
  apply NoDup_Permutation; [done|apply NoDup_remove_dups|].
  intros a. unfold distinct_categories. rewrite Hel, elem_of_remove_dups, list_elem_of_omap.
  split.
  - intros Ha. by exists (Some a).
  - intros ([b|] & Hb & [= ->]). done.
Qed.

Lemma map_groups_members (F : list Q -> Q) categories measurements codes uniques :
  Pd.factorize categories = (codes, uniques) ->
  map (fun i : nat => F (group (Z.of_nat i) codes measurements)) (seq 0 (length uniques))
  = map (fun a => F (members a categories measurements)) uniques.
Proof.
  intros Hf. destruct (factorize_inv _ _ _ Hf) as (Hnd & Hc & _).
  apply map_seq_lookup. intros i a Hi. simpl.
  by rewrite (group_members _ _ _ _ _ Hnd Hc Hi).
Qed.

Lemma sum_groups_members (F : list Q -> Q) categories measurements codes uniques :
  Pd.factorize categories = (codes, uniques) ->
  Np.sum (map (fun i : nat => F (group (Z.of_nat i) codes measurements))
              (seq 0 (length uniques)))
  == Np.sum (map (fun a => F (members a categories measurements))
                 (distinct_categories categories)).
Proof.
  intros Hf. rewrite (map_groups_members F _ _ _ _ Hf).
  apply sum_Permutation. eapply uniques_distinct, Hf.
Qed.

(** C1: on a non-empty input of equal lengths, the arrays built by the loop
    hold the count and the mean of the measurements of each distinct
    category (every count is positive, so each mean is a genuine quotient,
    and so is the grand mean as soon as one label is present),
    [y_total_avg] is the count-weighted grand mean, the numerator
    is the weighted between-group sum of squares, the denominator the total
    sum of squares about the grand mean, and, the numerator not being zero,
    the value returned is their quotient. *)
Theorem correlation_ratio_meets_contract categories measurements :
  categories <> [] -> length categories = length measurements ->
  exists l uniques,
    correlation_ratio_locals categories measurements = Ok l
    /\ correlation_ratio categories measurements = Ok (eta l)
    /\ uniques ≡ₚ distinct_categories categories
    /\ n_array l = map (fun a => count (members a categories measurements)) uniques
    /\ y_avg_array l = map (fun a => mean (members a categories measurements)) uniques
    /\ Forall (fun n => 0 < n) (n_array l)
    /\ ((exists a, Some a ∈ categories) -> 0 < Np.sum (n_array l))
    /\ y_total_avg l == grand_mean categories measurements
    /\ numerator l == between_groups categories measurements
    /\ denominator l == total_squares categories measurements
    /\ (~ numerator l == 0 -> eta l == eta_spec categories measurements).
Proof.
  intros Hne Hlen.
  destruct (correlation_ratio_closed_form _ _ Hne Hlen) as (codes & u & Hf & Hl & Hr).
  eexists _, u. split; [exact Hl|]. split; [exact Hr|].
  split; [eapply uniques_distinct, Hf|].
  split; [exact (map_groups_members qlen _ _ _ _ Hf)|].
  split; [exact (map_groups_members Np.average _ _ _ _ Hf)|].
  assert (forall i, (i < length u)%nat ->
            group (Z.of_nat i) codes measurements <> []) as Hgroups.
  { intros i Hi. eapply groups_nonempty; [exact Hf|lia|done]. }
  split.
  { unfold closed_locals. cbn [n_array]. apply Forall_forall. intros n Hn.
    apply list_elem_of_fmap in Hn as (i & -> & Hi). apply elem_of_seq in Hi.
    apply qlen_pos, Hgroups. lia. }
  split.
  { intros [a Ha]. unfold closed_locals. cbn [n_array].
    apply counts_sum_pos; [done|].
    destruct (factorize_inv _ _ _ Hf) as (_ & _ & Hel).
    apply Hel in Ha. destruct u; [by apply elem_of_nil in Ha|simpl; lia]. }
  assert (y_total_avg (closed_locals codes (length u) measurements)
          == grand_mean categories measurements) as Hmu.
  { unfold closed_locals, grand_mean. cbn [y_total_avg].
    rewrite (sum_groups_members (fun g => Np.average g * qlen g) _ _ _ _ Hf).
    rewrite (sum_groups_members qlen _ _ _ _ Hf).
    apply Qdiv_comp; [|reflexivity].
    apply sum_map_ext_in. intros a _. unfold mean, count, Np.average, qlen. ring. }
  assert (numerator (closed_locals codes (length u) measurements)
          == between_groups categories measurements) as Hnum.
  { unfold between_groups, closed_locals in *. cbn [numerator y_total_avg] in *.
    set (mu := Np.sum _ / Np.sum _) in *.
    rewrite (sum_groups_members (fun g => qlen g * (Np.average g - mu) ^ 2) _ _ _ _ Hf).
    apply sum_map_ext_in. intros a _. cbv beta. rewrite Hmu. reflexivity. }
  assert (denominator (closed_locals codes (length u) measurements)
          == total_squares categories measurements) as Hden.
  { unfold total_squares. fold (SS (grand_mean categories measurements) measurements).
    rewrite <- (SS_proper _ _ _ Hmu). reflexivity. }
  split; [exact Hmu|]. split; [exact Hnum|]. split; [exact Hden|].
  intros Hn. rewrite closed_locals_eta. unfold eta_spec.
  destruct (Qeq_bool _ 0) eqn:Hz.
  - apply Qeq_bool_eq in Hz. contradiction.
  - rewrite Hnum, Hden. reflexivity.
Qed.
End Contract.

Lemma correlation_ratio_meets_contract_witness :
  exists l uniques,
    correlation_ratio_locals [Some "S"; Some "C"; None; Some "S"]%string [7; 8; 9; 12] = Ok l
    /\ correlation_ratio [Some "S"; Some "C"; None; Some "S"]%string [7; 8; 9; 12] = Ok (eta l)
    /\ uniques ≡ₚ distinct_categories [Some "S"; Some "C"; None; Some "S"]%string
    /\ n_array l
       = map (fun a => count (members a [Some "S"; Some "C"; None; Some "S"]%string
                                      [7; 8; 9; 12])) uniques
    /\ y_avg_array l
       = map (fun a => mean (members a [Some "S"; Some "C"; None; Some "S"]%string
                                     [7; 8; 9; 12])) uniques
    /\ Forall (fun n => 0 < n) (n_array l)
    /\ ((exists a, Some a ∈ [Some "S"; Some "C"; None; Some "S"]%string)
        -> 0 < Np.sum (n_array l))
    /\ y_total_avg l == grand_mean [Some "S"; Some "C"; None; Some "S"]%string [7; 8; 9; 12]
    /\ numerator l == between_groups [Some "S"; Some "C"; None; Some "S"]%string [7; 8; 9; 12]
    /\ denominator l == total_squares [Some "S"; Some "C"; None; Some "S"]%string [7; 8; 9; 12]
    /\ (~ numerator l == 0 ->
        eta l == eta_spec [Some "S"; Some "C"; None; Some "S"]%string [7; 8; 9; 12]).
Proof. apply correlation_ratio_meets_contract; [discriminate | reflexivity]. Defined.

(** ** [correlation_ratio]: renaming the categories *)

Section Renaming.
Context {A B : Type} `{EqDecision A} `{EqDecision B}.
Variable r : A -> B.
Hypothesis r_inj : forall a b, r a = r b -> a = b.

Lemma index_of_rename a u : Pd.index_of (r a) (map r u) = Pd.index_of a u.
Proof using r_inj.
  induction u as [|y ys IH]; simpl; [reflexivity|].
  destruct (decide (r a = r y)) as [E|N], (decide (a = y)) as [E'|N'].
  - reflexivity.
  - apply r_inj in E. contradiction.
  - subst. contradiction.
  - by rewrite IH.
Qed.

Lemma factorize_go_rename vs : forall u,
  Pd.factorize_go (map r u) (map (fmap r) vs)
  = ((Pd.factorize_go u vs).1, map r (Pd.factorize_go u vs).2).
Proof using r_inj.
  induction vs as [|[a|] vs IH]; intros u; simpl.
  - reflexivity.
  - rewrite index_of_rename. destruct (Pd.index_of a u) as [i|].
    + rewrite IH. by destruct (Pd.factorize_go u vs).
    + rewrite <- (length_map r u).
      change (map r u ++ [r a]) with (map r u ++ map r [a]). rewrite <- map_app.
      rewrite IH. rewrite length_map. by destruct (Pd.factorize_go (u ++ [a]) vs).
  - rewrite IH. by destruct (Pd.factorize_go u vs).
Qed.

Lemma factorize_rename vs :
  (Pd.factorize (map (fmap r) vs)).1 = (Pd.factorize vs).1.
Proof using r_inj.
  unfold Pd.factorize. change (@nil B) with (map r []).
  by rewrite factorize_go_rename.
Qed.

Lemma correlation_ratio_locals_codes (vs : list (option A)) (ws : list (option B)) meas :
  (Pd.factorize ws).1 = (Pd.factorize vs).1 ->
  correlation_ratio_locals ws meas = correlation_ratio_locals vs meas.
Proof.
  unfold correlation_ratio_locals.
  destruct (Pd.factorize ws) as [c1 u1], (Pd.factorize vs) as [c2 u2]. simpl.
  by intros ->.
Qed.
End Renaming.

(** C10: the returned value (or the exception raised) depends on the
    categories only through the partition of the positions they induce: an
    injective renaming of the labels changes nothing. *)
Theorem renaming_invariant {A B : Type} `{EqDecision A} `{EqDecision B}
    (r : A -> B) (categories : list (option A)) (measurements : list Q) :
  (forall a b, r a = r b -> a = b) ->
  correlation_ratio (map (fmap r) categories) measurements
  = correlation_ratio categories measurements.
Proof.
  intros Hinj. unfold correlation_ratio.
  rewrite (correlation_ratio_locals_codes categories (map (fmap r) categories));
    [reflexivity|].
  by apply factorize_rename.
Qed.

Lemma renaming_invariant_witness :
  correlation_ratio (map (fmap Z.of_nat) [Some 1%nat; Some 1%nat; Some 3%nat; None])
                    [1; 2; 4; 6]
  = correlation_ratio [Some 1%nat; Some 1%nat; Some 3%nat; None] [1; 2; 4; 6].
Proof. apply (renaming_invariant Z.of_nat). intros a b. lia. Defined.

(** ** [clean]: running it on a passenger table *)

Local Close Scope Q_scope.
Local Open Scope string_scope.
Local Open Scope list_scope.

Lemma fill_length v col : length (fill v col) = length col.
Proof. apply length_map. Qed.

Lemma fill_lookup_present v col i x :
  col !! i = Some x -> isna x = false -> fill v col !! i = Some x.
Proof. intros Hi Hx. unfold fill. rewrite list_lookup_fmap, Hi. simpl. by rewrite Hx. Qed.

Lemma fill_NaN col : fill NaN col = col.
Proof.
  induction col as [|x col IH]; [reflexivity|]. unfold fill in *. simpl.
  rewrite IH. by destruct x.
Qed.


Lemma numbers_numeric col :
  forallb (fun x => match x with Str _ => false | _ => true end) col = true ->
  exists qs, numbers col = Ok qs.
Proof.
  induction col as [|[|q|s] col IH]; simpl; intros H.
  - by exists [].
  - by apply IH.
  - destruct (IH H) as [qs ->]. by exists (q :: qs).
  - discriminate.
Qed.

Lemma numbers_has_value col qs :
  numbers col = Ok qs -> existsb (fun x => negb (isna x)) col = true -> qs <> [].
Proof.
  revert qs. induction col as [|[|q|s] col IH]; simpl; intros qs Hn Hex.
  - discriminate.
  - by apply IH.
  - destruct (numbers col); simpl in Hn; [|discriminate]. by injection Hn as <-.
  - discriminate.
Qed.

Lemma mean_of_numeric col :
  forallb (fun x => match x with Str _ => false | _ => true end) col = true ->
  exists m, mean_of col = Ok m
    /\ (existsb (fun x => negb (isna x)) col = true -> exists q, m = Num q).
Proof.
  intros Hnum. destruct (numbers_numeric col Hnum) as [qs Hqs].
  unfold mean_of. rewrite Hqs. simpl. destruct qs as [|q qs].
  - exists NaN. split; [done|]. intros Hex.
    by destruct (numbers_has_value _ _ Hqs Hex).
  - eexists. split; [reflexivity|]. intros _. by eexists.
Qed.

Section Run.
Variables (h : list DataFrame) (fr : DataFrame) (key : string) (col : list cell).
Hypothesis Hcol : columns fr !! key = Some col.

Lemma getitem_run :
  DataFrame.getitem (length h) key (h ++ [fr])
  = (Ok (SeriesOf (length h) key), h ++ [fr]).
Proof using Hcol.
  unfold DataFrame.getitem. rewrite list_lookup_middle by done. by rewrite Hcol.
Qed.

Lemma values_run :
  Series.values (SeriesOf (length h) key) (h ++ [fr]) = (Ok col, h ++ [fr]).
Proof using Hcol.
  unfold Series.values. simpl. rewrite list_lookup_middle by done. by rewrite Hcol.
Qed.

Lemma mean_run m :
  mean_of col = Ok m ->
  Series.mean (SeriesOf (length h) key) (h ++ [fr]) = (Ok m, h ++ [fr]).
Proof using Hcol.
  intros Hm. unfold Series.mean, bindM. rewrite values_run, Hm. reflexivity.
Qed.

Lemma fillna_run v :
  Series.fillna (SeriesOf (length h) key) v (h ++ [fr])
  = (Ok tt, h ++ [Frame (nrows fr) (<[key := fill v col]> (columns fr))]).
Proof using Hcol.
  unfold Series.fillna, bindM. rewrite values_run. simpl.
  rewrite list_lookup_middle by done.
  rewrite insert_app_r_alt by lia. by rewrite Nat.sub_diag.
Qed.
End Run.

Lemma drop_run h data df labels :
  h !! data = Some df ->
  forallb (has_column df) labels = true ->
  DataFrame.drop data labels h
  = (Ok (length h), h ++ [Frame (nrows df) (foldr delete (columns df) labels)]).
Proof.
  intros Hd Hall. unfold DataFrame.drop. rewrite Hd.
  replace (forallb _ labels) with true; [done|]. symmetry.
  apply forallb_forall. intros c Hc.
  apply (proj1 (forallb_forall _ _) Hall) in Hc. unfold has_column in Hc.
  apply bool_decide_eq_true. by destruct (columns df !! c).
Qed.

Lemma insert_fill_alter (m : gmap string (list cell)) k v col :
  m !! k = Some col -> <[k := fill v col]> m = alter (fill v) k m.
Proof.
  intros Hk. apply map_eq. intros j. destruct (decide (k = j)) as [->|Hne].
  - by rewrite lookup_insert_eq, lookup_alter_eq, Hk.
  - by rewrite lookup_insert_ne, lookup_alter_ne.
Qed.

Ltac solve_column :=
  cbn [columns nrows foldr];
  repeat (rewrite lookup_insert_ne by done);
  repeat (rewrite lookup_delete_ne by done);
  eassumption.

Lemma passenger_table_columns df :
  passenger_table df = true ->
  forallb (has_column df) ["Name"; "Ticket"; "Cabin"] = true
  /\ exists age embarked sibsp parch fare,
      columns df !! "Age" = Some age /\ columns df !! "Embarked" = Some embarked
      /\ columns df !! "SibSp" = Some sibsp /\ columns df !! "Parch" = Some parch
      /\ columns df !! "Fare" = Some fare
      /\ forallb (fun x => match x with Str _ => false | _ => true end) age = true
      /\ forallb (fun x => match x with Str _ => false | _ => true end) fare = true.
Proof.
  unfold passenger_table, numeric_column. cbn [forallb]. unfold has_column.
  intros H.
  repeat match goal with
         | H : _ && _ = true |- _ => apply andb_true_iff in H as [? ?]
         end.
  split; [by repeat (apply andb_true_iff; split)|].
  destruct (columns df !! "Age") as [age|]; [|done].
  destruct (columns df !! "Embarked") as [embarked|]; [|done].
  destruct (columns df !! "SibSp") as [sibsp|]; [|done].
  destruct (columns df !! "Parch") as [parch|]; [|done].
  destruct (columns df !! "Fare") as [fare|]; [|done].
  by exists age, embarked, sibsp, parch, fare.
Qed.

Lemma clean_run h data df :
  h !! data = Some df -> passenger_table df = true ->
  exists age fare age_mean fare_mean,
    columns df !! "Age" = Some age /\ columns df !! "Fare" = Some fare
    /\ mean_of age = Ok age_mean /\ mean_of fare = Ok fare_mean
    /\ (has_value df "Age" = true -> exists q, age_mean = Num q)
    /\ (has_value df "Fare" = true -> exists q, fare_mean = Num q)
    /\ clean data h
       = (Ok (length h),
          h ++ [Frame (nrows df) (cleaned_columns (columns df) age_mean fare_mean)]).
Proof.
  intros Hd Hpt.
  destruct (passenger_table_columns df Hpt)
    as (Hdrop & age & embarked & sibsp & parch & fare
        & Hage & Hemb & Hsib & Hpar & Hfare & Hnage & Hnfare).
  destruct (mean_of_numeric age Hnage) as (mA & HmA & HvA).
  destruct (mean_of_numeric fare Hnfare) as (mF & HmF & HvF).
  exists age, fare, mA, mF.
  split; [done|]. split; [done|]. split; [done|]. split; [done|].
  split; [unfold has_value; by rewrite Hage|].
  split; [unfold has_value; by rewrite Hfare|].
  unfold clean, bindM.
  rewrite (drop_run h data df _ Hd Hdrop). cbv beta iota.
  erewrite (getitem_run h _ "Age") by solve_column. cbv beta iota.
  erewrite (getitem_run h _ "Age") by solve_column. cbv beta iota.
  erewrite (mean_run h _ "Age") by first [solve_column | exact HmA]. cbv beta iota.
  erewrite (fillna_run h _ "Age") by solve_column. cbv beta iota.
  erewrite (getitem_run h _ "Embarked") by solve_column. cbv beta iota.
  erewrite (fillna_run h _ "Embarked") by solve_column. cbv beta iota.
  erewrite (getitem_run h _ "SibSp") by solve_column. cbv beta iota.
  erewrite (fillna_run h _ "SibSp") by solve_column. cbv beta iota.
  erewrite (getitem_run h _ "Parch") by solve_column. cbv beta iota.
  erewrite (fillna_run h _ "Parch") by solve_column. cbv beta iota.
  erewrite (getitem_run h _ "Fare") by solve_column. cbv beta iota.
  erewrite (getitem_run h _ "Fare") by solve_column. cbv beta iota.
  erewrite (mean_run h _ "Fare") by first [solve_column | exact HmF]. cbv beta iota.
  erewrite (fillna_run h _ "Fare") by solve_column. cbv beta iota.
  unfold ret, cleaned_columns. cbn [columns nrows foldr].
  repeat (erewrite insert_fill_alter
            by (repeat first [rewrite lookup_alter_ne by done
                             |rewrite lookup_insert_ne by done];
                repeat (rewrite lookup_delete_ne by done); eassumption)).
  reflexivity.
Qed.

Lemma getitem_step h fr key :
  DataFrame.getitem (length h) key (h ++ [fr])
  = match columns fr !! key with
    | Some _ => (Ok (SeriesOf (length h) key), h ++ [fr])
    | None => (Raise KeyError, h ++ [fr])
    end.
Proof. unfold DataFrame.getitem. by rewrite list_lookup_middle. Qed.

Lemma mean_step h fr key col :
  columns fr !! key = Some col ->
  Series.mean (SeriesOf (length h) key) (h ++ [fr])
  = match mean_of col with
    | Ok m => (Ok m, h ++ [fr])
    | Raise e => (Raise e, h ++ [fr])
    end.
Proof.
  intros Hcol. unfold Series.mean, bindM. rewrite (values_run h fr key col Hcol).
  by destruct (mean_of col).
Qed.

Lemma numbers_Ok_numeric col qs :
  numbers col = Ok qs ->
  forallb (fun x => match x with Str _ => false | _ => true end) col = true.
Proof.
  revert qs. induction col as [|[|q|s] col IH]; simpl; intros qs Hn.
  - reflexivity.
  - by eapply IH.
  - destruct (numbers col) as [qs'|]; [|discriminate]. by eapply IH.
  - discriminate.
Qed.

Lemma mean_of_Ok_numeric col m :
  mean_of col = Ok m ->
  forallb (fun x => match x with Str _ => false | _ => true end) col = true.
Proof.
  unfold mean_of. destruct (numbers col) as [qs|] eqn:Hn; [|discriminate].
  intros _. by eapply numbers_Ok_numeric.
Qed.

Ltac normalize_lookup H :=
  cbn [columns nrows foldr] in H;
  repeat (rewrite lookup_insert_ne in H by done);
  repeat (rewrite lookup_delete_ne in H by done).

(** [clean] returns a table exactly on the passenger tables. *)
Lemma clean_returns h data df :
  h !! data = Some df ->
  (exists data' h', clean data h = (Ok data', h')) -> passenger_table df = true.
Proof.
  intros Hd (data' & h' & Hrun). unfold clean, bindM in Hrun.
  unfold DataFrame.drop in Hrun. rewrite Hd in Hrun.
  destruct (forallb _ ["Name"; "Ticket"; "Cabin"]) eqn:Hdrop; [|discriminate].
  rewrite getitem_step in Hrun. normalize_lookup Hrun.
  destruct (columns df !! "Age") as [age|] eqn:Hage; [|discriminate].
  rewrite getitem_step in Hrun. normalize_lookup Hrun. rewrite Hage in Hrun.
  erewrite (mean_step h _ "Age") in Hrun by solve_column.
  destruct (mean_of age) as [mA|] eqn:HmA; [|discriminate].
  erewrite (fillna_run h _ "Age") in Hrun by solve_column.
  rewrite getitem_step in Hrun. normalize_lookup Hrun.
  destruct (columns df !! "Embarked") as [embarked|] eqn:Hemb; [|discriminate].
  erewrite (fillna_run h _ "Embarked") in Hrun by solve_column.
  rewrite getitem_step in Hrun. normalize_lookup Hrun.
  destruct (columns df !! "SibSp") as [sibsp|] eqn:Hsib; [|discriminate].
  erewrite (fillna_run h _ "SibSp") in Hrun by solve_column.
  rewrite getitem_step in Hrun. normalize_lookup Hrun.
  destruct (columns df !! "Parch") as [parch|] eqn:Hpar; [|discriminate].
  erewrite (fillna_run h _ "Parch") in Hrun by solve_column.
  rewrite getitem_step in Hrun. normalize_lookup Hrun.
  destruct (columns df !! "Fare") as [fare|] eqn:Hfare; [|discriminate].
  rewrite getitem_step in Hrun. normalize_lookup Hrun. rewrite Hfare in Hrun.
  erewrite (mean_step h _ "Fare") in Hrun by solve_column.
  destruct (mean_of fare) as [mF|] eqn:HmF; [|discriminate].
  clear Hrun. cbn [forallb] in Hdrop.
  repeat match goal with
         | H : _ && _ = true |- _ => apply andb_true_iff in H as [? ?]
         end.
  repeat match goal with
         | H : bool_decide (is_Some ?o) = true |- _ =>
             apply bool_decide_eq_true in H; destruct H as [? H]
         end.
  unfold passenger_table, numeric_column, has_column. cbn [forallb].
  repeat match goal with
         | H : columns df !! _ = Some _ |- _ => rewrite H; clear H
         end.
  rewrite (mean_of_Ok_numeric _ _ HmA), (mean_of_Ok_numeric _ _ HmF). reflexivity.
Qed.

Lemma cleaned_columns_lookup cols age_mean fare_mean c :
  cleaned_columns cols age_mean fare_mean !! c
  = if decide (c ∈ ["Name"; "Ticket"; "Cabin"]) then None
    else fill (fill_value age_mean fare_mean c) <$> cols !! c.
Proof.
  unfold cleaned_columns, fill_value.
  destruct (decide (c ∈ ["Name"; "Ticket"; "Cabin"])) as [Hin|Hnin].
  - repeat (apply elem_of_cons in Hin as [->|Hin]); [..|by apply elem_of_nil in Hin].
    all: rewrite !lookup_alter_ne by discriminate.
    all: rewrite ?lookup_delete_eq, ?lookup_delete_ne by discriminate.
    all: try done.
    all: rewrite ?lookup_delete_eq, ?lookup_delete_ne by discriminate.
    all: done.
  - assert (c <> "Name" /\ c <> "Ticket" /\ c <> "Cabin") as (H1 & H2 & H3).
    { repeat split; intros ->; apply Hnin; repeat first [left | right]. }
    rewrite !lookup_alter, !lookup_delete_ne by done.
    repeat (case_decide; [subst; try done|]).
    destruct (cols !! c) as [col|]; simpl; [|done]. by rewrite fill_NaN.
Qed.

(** ** [clean]: what the returned table holds *)



Lemma clean_returns_iff h data df :
  h !! data = Some df ->
  passenger_table df = true <-> exists data' h', clean data h = (Ok data', h').
Proof.
  intros Hd. split; [|by apply clean_returns].
  intros Hpt. destruct (clean_run h data df Hd Hpt)
    as (? & ? & ? & ? & _ & _ & _ & _ & _ & _ & Hrun). by eexists _, _.
Qed.


Lemma dropped_set (c : string) :
  c ∈ ({["Name"; "Ticket"; "Cabin"]} : gset string) <-> c ∈ ["Name"; "Ticket"; "Cabin"].
Proof.
  rewrite !elem_of_union, !elem_of_singleton, !elem_of_cons, elem_of_nil. tauto.
Qed.

(** C6: whatever the table, [clean] returns a table for it exactly when it
    is a passenger table (pandas raises otherwise), and the table returned
    has the columns of the argument but Name, Ticket and Cabin, and as many
    rows; every column kept has its length, and every cell of it that held
    a value holds that value still. *)
Theorem clean_drops_three_columns (h : list DataFrame) (data : nat) (df : DataFrame) :
  h !! data = Some df ->
  (passenger_table df = true <-> exists data' h', clean data h = (Ok data', h'))
  /\ forall data' h',
      clean data h = (Ok data', h') ->
      exists df',
        h' !! data' = Some df'
        /\ dom (columns df') = dom (columns df) ∖ {["Name"; "Ticket"; "Cabin"]}
        /\ nrows df' = nrows df
        /\ forall c col,
            c ∉ ["Name"; "Ticket"; "Cabin"] -> columns df !! c = Some col ->
            exists col',
              columns df' !! c = Some col' /\ length col' = length col
              /\ forall i x, col !! i = Some x -> isna x = false -> col' !! i = Some x.
Proof.
  intros Hd. split; [by apply clean_returns_iff|].
  intros data' h' Hret.
  assert (passenger_table df = true) as Hpt by (eapply clean_returns; eauto).
  destruct (clean_run h data df Hd Hpt)
    as (age & fare & mA & mF & _ & _ & _ & _ & _ & _ & Hrun).
  rewrite Hrun in Hret. injection Hret as <- <-.
  eexists. split; [by apply list_lookup_middle|].
  cbn [columns nrows]. split; [|split; [done|]].
  - apply set_eq. intros c.
    rewrite elem_of_difference, !elem_of_dom, cleaned_columns_lookup.
    destruct (decide (c ∈ ["Name"; "Ticket"; "Cabin"])) as [Hin|Hnin].
    + split; [by intros [? ?]|]. intros [_ Hn]. exfalso. by apply Hn, dropped_set.
    + rewrite fmap_is_Some. split; [|by intros [? _]]. intros Hs. split; [done|].
      intros Hc. by apply Hnin, dropped_set.
  - intros c col Hnin Hc. rewrite cleaned_columns_lookup.
    rewrite decide_False by done. rewrite Hc. simpl.
    eexists. split; [reflexivity|]. split; [apply fill_length|].
    intros i x Hi Hx. by apply fill_lookup_present.
Qed.

(** ** [clean]: the caller's table *)

Lemma hoare_bind {X Y : Type} P (c : M X) (k : X -> M Y) Q R E :
  hoare P c Q E -> (forall x, hoare (Q x) (k x) R E) -> hoare P (bindM c k) R E.
Proof.
  intros Hc Hk h HP. unfold bindM. specialize (Hc h HP).
  destruct (c h) as [[x|e] h']; [|done]. by apply Hk.
Qed.

Lemma hoare_ret {X : Type} (P : list DataFrame -> Prop) (x : X)
    (Q : X -> list DataFrame -> Prop) E :
  (forall h, P h -> Q x h) -> hoare P (ret x) Q E.
Proof. intros H h HP. by apply H. Qed.

Lemma hoare_pure {X : Type} (phi : Prop) P (c : M X) Q E :
  (phi -> hoare P c Q E) -> hoare (fun h => phi /\ P h) c Q E.
Proof. intros H h [Hphi HP]. by apply H. Qed.

Section Frame.
Variable h0 : list DataFrame.

Lemma with_copy_extends h : with_copy h0 h -> extends h0 h.
Proof. intros [fr ->]. by exists [fr]. Qed.

Lemma hoare_drop data labels :
  hoare (fun h => h = h0) (DataFrame.drop data labels)
        (fun d h => d = length h0 /\ with_copy h0 h) (extends h0).
Proof.
  intros h ->. unfold DataFrame.drop.
  destruct (h0 !! data) as [df|]; [|exists []; by rewrite app_nil_r].
  destruct (forallb _ labels).
  - split; [done|]. by eexists.
  - exists []. by rewrite app_nil_r.
Qed.

Lemma hoare_getitem key :
  hoare (with_copy h0) (DataFrame.getitem (length h0) key)
        (fun s h => frame s = length h0 /\ with_copy h0 h) (extends h0).
Proof.
  intros h Hh. unfold DataFrame.getitem.
  destruct (h !! length h0) as [df|]; [|by apply with_copy_extends].
  destruct (columns df !! key); [done|by apply with_copy_extends].
Qed.

Lemma hoare_values s :
  frame s = length h0 ->
  hoare (with_copy h0) (Series.values s) (fun _ h => with_copy h0 h) (extends h0).
Proof.
  intros Hs h Hh. unfold Series.values.
  destruct (h !! frame s) as [df|]; [|by apply with_copy_extends].
  destruct (columns df !! label s); [done|by apply with_copy_extends].
Qed.

Lemma hoare_mean s :
  frame s = length h0 ->
  hoare (with_copy h0) (Series.mean s) (fun _ h => with_copy h0 h) (extends h0).
Proof.
  intros Hs. unfold Series.mean. eapply hoare_bind; [by apply hoare_values|].
  intros col h Hh. destruct (mean_of col); [done|by apply with_copy_extends].
Qed.

Lemma hoare_fillna s v :
  frame s = length h0 ->
  hoare (with_copy h0) (Series.fillna s v) (fun _ h => with_copy h0 h) (extends h0).
Proof.
  intros Hs. unfold Series.fillna. eapply hoare_bind; [by apply hoare_values|].
  intros col h [fr ->]. rewrite Hs, list_lookup_middle by done.
  rewrite insert_app_r_alt by lia. rewrite Nat.sub_diag. by eexists.
Qed.

Lemma hoare_clean data :
  hoare (fun h => h = h0) (clean data)
        (fun d h => d = length h0 /\ with_copy h0 h) (extends h0).
Proof.
  unfold clean.
  eapply hoare_bind; [apply hoare_drop|]. intros d. apply hoare_pure. intros ->.
  repeat first
    [ eapply hoare_bind; [apply hoare_getitem|]; intros ?; apply hoare_pure; intros ?
    | eapply hoare_bind; [by apply hoare_mean|]; intros ?
    | eapply hoare_bind; [by apply hoare_fillna|]; intros ? ].
  by apply hoare_ret.
Qed.
End Frame.

(** C7: [clean] works on a copy.  Whatever table it is given, the store
    after the call (whether [clean] returns or raises) is the store before
    it with at most new frames after it, so that every frame the caller
    holds, the argument among them, is as it was; and the table returned is
    a new frame, not the argument. *)
Theorem clean_leaves_argument_unchanged (h : list DataFrame) (data : nat) :
  (exists rest, (clean data h).2 = h ++ rest)
  /\ (forall l df, h !! l = Some df -> (clean data h).2 !! l = Some df)
  /\ (forall data', (clean data h).1 = Ok data' ->
      data' = length h /\ is_Some ((clean data h).2 !! data')
      /\ forall l df, h !! l = Some df -> data' <> l).
Proof.
  pose proof (hoare_clean h data h eq_refl) as H.
  destruct (clean data h) as [[d|e] h'] eqn:Hrun; simpl.
  - destruct H as [-> [fr ->]]. split; [by eexists|]. split.
    + intros l df Hl. by apply lookup_app_l_Some.
    + intros data' [= <-]. split; [done|]. split.
      * rewrite list_lookup_middle by done. by eexists.
      * intros l df Hl. apply lookup_lt_Some in Hl. lia.
  - destruct H as [rest ->]. split; [by eexists|]. split.
    + intros l df Hl. by apply lookup_app_l_Some.
    + intros data' [=].
Qed.

(** ** [requires_module] *)

Lemma string_app_nil_r (s : string) : (s ++ "")%string = s.
Proof.
  induction s as [|a s IH]; [reflexivity|].
  change (String a (s ++ "")%string = String a s). by f_equal.
Qed.

(** C8: the decorator adds one [skipif] mark to the test; the mark skips
    the test exactly when executing the import statement of the dependency
    (or the [call] given instead) raised an [Exception], and its reason
    starts by naming the test function and the dependency.  Something that
    is not an [Exception] is not caught: the decorator raises it in turn. *)
Theorem requires_module_skips_iff_import_fails
    (exec : string -> exec_outcome) (function : test_function) (name : string)
    (call : option string) :
  let executed := default ("import " ++ name)%string call in
  ((exists function' mark,
      requires_module exec function name call = Ok function'
      /\ last (pytestmark function') = Some mark /\ condition mark = true)
   <-> exists msg, exec executed = RaisedException msg)
  /\ match exec executed with
     | RaisedBaseException =>
         requires_module exec function name call = Raise BaseException
     | outcome =>
         exists mark suffix,
           requires_module exec function name call
           = Ok (TestFunction (fn_name function) (pytestmark function ++ [mark]))
           /\ condition mark = (if outcome is Completed then false else true)
           /\ reason mark
              = (("Test " ++ fn_name function ++ " skipped, requires " ++ name ++ ".")
                 ++ suffix)%string
     end.
Proof.
  intros executed. unfold requires_module.
  replace (match call with Some c => c | None => ("import " ++ name)%string end)
    with executed by (by destruct call).
  destruct (exec executed) as [|msg|] eqn:Hexec.
  - split.
    + split.
      * intros (f' & mark & [= <-] & Hlast & Hcond). simpl in Hlast.
        rewrite last_snoc in Hlast. by injection Hlast as <-.
      * intros [msg [=]].
    + eexists _, ""%string. split; [reflexivity|]. split; [reflexivity|].
      cbn [reason]. by rewrite string_app_nil_r.
  - split.
    + split; [by eexists|]. intros _. eexists _, _. split; [reflexivity|].
      simpl. by rewrite last_snoc.
    + destruct (negb (Nat.eqb (String.length msg) 0)
                && negb (String.eqb msg ("No module named " ++ name))).
      * eexists _, _. split; [reflexivity|]. split; reflexivity.
      * eexists _, ""%string. split; [reflexivity|]. split; [reflexivity|].
        cbn [reason]. by rewrite string_app_nil_r.
  - split; [|reflexivity]. split.
    + intros (f' & mark & [=] & _).
    + intros [msg [=]].
Qed.

(** ** [get_labels] *)

Local Open Scope Z_scope.

Lemma blocks_S k a n :
  blocks k a (S n) = replicate k (Z.of_nat a) ++ blocks k (S a) n.
Proof. reflexivity. Qed.

Lemma blocks_length k n : forall a, length (blocks k a n) = (n * k)%nat.
Proof.
  induction n as [|n IH]; intros a; [reflexivity|].
  rewrite blocks_S, length_app, length_replicate, IH. lia.
Qed.

Lemma blocks_range k n : forall a x,
  x ∈ blocks k a n -> Z.of_nat a <= x < Z.of_nat (a + n).
Proof.
  induction n as [|n IH]; intros a x Hx.
  - by apply elem_of_nil in Hx.
  - rewrite blocks_S in Hx. apply elem_of_app in Hx as [Hx|Hx].
    + apply elem_of_replicate in Hx as [-> _]. lia.
    + apply IH in Hx. lia.
Qed.

Lemma replicate_sorted k (x : Z) : StronglySorted Z.le (replicate k x).
Proof.
  induction k as [|k IH]; simpl; constructor; [exact IH|].
  apply Forall_forall. intros y Hy. apply elem_of_replicate in Hy as [-> _]. lia.
Qed.

Lemma blocks_sorted k n : forall a, StronglySorted Z.le (blocks k a n).
Proof.
  induction n as [|n IH]; intros a; [constructor|].
  rewrite blocks_S. apply StronglySorted_app_2; [| |apply IH].
  - intros x1 x2 H1 H2. apply elem_of_replicate in H1 as [-> _].
    apply blocks_range in H2. lia.
  - apply replicate_sorted.
Qed.

Lemma filter_replicate_eq (c : Z) k : filter (fun x => x = c) (replicate k c) = replicate k c.
Proof.
  induction k as [|k IH]; [reflexivity|]. simpl.
  rewrite filter_cons_True by done. by rewrite IH.
Qed.

Lemma filter_replicate_ne (c y : Z) k : y <> c -> filter (fun x => x = c) (replicate k y) = [].
Proof.
  intros Hne. induction k as [|k IH]; [reflexivity|]. simpl.
  by rewrite filter_cons_False.
Qed.

Lemma blocks_count k n c : forall a,
  length (filter (fun x => x = c) (blocks k a n))
  = if decide (Z.of_nat a <= c < Z.of_nat (a + n)) then k else 0%nat.
Proof.
  induction n as [|n IH]; intros a.
  - simpl. case_decide; [lia|reflexivity].
  - rewrite blocks_S, filter_app, length_app, IH.
    destruct (decide (Z.of_nat a = c)) as [<-|Hne].
    + rewrite filter_replicate_eq, length_replicate.
      rewrite decide_False by lia. rewrite decide_True by lia. lia.
    + rewrite filter_replicate_ne by done. simpl.
      repeat case_decide; lia.
Qed.

(** C9: for positive [n_matrices] and [n_classes] the fixture returns the
    labels [0 .. n_classes-1], each repeated [n_matrices // n_classes]
    times in a row, hence in non-decreasing order; there are
    [n_classes * (n_matrices // n_classes)] of them, which is [n_matrices]
    exactly when [n_classes] divides [n_matrices]. *)
Theorem get_labels_blocks (n_matrices n_classes : Z) :
  0 < n_matrices -> 0 < n_classes ->
  exists labels,
    get_labels n_matrices n_classes = Ok labels
    /\ Z.of_nat (length labels) = n_classes * (n_matrices / n_classes)
    /\ (Z.of_nat (length labels) = n_matrices <-> (n_classes | n_matrices))
    /\ labels = flat_map (fun c => replicate (Z.to_nat (n_matrices / n_classes)) c)
                         (arange n_classes)
    /\ (forall c, 0 <= c < n_classes ->
        Z.of_nat (length (filter (fun x => x = c) labels)) = n_matrices / n_classes)
    /\ (forall x, x ∈ labels -> 0 <= x < n_classes)
    /\ StronglySorted Z.le labels.
Proof.
  intros Hm Hc.
  assert (0 <= n_matrices / n_classes) as Hk by (apply Z.div_pos; lia).
  unfold get_labels, floordiv, np_repeat.
  rewrite (proj2 (Z.eqb_neq n_classes 0)) by lia. cbn [bind].
  rewrite (proj2 (Z.ltb_ge (n_matrices / n_classes) 0)) by lia.
  eexists. split; [reflexivity|].
  change (flat_map _ (arange n_classes))
    with (blocks (Z.to_nat (n_matrices / n_classes)) 0 (Z.to_nat n_classes)).
  assert (Z.of_nat (length (blocks (Z.to_nat (n_matrices / n_classes)) 0
                              (Z.to_nat n_classes)))
          = n_classes * (n_matrices / n_classes)) as Hlen
    by (rewrite blocks_length; lia).
  split; [exact Hlen|]. split; [|split; [reflexivity|split; [|split]]].
  - rewrite Hlen, <- (Z.mod_divide n_matrices n_classes) by lia.
    pose proof (Z.div_mod n_matrices n_classes ltac:(lia)). lia.
  - intros c Hrange. rewrite blocks_count, decide_True by lia. lia.
  - intros x Hx. apply blocks_range in Hx. lia.
  - apply blocks_sorted.
Qed.

Lemma get_labels_blocks_witness :
  exists labels,
    get_labels 7 3 = Ok labels
    /\ Z.of_nat (length labels) = 3 * (7 / 3)
    /\ (Z.of_nat (length labels) = 7 <-> (3 | 7))
    /\ labels = flat_map (fun c => replicate (Z.to_nat (7 / 3)) c) (arange 3)
    /\ (forall c, 0 <= c < 3 ->
        Z.of_nat (length (filter (fun x => x = c) labels)) = 7 / 3)
    /\ (forall x, x ∈ labels -> 0 <= x < 3)
    /\ StronglySorted Z.le labels.
Proof. apply get_labels_blocks; lia. Defined.

(** ** The theorems at work on the sample table *)

Local Close Scope Z_scope.
Local Open Scope string_scope.
Local Open Scope list_scope.

Lemma clean_drops_three_columns_witness :
  (passenger_table sample_passengers = true
   <-> exists data' h', clean 0 [sample_passengers] = (Ok data', h'))
  /\ forall data' h',
      clean 0 [sample_passengers] = (Ok data', h') ->
      exists df',
        h' !! data' = Some df'
        /\ dom (columns df')
           = dom (columns sample_passengers) ∖ {["Name"; "Ticket"; "Cabin"]}
        /\ nrows df' = nrows sample_passengers
        /\ forall c col,
            c ∉ ["Name"; "Ticket"; "Cabin"] ->
            columns sample_passengers !! c = Some col ->
            exists col',
              columns df' !! c = Some col' /\ length col' = length col
              /\ forall i x, col !! i = Some x -> isna x = false -> col' !! i = Some x.
Proof.
  apply (clean_drops_three_columns [sample_passengers] 0 sample_passengers).
  reflexivity.
Defined.

Example clean_sample_columns :
  (clean 0 [sample_passengers]).1 = Ok 1%nat
  /\ (columns <$> (clean 0 [sample_passengers]).2 !! 1%nat)
     = Some (list_to_map
               [("PassengerId", [Num 1; Num 2; Num 3]);
                ("Survived", [Num 0; Num 1; NaN]);
                ("Age", [Num 22; Num (53 # 2); Num 31]);
                ("Embarked", [Str "U"; Str "C"; Str "S"]);
                ("SibSp", [Num 1; Num 0; Num 0]);
                ("Parch", [Num 0; Num 2; Num 0]);
                ("Fare", [Num 7; Num 71; Num (78 # 2)])])
  /\ (clean 0 [sample_passengers]).2 !! 0%nat = Some sample_passengers.
Proof. vm_compute. repeat split. Qed.

(** A table without the column Cabin: [drop] raises [KeyError], nothing is
    allocated. *)
Example clean_without_cabin :
  clean 0 [Frame (nrows sample_passengers) (delete "Cabin" (columns sample_passengers))]
  = (Raise KeyError,
     [Frame (nrows sample_passengers) (delete "Cabin" (columns sample_passengers))]).
Proof. vm_compute. reflexivity. Qed.

(** Ages that are all missing have no mean: the column is left as it is. *)
Example clean_all_ages_missing :
  ((clean 0 [Frame 2 (<["Age" := [NaN; NaN]]> (columns sample_passengers))]).2
     !! 1%nat) ≫= (fun df : DataFrame => columns df !! "Age")
  = Some [NaN; NaN].
Proof. vm_compute. reflexivity. Qed.

(** [correlation_ratio] on port of embarkation against fare. *)
Example correlation_ratio_sample :
  result_Qeq (correlation_ratio [Some "S"; Some "C"; Some "S"; Some "C"]
                                [7; 71; 8; 53]%Q)
             (Ok (11881 # 12531)%Q).
Proof. vm_compute. reflexivity. Qed.

(** * Further properties *)

(** ** [correlation_ratio]: exceptions, surplus rows, invariances *)

Local Open Scope Q_scope.

Lemma argwhere_from_none g codes : forall pos,
  (forall i, codes !! i <> Some g) -> Np.argwhere_from pos g codes = [].
Proof.
  induction codes as [|c cs IH]; intros pos H; simpl; [reflexivity|].
  destruct (Z.eqb_spec c g) as [->|Hne].
  - exfalso. by apply (H 0%nat).
  - apply IH. intros i. apply (H (S i)).
Qed.

Lemma take_argwhere_from_covered g codes : forall pos meas,
  (forall i, codes !! i = Some g -> (pos + i < length meas)%nat) ->
  Np.take meas (Np.argwhere_from pos g codes) = Ok (group g codes (drop pos meas)).
Proof.
  induction codes as [|c cs IH]; intros pos meas H; [reflexivity|].
  cbn [Np.argwhere_from].
  destruct (Z.eqb c g) eqn:Hcg.
  - apply Z.eqb_eq in Hcg as ->.
    assert (pos < length meas)%nat as Hpos by (specialize (H 0%nat eq_refl); lia).
    destruct (lookup_lt_is_Some_2 meas pos Hpos) as [x Hx].
    rewrite (drop_S _ _ _ Hx). cbn [group Np.take]. rewrite Z.eqb_refl, Hx, IH; [reflexivity|].
    intros i Hi. specialize (H (S i) Hi). lia.
  - destruct (drop pos meas) as [|x rest] eqn:Hdrop.
    + rewrite argwhere_from_none; [reflexivity|].
      intros i Hi. specialize (H (S i) Hi).
      apply (f_equal length) in Hdrop. rewrite length_drop in Hdrop. simpl in Hdrop. lia.
    + assert (pos < length meas)%nat as Hpos.
      { apply (f_equal length) in Hdrop. rewrite length_drop in Hdrop. simpl in Hdrop. lia. }
      destruct (lookup_lt_is_Some_2 meas pos Hpos) as [y Hy].
      rewrite (drop_S _ _ _ Hy) in Hdrop. injection Hdrop as -> <-.
      cbn [group]. rewrite Hcg. apply IH.
      intros i Hi. specialize (H (S i) Hi). lia.
Qed.

Lemma take_argwhere_covered g codes meas :
  covered g codes meas -> Np.take meas (Np.argwhere g codes) = Ok (group g codes meas).
Proof.
  intros H. unfold Np.argwhere. rewrite take_argwhere_from_covered; [reflexivity|].
  intros i Hi. simpl. by apply H.
Qed.

Lemma take_argwhere_from_uncovered g codes : forall pos meas i,
  codes !! i = Some g -> (length meas <= pos + i)%nat ->
  Np.take meas (Np.argwhere_from pos g codes) = Raise IndexError.
Proof.
  induction codes as [|c cs IH]; intros pos meas i Hi Hlen; [done|].
  cbn [Np.argwhere_from].
  destruct i as [|i]; simpl in Hi.
  - injection Hi as ->. rewrite Z.eqb_refl. cbn [Np.take].
    rewrite lookup_ge_None_2 by lia. reflexivity.
  - assert (Np.take meas (Np.argwhere_from (S pos) g cs) = Raise IndexError) as Hrest
      by (apply (IH (S pos) meas i Hi); lia).
    destruct (Z.eqb c g); [|exact Hrest]. cbn [Np.take].
    destruct (meas !! pos); [|reflexivity]. by rewrite Hrest.
Qed.

Lemma take_argwhere_uncovered g codes meas :
  ~ covered g codes meas -> Np.take meas (Np.argwhere g codes) = Raise IndexError.
Proof.
  intros H. unfold Np.argwhere.
  destruct (decide (Exists (fun p => codes !! p = Some g /\ (length meas <= p)%nat)
                           (seq 0 (length codes)))) as [Hex|Hno].
  - apply Exists_exists in Hex as (p & _ & Hp & Hle).
    eapply take_argwhere_from_uncovered; [exact Hp|simpl; lia].
  - exfalso. apply H. intros pos Hpos.
    destruct (decide (pos < length meas)%nat) as [|Hge]; [done|].
    exfalso. apply Hno. apply Exists_exists. exists pos. split.
    + apply elem_of_seq. apply lookup_lt_Some in Hpos. lia.
    + split; [done|lia].
Qed.

Lemma take_raises meas idx e : Np.take meas idx = Raise e -> e = IndexError.
Proof.
  induction idx as [|p ps IH]; simpl; [discriminate|].
  destruct (meas !! p); [|by intros [= <-]].
  destruct (Np.take meas ps); simpl; [discriminate|]. intros [= <-]. by apply IH.
Qed.

Lemma for_loop_fill_covered codes meas : forall b a pre_n pre_a suf_n suf_a,
  (forall i, (a <= i < a + b)%nat -> covered (Z.of_nat i) codes meas) ->
  length pre_n = a -> length pre_a = a -> length suf_n = b -> length suf_a = b ->
  for_loop codes meas (seq a b) (pre_n ++ suf_n, pre_a ++ suf_a)
  = Ok (pre_n ++ map (fun i => qlen (group (Z.of_nat i) codes meas)) (seq a b),
        pre_a ++ map (fun i => Np.average (group (Z.of_nat i) codes meas)) (seq a b)).
Proof.
  induction b as [|b IH]; intros a pre_n pre_a suf_n suf_a Hcov Hn Ha Hsn Hsa.
  - destruct suf_n, suf_a; try discriminate. reflexivity.
  - destruct suf_n as [|x suf_n], suf_a as [|y suf_a]; try discriminate.
    cbn [seq for_loop map]. rewrite take_argwhere_covered by (apply Hcov; lia).
    cbn [bind].
    rewrite (insert_app_r_alt pre_n _ a), (insert_app_r_alt pre_a _ a) by lia.
    rewrite Hn, Ha, Nat.sub_diag. cbn [insert list_insert].
    rewrite 2!(cons_middle _ pre_n), 2!(cons_middle _ pre_a), !(assoc_L (++)).
    apply IH; rewrite ?length_app; simpl in *; try lia.
    intros i Hi. apply Hcov. lia.
Qed.

Lemma for_loop_uncovered codes meas : forall b a arrays i,
  (a <= i < a + b)%nat -> ~ covered (Z.of_nat i) codes meas ->
  for_loop codes meas (seq a b) arrays = Raise IndexError.
Proof.
  induction b as [|b IH]; intros a [ns avs] i Hi Hun; [lia|].
  cbn [seq for_loop].
  destruct (Np.take meas (Np.argwhere (Z.of_nat a) codes)) as [xs|e] eqn:Htake; cbn [bind].
  - apply (IH (S a) _ i); [|done].
    destruct (decide (i = a)) as [->|]; [|lia].
    rewrite (take_argwhere_uncovered _ _ _ Hun) in Htake. discriminate.
  - by rewrite (take_raises _ _ _ Htake).
Qed.

Section Outcome.
Context {A : Type} `{EqDecision A}.
Implicit Types (categories : list (option A)) (measurements : list Q).

Lemma code_position categories codes uniques pos (g : nat) :
  Pd.factorize categories = (codes, uniques) ->
  codes !! pos = Some (Z.of_nat g) ->
  exists a, categories !! pos = Some (Some a).
Proof.
  intros Hf Hpos. destruct (factorize_inv _ _ _ Hf) as (_ & Hc & _).
  destruct (Forall2_lookup_l _ _ _ _ _ Hc Hpos) as ([a|] & Hv & Hcode).
  - by exists a.
  - simpl in Hcode. lia.
Qed.

Lemma position_code categories codes uniques pos a :
  Pd.factorize categories = (codes, uniques) ->
  categories !! pos = Some (Some a) ->
  exists g : nat, codes !! pos = Some (Z.of_nat g) /\ (g < length uniques)%nat.
Proof.
  intros Hf Hpos. destruct (factorize_inv _ _ _ Hf) as (_ & Hc & _).
  destruct (Forall2_lookup_r _ _ _ _ _ Hc Hpos) as (c & Hcp & g & -> & Hg).
  exists g. split; [done|]. by apply lookup_lt_Some in Hg.
Qed.

Lemma locals_closed_form_measured categories measurements codes uniques :
  categories <> [] -> rows_measured categories measurements ->
  Pd.factorize categories = (codes, uniques) ->
  correlation_ratio_locals categories measurements
  = Ok (closed_locals codes (length uniques) measurements).
Proof.
  intros Hne Hcov Hf. unfold correlation_ratio_locals. rewrite Hf.
  rewrite (max_factorize _ _ _ Hne Hf). cbn [bind].
  replace (Z.of_nat (length uniques) - 1 + 1)%Z with (Z.of_nat (length uniques)) by lia.
  rewrite Nat2Z.id.
  pose proof (for_loop_fill_covered codes measurements (length uniques) 0%nat [] []
                (Np.zeros (length uniques)) (Np.zeros (length uniques))) as Hloop.
  cbn [app] in Hloop. rewrite Hloop.
  - cbn [bind]. unfold closed_locals.
    rewrite !power_subtract, map_map, !sum_multiply_map. reflexivity.
  - intros i _ pos Hpos. destruct (code_position _ _ _ _ _ Hf Hpos) as [a Ha].
    by eapply Hcov.
  - done.
  - done.
  - unfold Np.zeros. by rewrite length_replicate.
  - unfold Np.zeros. by rewrite length_replicate.
Qed.

(** Over exact arithmetic, what [correlation_ratio] does on any input.  An empty category
    sequence raises [ValueError] ([np.max] of an empty array); otherwise it
    returns a value, which lies in [0, 1], when every row that carries a
    label has a measurement, and raises [IndexError] when some labelled row
    has none.  The two lengths are never compared: rows whose label is
    missing need no measurement, and measurements past the last label are
    accepted. *)
Lemma correlation_ratio_outcome_exact categories measurements :
  (categories = [] -> correlation_ratio categories measurements = Raise ValueError)
  /\ (categories <> [] -> rows_measured categories measurements ->
      exists e, correlation_ratio categories measurements = Ok e /\ 0 <= e <= 1)
  /\ (categories <> [] -> ~ rows_measured categories measurements ->
      correlation_ratio categories measurements = Raise IndexError).
Proof.
  split; [by intros ->|]. split.
  - intros Hne Hcov. destruct (Pd.factorize categories) as [codes u] eqn:Hf.
    unfold correlation_ratio.
    rewrite (locals_closed_form_measured _ _ _ _ Hne Hcov Hf). cbn [bind].
    eexists. split; [reflexivity|].
    destruct (closed_locals_bounds codes (length u) measurements) as [H0 Hle].
    rewrite closed_locals_eta. by apply eta_bounds.
  - intros Hne Hun. destruct (Pd.factorize categories) as [codes u] eqn:Hf.
    unfold correlation_ratio, correlation_ratio_locals. rewrite Hf.
    rewrite (max_factorize _ _ _ Hne Hf). cbn [bind].
    replace (Z.of_nat (length u) - 1 + 1)%Z with (Z.of_nat (length u)) by lia.
    rewrite Nat2Z.id.
    assert (exists pos a, categories !! pos = Some (Some a)
                          /\ (length measurements <= pos)%nat) as (pos & a & Hpos & Hle).
    { destruct (decide (Exists (fun p => is_Some (default None (categories !! p))
                                         /\ (length measurements <= p)%nat)
                               (seq 0 (length categories)))) as [Hex|Hno].
      - apply Exists_exists in Hex as (p & _ & [a Ha] & Hle). exists p, a.
        split; [|done]. destruct (categories !! p) as [[b|]|]; simpl in Ha; congruence.
      - exfalso. apply Hun. intros i a Hi.
        destruct (decide (i < length measurements)%nat) as [|Hge]; [done|].
        exfalso. apply Hno, Exists_exists. exists i. split.
        + apply elem_of_seq. apply lookup_lt_Some in Hi. lia.
        + split; [rewrite Hi; by eexists|lia]. }
    destruct (position_code _ _ _ _ _ Hf Hpos) as (g & Hg & Hlt).
    rewrite (for_loop_uncovered codes measurements (length u) 0%nat _ g); [done|lia|].
    intros Hcov. specialize (Hcov pos Hg). lia.
Qed.
End Outcome.

Lemma group_take g codes : forall meas,
  group g codes (take (length codes) meas) = group g codes meas.
Proof.
  induction codes as [|c cs IH]; intros [|m ms]; simpl; try reflexivity.
  by rewrite IH.
Qed.

Lemma sum_app l1 l2 : Np.sum (l1 ++ l2) == Np.sum l1 + Np.sum l2.
Proof.
  induction l1 as [|x l1 IH]; simpl; [ring|]. fold (Np.sum (l1 ++ l2)) (Np.sum l1).
  rewrite IH. ring.
Qed.

Lemma SS_app mu l1 l2 : SS mu (l1 ++ l2) == SS mu l1 + SS mu l2.
Proof. unfold SS. rewrite map_app. apply sum_app. Qed.

Section More.
Context {A : Type} `{EqDecision A}.
Implicit Types (categories : list (option A)) (measurements : list Q).

(** X2: when every label is missing there is no category, the loop does
    not run, and 0 is returned whatever the measurements (of any length). *)
Theorem all_missing_returns_zero categories measurements :
  categories <> [] -> (forall v, v ∈ categories -> v = None) ->
  correlation_ratio categories measurements = Ok 0.
Proof.
  intros Hne Hnone. destruct (Pd.factorize categories) as [codes u] eqn:Hf.
  assert (rows_measured categories measurements) as Hcov.
  { intros i a Hi. apply list_elem_of_lookup_2 in Hi. by apply Hnone in Hi. }
  unfold correlation_ratio.
  rewrite (locals_closed_form_measured _ _ _ _ Hne Hcov Hf). cbn [bind].
  destruct (factorize_inv _ _ _ Hf) as (_ & _ & Hel).
  destruct u as [|a u]; [reflexivity|].
  assert (Some a ∈ categories) as Ha by (apply Hel; left).
  by apply Hnone in Ha.
Qed.

(** X3: measurements past the last category are not rejected.  They
    belong to no group: counts, means, grand mean and numerator are those of
    the input cut to the length of the categories; but they are summed in
    the denominator. *)
Theorem surplus_measurements categories measurements :
  categories <> [] -> (length categories <= length measurements)%nat ->
  exists l l',
    correlation_ratio_locals categories measurements = Ok l
    /\ correlation_ratio_locals categories (take (length categories) measurements) = Ok l'
    /\ n_array l = n_array l' /\ y_avg_array l = y_avg_array l'
    /\ y_total_avg l = y_total_avg l' /\ numerator l = numerator l'
    /\ denominator l
       == denominator l' + SS (y_total_avg l) (drop (length categories) measurements).
Proof.
  intros Hne Hlen. destruct (Pd.factorize categories) as [codes u] eqn:Hf.
  assert (length codes = length categories) as Hcodes.
  { destruct (factorize_inv _ _ _ Hf) as (_ & Hc & _). by apply Forall2_length in Hc. }
  rewrite (locals_closed_form categories measurements codes u Hne Hlen Hf).
  rewrite (locals_closed_form categories (take (length categories) measurements) codes u
             Hne ltac:(rewrite length_take; lia) Hf).
  eexists _, _. split; [reflexivity|]. split; [reflexivity|].
  assert (forall g, group g codes (take (length categories) measurements)
                    = group g codes measurements) as Hg
    by (intros g; rewrite <- Hcodes; apply group_take).
  unfold closed_locals. cbn [n_array y_avg_array y_total_avg numerator denominator].
  assert (Hn : map (fun i : nat => qlen (group (Z.of_nat i) codes
                                            (take (length categories) measurements)))
                   (seq 0 (length u))
               = map (fun i : nat => qlen (group (Z.of_nat i) codes measurements))
                     (seq 0 (length u)))
    by (apply map_ext; intros i; by rewrite Hg).
  assert (Ha : map (fun i : nat => Np.average (group (Z.of_nat i) codes
                                            (take (length categories) measurements)))
                   (seq 0 (length u))
               = map (fun i : nat => Np.average (group (Z.of_nat i) codes measurements))
                     (seq 0 (length u)))
    by (apply map_ext; intros i; by rewrite Hg).
  assert (Hm : map (fun i : nat => Np.average (group (Z.of_nat i) codes
                                            (take (length categories) measurements))
                                   * qlen (group (Z.of_nat i) codes
                                            (take (length categories) measurements)))
                   (seq 0 (length u))
               = map (fun i : nat => Np.average (group (Z.of_nat i) codes measurements)
                                     * qlen (group (Z.of_nat i) codes measurements))
                     (seq 0 (length u)))
    by (apply map_ext; intros i; by rewrite Hg).
  rewrite Hn, Ha, Hm.
  split; [reflexivity|]. split; [reflexivity|]. split; [reflexivity|]. split.
  - f_equal. apply map_ext. intros i. by rewrite Hg.
  - rewrite <- SS_app, take_drop. reflexivity.
Qed.
End More.

Lemma indicator_sum_eq (c : Z) (v : Q) n : forall a,
  (Z.of_nat a <= c < Z.of_nat (a + n))%Z ->
  Np.sum (map (fun i => if Z.eqb c (Z.of_nat i) then v else 0) (seq a n)) == v.
Proof.
  induction n as [|n IH]; intros a Hc; [lia|]. cbn [seq map Np.sum foldr].
  fold (Np.sum (map (fun i => if Z.eqb c (Z.of_nat i) then v else 0) (seq (S a) n))).
  destruct (Z.eqb_spec c (Z.of_nat a)) as [->|Hne].
  - rewrite (sum_map_ext_in _ (fun _ => 0)).
    + rewrite sum_map_zero. ring.
    + intros j Hj. apply elem_of_seq in Hj.
      destruct (Z.eqb_spec (Z.of_nat a) (Z.of_nat j)) as [E|_]; [lia|reflexivity].
  - rewrite IH by lia. ring.
Qed.

Lemma indicator_sum_out (c : Z) (v : Q) n a :
  (c < Z.of_nat a)%Z ->
  Np.sum (map (fun i => if Z.eqb c (Z.of_nat i) then v else 0) (seq a n)) == 0.
Proof.
  intros Hc. rewrite (sum_map_ext_in _ (fun _ => 0)); [apply sum_map_zero|].
  intros j Hj. apply elem_of_seq in Hj.
  destruct (Z.eqb_spec c (Z.of_nat j)) as [E|_]; [lia|reflexivity].
Qed.

Lemma groups_SS_eq mu K codes : forall meas,
  Forall (fun c => (-1 <= c < Z.of_nat K)%Z) codes ->
  length codes = length meas ->
  Np.sum (map (fun i => SS mu (group (Z.of_nat i) codes meas)) (seq 0 K))
  + SS mu (group (-1) codes meas)
  == SS mu meas.
Proof.
  induction codes as [|c cs IH]; intros [|m ms] Hall Hlen; try discriminate.
  - simpl. rewrite (sum_map_zero (seq 0 K)). reflexivity.
  - apply Forall_cons in Hall as [Hc Hall]. injection Hlen as Hlen.
    rewrite (sum_map_ext_in _
      (fun i => (if Z.eqb c (Z.of_nat i) then (m - mu) ^ 2 else 0)
                + SS mu (group (Z.of_nat i) cs ms))).
    2:{ intros i _. cbn [group]. destruct (Z.eqb c (Z.of_nat i)); [apply SS_cons|ring]. }
    rewrite sum_map_plus, SS_cons, <- (IH ms Hall Hlen). cbn [group].
    destruct (Z.eqb_spec c (-1)) as [->|Hne].
    + rewrite indicator_sum_out by lia. rewrite SS_cons. ring.
    + rewrite indicator_sum_eq by lia. ring.
Qed.

Lemma group_unlabelled {A : Type} (u : list A) codes (vs : list (option A)) :
  Forall2 (code_for u) codes vs ->
  forall meas, group (-1) codes meas = unlabelled vs meas.
Proof.
  induction 1 as [|c v cs vs Hcv Hc IH]; intros meas; [done|].
  destruct meas as [|m ms]; [done|]. cbn [group unlabelled]. rewrite IH.
  destruct v as [b|]; simpl in Hcv.
  - destruct Hcv as (i & -> & _). destruct (Z.eqb_spec (Z.of_nat i) (-1)); [lia|done].
  - by subst.
Qed.

Lemma sum_zero_iff {X} (f : X -> Q) l :
  (forall x, x ∈ l -> 0 <= f x) ->
  Np.sum (map f l) == 0 <-> forall x, x ∈ l -> f x == 0.
Proof.
  induction l as [|x l IH]; intros Hpos.
  - split; [intros _ y Hy; by apply elem_of_nil in Hy|reflexivity].
  - cbn [map Np.sum foldr]. fold (Np.sum (map f l)).
    assert (0 <= f x) by (apply Hpos; left).
    assert (0 <= Np.sum (map f l)).
    { apply sum_nonneg. intros y Hy. apply list_elem_of_fmap in Hy as (z & -> & Hz).
      apply Hpos. by right. }
    assert (forall y, y ∈ l -> 0 <= f y) as Hpos' by (intros y Hy; apply Hpos; by right).
    split.
    + intros Hz y Hy. apply elem_of_cons in Hy as [->|Hy]; [lra|].
      apply (proj1 (IH Hpos')); [lra|done].
    + intros Hall. rewrite (Hall x) by left.
      rewrite (proj2 (IH Hpos')); [ring|]. intros y Hy. apply Hall. by right.
Qed.

Lemma sq_zero (z : Q) : z ^ 2 == 0 -> z == 0.
Proof.
  rewrite pow2. intros Hz. destruct (Qeq_dec z 0) as [|Hne]; [done|].
  exfalso. apply (Qmult_integral z z) in Hz. tauto.
Qed.

Lemma SS_zero_iff mu l : SS mu l == 0 <-> forall x, x ∈ l -> x == mu.
Proof.
  unfold SS. rewrite sum_zero_iff by (intros; apply sq_nonneg).
  split; intros Hall x Hx.
  - apply Hall, sq_zero in Hx. lra.
  - rewrite (Hall x Hx), pow2. ring.
Qed.

Lemma SS_average_zero_iff l : SS (Np.average l) l == 0 <-> identical l.
Proof.
  rewrite SS_zero_iff. split.
  - intros Hall x y Hx Hy. rewrite (Hall x Hx), (Hall y Hy). reflexivity.
  - intros Hid x Hx. destruct (identical_value l Hid) as [v Hv].
    rewrite (average_const l v); [by apply Hv| |done].
    intros ->. by apply elem_of_nil in Hx.
Qed.

Section Anova.
Context {A : Type} `{EqDecision A}.
Implicit Types (categories : list (option A)) (measurements : list Q).

Lemma codes_in_range categories codes uniques :
  Pd.factorize categories = (codes, uniques) ->
  Forall (fun c => (-1 <= c < Z.of_nat (length uniques))%Z) codes.
Proof.
  intros Hf. destruct (factorize_inv _ _ _ Hf) as (_ & Hc & _).
  apply Forall_forall. intros c Hin.
  destruct (codes_bound _ _ _ _ Hc Hin) as [->|(i & -> & Hi)]; lia.
Qed.

Lemma within_closed_form categories measurements codes uniques :
  Pd.factorize categories = (codes, uniques) ->
  Np.sum (map (fun i : nat => SS (Np.average (group (Z.of_nat i) codes measurements))
                                 (group (Z.of_nat i) codes measurements))
              (seq 0 (length uniques)))
  == within_groups categories measurements.
Proof.
  intros Hf.
  exact (sum_groups_members (fun g => SS (Np.average g) g) _ _ _ _ Hf).
Qed.

Lemma denominator_split categories measurements codes uniques :
  Pd.factorize categories = (codes, uniques) ->
  length categories = length measurements ->
  denominator (closed_locals codes (length uniques) measurements)
  == numerator (closed_locals codes (length uniques) measurements)
     + within_groups categories measurements
     + SS (y_total_avg (closed_locals codes (length uniques) measurements))
          (unlabelled categories measurements).
Proof.
  intros Hf Hlen.
  destruct (factorize_inv _ _ _ Hf) as (_ & Hc & _).
  rewrite <- (within_closed_form _ _ _ _ Hf).
  rewrite <- (group_unlabelled _ _ _ Hc).
  unfold closed_locals. cbn [numerator denominator y_total_avg].
  set (mu := Np.sum _ / Np.sum _).
  rewrite <- (groups_SS_eq mu (length uniques) codes measurements (codes_in_range _ _ _ Hf))
    by (apply Forall2_length in Hc; lia).
  rewrite <- sum_map_plus.
  apply Qplus_comp; [|reflexivity].
  apply sum_map_ext_in. intros i _. cbv beta.
  rewrite (SS_decompose mu (group (Z.of_nat i) codes measurements)). ring.
Qed.


(** X6: over exact arithmetic and with a non-zero numerator, the value
    returned is 1 exactly when the measurements are the same within every
    category and every row with a missing label sits on the grand mean. *)
Theorem eta_is_one_iff categories measurements :
  categories <> [] -> length categories = length measurements ->
  exists l,
    correlation_ratio_locals categories measurements = Ok l
    /\ (~ numerator l == 0 ->
        (eta l == 1 <->
         (forall a, Some a ∈ categories ->
                    identical (members a categories measurements))
         /\ (forall x, x ∈ unlabelled categories measurements -> x == y_total_avg l))).
Proof.
  intros Hne Hlen.
  destruct (correlation_ratio_closed_form _ _ Hne Hlen) as (codes & u & Hf & Hl & _).
  eexists. split; [exact Hl|]. intros Hn.
  pose proof (denominator_split _ _ _ _ Hf Hlen) as Hdec.
  destruct (closed_locals_bounds codes (length u) measurements) as [H0 Hle].
  destruct (eta_bounds _ _ H0 Hle) as [_ Hpos]. specialize (Hpos Hn).
  set (l := closed_locals codes (length u) measurements) in *.
  assert (0 <= within_groups categories measurements) as Hw.
  { apply sum_nonneg. intros x Hx. apply list_elem_of_fmap in Hx as (a & -> & _).
    apply SS_nonneg. }
  pose proof (SS_nonneg (y_total_avg l) (unlabelled categories measurements)) as Hu.
  assert (eta l == 1 <-> numerator l == denominator l) as ->.
  { unfold l. rewrite closed_locals_eta. fold l.
    destruct (Qeq_bool (numerator l) 0) eqn:Hz; [apply Qeq_bool_eq in Hz; contradiction|].
    split; intros E.
    - assert (numerator l == numerator l / denominator l * denominator l) as ->
        by (field; lra).
      rewrite E. ring.
    - rewrite E. field. lra. }
  assert (numerator l == denominator l
          <-> within_groups categories measurements == 0
              /\ SS (y_total_avg l) (unlabelled categories measurements) == 0) as ->.
  { split; [intros E; split; lra|intros [? ?]; lra]. }
  rewrite SS_zero_iff.
  apply and_iff_compat_r.
  unfold within_groups. rewrite sum_zero_iff by (intros; apply SS_nonneg).
  split.
  - intros Hall a Ha. apply SS_average_zero_iff. apply Hall.
    unfold distinct_categories. apply elem_of_remove_dups, list_elem_of_omap.
    by exists (Some a).
  - intros Hall a Ha. apply (SS_average_zero_iff (members a categories measurements)).
    apply Hall. unfold distinct_categories in Ha.
    apply elem_of_remove_dups, list_elem_of_omap in Ha as ([b|] & Hb & [= ->]). done.
Qed.
End Anova.

Lemma sum_scale c l : Np.sum (scale c l) == c * Np.sum l.
Proof.
  induction l as [|x l IH]; simpl; [ring|].
  fold (scale c l) (Np.sum (scale c l)) (Np.sum l). rewrite IH. ring.
Qed.

Lemma average_scale c l : Np.average (scale c l) == c * Np.average l.
Proof.
  unfold Np.average. rewrite sum_scale. unfold scale. rewrite length_map.
  unfold Qdiv. ring.
Qed.

Lemma SS_scale mu c l : SS (c * mu) (scale c l) == c * c * SS mu l.
Proof.
  unfold SS, scale. rewrite map_map, <- sum_map_scale. apply sum_map_ext_in.
  intros x _. cbv beta. rewrite !pow2. ring.
Qed.

Lemma eta_scaled num den k :
  0 <= num -> num <= den -> ~ k == 0 ->
  (if Qeq_bool (k * num) 0 then 0 else (k * num) / (k * den))
  == (if Qeq_bool num 0 then 0 else num / den).
Proof.
  intros H0 Hle Hk. destruct (Qeq_bool num 0) eqn:Hz.
  - apply Qeq_bool_eq in Hz.
    assert (k * num == 0) as Hz' by (rewrite Hz; ring).
    apply Qeq_eq_bool in Hz'. rewrite Hz'. reflexivity.
  - apply Qeq_bool_neq in Hz. destruct (Qeq_bool (k * num) 0) eqn:Hz'.
    + apply Qeq_bool_eq in Hz'. apply Qmult_integral in Hz'. tauto.
    + field. split; [lra|done].
Qed.

(** X4: multiplying every measurement by one non-zero constant does not
    change the value returned. *)
Theorem scale_invariant {A : Type} `{EqDecision A}
    (categories : list (option A)) (measurements : list Q) (c : Q) :
  categories <> [] -> length categories = length measurements -> ~ c == 0 ->
  exists e e',
    correlation_ratio categories measurements = Ok e
    /\ correlation_ratio categories (scale c measurements) = Ok e'
    /\ e' == e.
Proof.
  intros Hne Hlen Hc.
  destruct (correlation_ratio_closed_form _ _ Hne Hlen) as (codes & u & Hf & _ & Hr).
  assert (length categories = length (scale c measurements)) as Hlen'
    by (unfold scale; by rewrite length_map).
  destruct (correlation_ratio_closed_form _ _ Hne Hlen') as (codes' & u' & Hf' & _ & Hr').
  rewrite Hf in Hf'. injection Hf' as <- <-.
  eexists _, _. split; [exact Hr|]. split; [exact Hr'|].
  set (K := length u).
  assert (forall i, Np.average (group (Z.of_nat i) codes (scale c measurements))
                    == c * Np.average (group (Z.of_nat i) codes measurements)) as Hav.
  { intros i. unfold scale at 1. rewrite group_map. apply average_scale. }
  assert (forall i, qlen (group (Z.of_nat i) codes (scale c measurements))
                    = qlen (group (Z.of_nat i) codes measurements)) as Hn.
  { intros i. unfold scale. by rewrite group_map, qlen_map. }
  assert (y_total_avg (closed_locals codes K (scale c measurements))
          == c * y_total_avg (closed_locals codes K measurements)) as Hmu.
  { unfold closed_locals. cbn [y_total_avg].
    rewrite (sum_map_ext_in
               (fun i => Np.average (group (Z.of_nat i) codes (scale c measurements))
                         * qlen (group (Z.of_nat i) codes (scale c measurements)))
               (fun i => c * (Np.average (group (Z.of_nat i) codes measurements)
                              * qlen (group (Z.of_nat i) codes measurements)))).
    - rewrite sum_map_scale, (map_ext _ _ Hn). unfold Qdiv. ring.
    - intros i _. cbv beta. rewrite Hav, Hn. ring. }
  assert (numerator (closed_locals codes K (scale c measurements))
          == (c * c) * numerator (closed_locals codes K measurements)) as Hnum.
  { unfold closed_locals in *. cbn [numerator y_total_avg] in *.
    rewrite <- sum_map_scale. apply sum_map_ext_in. intros i _. cbv beta.
    rewrite Hav, Hn, Hmu, !pow2. ring. }
  assert (denominator (closed_locals codes K (scale c measurements))
          == (c * c) * denominator (closed_locals codes K measurements)) as Hden.
  { unfold closed_locals in *. cbn [denominator y_total_avg] in *.
    rewrite (SS_proper _ _ _ Hmu). apply SS_scale. }
  rewrite !closed_locals_eta.
  destruct (closed_locals_bounds codes K measurements) as [H0 Hle].
  rewrite <- (eta_scaled _ _ (c * c) H0 Hle).
  - by apply eta_proper.
  - intros Hcc. apply Qmult_integral in Hcc. tauto.
Qed.

Section RowOrder.
Context {A : Type} `{EqDecision A}.
Implicit Types (categories : list (option A)) (measurements : list Q).

Lemma closed_locals_spec categories measurements codes u :
  Pd.factorize categories = (codes, u) ->
  y_total_avg (closed_locals codes (length u) measurements)
  == grand_mean categories measurements
  /\ numerator (closed_locals codes (length u) measurements)
     == between_groups categories measurements
  /\ denominator (closed_locals codes (length u) measurements)
     == total_squares categories measurements.
Proof.
  intros Hf.
  assert (y_total_avg (closed_locals codes (length u) measurements)
          == grand_mean categories measurements) as Hmu.
  { unfold closed_locals, grand_mean. cbn [y_total_avg].
    rewrite (sum_groups_members (fun g => Np.average g * qlen g) _ _ _ _ Hf).
    rewrite (sum_groups_members qlen _ _ _ _ Hf).
    apply Qdiv_comp; [|reflexivity].
    apply sum_map_ext_in. intros a _. unfold mean, count, Np.average, qlen. ring. }
  split; [exact Hmu|]. split.
  - unfold between_groups, closed_locals in *. cbn [numerator y_total_avg] in *.
    set (mu := Np.sum _ / Np.sum _) in *.
    rewrite (sum_groups_members (fun g => qlen g * (Np.average g - mu) ^ 2) _ _ _ _ Hf).
    apply sum_map_ext_in. intros a _. cbv beta. rewrite Hmu. reflexivity.
  - unfold total_squares. fold (SS (grand_mean categories measurements) measurements).
    rewrite <- (SS_proper _ _ _ Hmu). reflexivity.
Qed.

Lemma members_zip a categories : forall measurements,
  members a categories measurements
  = (filter (fun p => p.1 = Some a) (zip categories measurements)).*2.
Proof.
  induction categories as [|v vs IH]; intros [|m ms]; try reflexivity.
  cbn [members zip zip_with]. rewrite filter_cons. cbn [fst].
  destruct (decide (v = Some a)); cbn [fmap list_fmap snd]; by rewrite IH.
Qed.

Lemma sum_perm (l l' : list Q) : l ≡ₚ l' -> Np.sum l == Np.sum l'.
Proof.
  intros Hp. rewrite <- (map_id l), <- (map_id l'). by apply sum_Permutation.
Qed.

Lemma distinct_categories_perm categories categories' :
  categories ≡ₚ categories' ->
  distinct_categories categories ≡ₚ distinct_categories categories'.
Proof.
  intros Hp. apply NoDup_Permutation; [apply NoDup_remove_dups..|].
  intros a. unfold distinct_categories.
  rewrite !elem_of_remove_dups, !list_elem_of_omap.
  split; intros (v & Hv & Hid); exists v; (split; [|done]).
  - by rewrite <- Hp.
  - by rewrite Hp.
Qed.

(** X7: over exact arithmetic the order of the rows does not matter: two
    inputs whose rows (label, measurement) are permutations of each other
    return the same value, although [pd.factorize] numbers the categories
    differently. *)
Theorem row_order_irrelevant categories measurements categories' measurements' :
  categories <> [] ->
  length categories = length measurements ->
  length categories' = length measurements' ->
  zip categories measurements ≡ₚ zip categories' measurements' ->
  exists e e',
    correlation_ratio categories measurements = Ok e
    /\ correlation_ratio categories' measurements' = Ok e'
    /\ e' == e.
Proof.
  intros Hne Hlen Hlen' Hperm.
  assert (categories ≡ₚ categories') as Hcats.
  { rewrite <- (fst_zip categories measurements), <- (fst_zip categories' measurements')
      by lia. by rewrite Hperm. }
  assert (measurements ≡ₚ measurements') as Hmeas.
  { rewrite <- (snd_zip categories measurements), <- (snd_zip categories' measurements')
      by lia. by rewrite Hperm. }
  assert (categories' <> []) as Hne'.
  { intros ->. apply Permutation_nil_r in Hcats. done. }
  destruct (correlation_ratio_closed_form _ _ Hne Hlen) as (codes & u & Hf & _ & Hr).
  destruct (correlation_ratio_closed_form _ _ Hne' Hlen') as (codes' & u' & Hf' & _ & Hr').
  eexists _, _. split; [exact Hr|]. split; [exact Hr'|].
  destruct (closed_locals_spec _ measurements _ _ Hf) as (_ & Hnum & Hden).
  destruct (closed_locals_spec _ measurements' _ _ Hf') as (_ & Hnum' & Hden').
  assert (forall a, members a categories measurements
                    ≡ₚ members a categories' measurements') as Hmem.
  { intros a. rewrite !members_zip. by rewrite Hperm. }
  assert (forall a, count (members a categories measurements)
                    = count (members a categories' measurements')) as Hcount.
  { intros a. unfold count. by rewrite (Permutation_length (Hmem a)). }
  assert (forall a, mean (members a categories measurements)
                    == mean (members a categories' measurements')) as Hmean.
  { intros a. unfold mean. rewrite (Hcount a), (sum_perm _ _ (Hmem a)). reflexivity. }
  pose proof (distinct_categories_perm _ _ Hcats) as Hds.
  assert (grand_mean categories measurements
          == grand_mean categories' measurements') as Hmu.
  { unfold grand_mean. cbv zeta.
    rewrite (sum_Permutation _ _ _ Hds).
    rewrite (sum_Permutation (fun a => count (members a categories measurements)) _ _ Hds).
    apply Qdiv_comp.
    - apply sum_map_ext_in. intros a _. cbv beta. by rewrite Hcount, Hmean.
    - apply sum_map_ext_in. intros a _. cbv beta. by rewrite Hcount. }
  rewrite !closed_locals_eta. apply eta_proper.
  - rewrite Hnum, Hnum'. unfold between_groups. cbv zeta.
    rewrite (sum_Permutation _ _ _ Hds). apply sum_map_ext_in.
    intros a _. cbv beta. rewrite Hcount, Hmean, Hmu. reflexivity.
  - rewrite Hden, Hden'. unfold total_squares. cbv zeta.
    rewrite (sum_Permutation _ _ _ Hmeas). apply sum_map_ext_in.
    intros m _. cbv beta. rewrite Hmu. reflexivity.
Qed.
End RowOrder.

Local Close Scope Q_scope.

(** ** [clean]: exceptions and what is left alone *)

Lemma has_column_drop df labels :
  forallb (fun c => bool_decide (is_Some (columns df !! c))) labels
  = forallb (has_column df) labels.
Proof.
  induction labels as [|c cs IH]; [reflexivity|]. cbn [forallb]. rewrite IH. f_equal.
  unfold has_column. destruct (columns df !! c).
  - apply bool_decide_eq_true. by eexists.
  - apply bool_decide_eq_false. by intros [? ?].
Qed.

(** X8: when Name, Ticket or Cabin is not a column of the table, [clean]
    raises [KeyError] at the [drop], before any frame is made: the store is
    as it was. *)
Theorem clean_missing_droppable (h : list DataFrame) (data : nat) (df : DataFrame) :
  h !! data = Some df ->
  forallb (has_column df) ["Name"; "Ticket"; "Cabin"] = false ->
  clean data h = (Raise KeyError, h).
Proof.
  intros Hd Hno. unfold clean, bindM, DataFrame.drop. rewrite Hd.
  by rewrite has_column_drop, Hno.
Qed.

Lemma numbers_raises col e : numbers col = Raise e -> e = TypeError.
Proof.
  induction col as [|[|q|s] col IH]; simpl; try discriminate.
  - exact IH.
  - destruct (numbers col); simpl; [discriminate|]. intros [= <-]. by apply IH.
  - by intros [= <-].
Qed.

Lemma mean_of_raises col e : mean_of col = Raise e -> e = TypeError.
Proof.
  unfold mean_of. destruct (numbers col) as [qs|e'] eqn:Hn; simpl.
  - by destruct qs.
  - intros [= <-]. by eapply numbers_raises.
Qed.

Lemma mean_of_not_numeric col :
  forallb (fun x => match x with Str _ => false | _ => true end) col = false ->
  mean_of col = Raise TypeError.
Proof.
  intros Hno. destruct (mean_of col) as [m|e] eqn:Hm.
  - apply mean_of_Ok_numeric in Hm. congruence.
  - by rewrite (mean_of_raises _ _ Hm).
Qed.

(** In the model, where [mean] raises on every string: on a table that has
    the eight columns [clean] names but whose Age or Fare holds a string,
    [clean] raises [TypeError]. *)
Lemma clean_not_numeric_raises (h : list DataFrame) (data : nat) (df : DataFrame) :
  h !! data = Some df ->
  forallb (has_column df)
    ["Name"; "Ticket"; "Cabin"; "Age"; "Embarked"; "SibSp"; "Parch"; "Fare"] = true ->
  numeric_column df "Age" && numeric_column df "Fare" = false ->
  (clean data h).1 = Raise TypeError.
Proof.
  intros Hd Hcols Hnum. cbn [forallb] in Hcols. unfold has_column in Hcols.
  repeat match goal with
         | H : _ && _ = true |- _ => apply andb_true_iff in H as [? ?]
         end.
  destruct (columns df !! "Age") as [age|] eqn:Hage; [|done].
  destruct (columns df !! "Embarked") as [embarked|] eqn:Hemb; [|done].
  destruct (columns df !! "SibSp") as [sibsp|] eqn:Hsib; [|done].
  destruct (columns df !! "Parch") as [parch|] eqn:Hpar; [|done].
  destruct (columns df !! "Fare") as [fare|] eqn:Hfare; [|done].
  unfold numeric_column in Hnum. rewrite Hage, Hfare in Hnum.
  unfold clean, bindM.
  rewrite (drop_run h data df ["Name"; "Ticket"; "Cabin"] Hd)
    by (cbn [forallb]; unfold has_column;
        repeat (apply andb_true_iff; split); done).
  cbv beta iota.
  erewrite (getitem_run h _ "Age") by solve_column. cbv beta iota.
  erewrite (getitem_run h _ "Age") by solve_column. cbv beta iota.
  erewrite (mean_step h _ "Age") by solve_column.
  destruct (mean_of age) as [mA|e] eqn:HmA; [|by rewrite (mean_of_raises _ _ HmA)].
  cbv beta iota.
  erewrite (fillna_run h _ "Age") by solve_column. cbv beta iota.
  erewrite (getitem_run h _ "Embarked") by solve_column. cbv beta iota.
  erewrite (fillna_run h _ "Embarked") by solve_column. cbv beta iota.
  erewrite (getitem_run h _ "SibSp") by solve_column. cbv beta iota.
  erewrite (fillna_run h _ "SibSp") by solve_column. cbv beta iota.
  erewrite (getitem_run h _ "Parch") by solve_column. cbv beta iota.
  erewrite (fillna_run h _ "Parch") by solve_column. cbv beta iota.
  erewrite (getitem_run h _ "Fare") by solve_column. cbv beta iota.
  erewrite (getitem_run h _ "Fare") by solve_column. cbv beta iota.
  erewrite (mean_step h _ "Fare") by solve_column.
  destruct (mean_of fare) as [mF|e] eqn:HmF; [|by rewrite (mean_of_raises _ _ HmF)].
  apply mean_of_Ok_numeric in HmA, HmF. rewrite HmA, HmF in Hnum. discriminate.
Qed.

(** X10: [clean] raises nothing but [KeyError] and [TypeError]. *)
Theorem clean_raises_key_or_type_error (h : list DataFrame) (data : nat)
    (df : DataFrame) (e : exn) :
  h !! data = Some df -> (clean data h).1 = Raise e -> e = KeyError \/ e = TypeError.
Proof.
  intros Hd Hrun. unfold clean, bindM in Hrun.
  unfold DataFrame.drop in Hrun. rewrite Hd in Hrun.
  destruct (forallb _ ["Name"; "Ticket"; "Cabin"]) eqn:Hdrop;
    [|injection Hrun as <-; by left].
  rewrite getitem_step in Hrun. normalize_lookup Hrun.
  destruct (columns df !! "Age") as [age|] eqn:Hage; [|injection Hrun as <-; by left].
  rewrite getitem_step in Hrun. normalize_lookup Hrun. rewrite Hage in Hrun.
  erewrite (mean_step h _ "Age") in Hrun by solve_column.
  destruct (mean_of age) as [mA|eA] eqn:HmA;
    [|injection Hrun as <-; right; by eapply mean_of_raises].
  erewrite (fillna_run h _ "Age") in Hrun by solve_column.
  rewrite getitem_step in Hrun. normalize_lookup Hrun.
  destruct (columns df !! "Embarked") as [embarked|] eqn:Hemb;
    [|injection Hrun as <-; by left].
  erewrite (fillna_run h _ "Embarked") in Hrun by solve_column.
  rewrite getitem_step in Hrun. normalize_lookup Hrun.
  destruct (columns df !! "SibSp") as [sibsp|] eqn:Hsib; [|injection Hrun as <-; by left].
  erewrite (fillna_run h _ "SibSp") in Hrun by solve_column.
  rewrite getitem_step in Hrun. normalize_lookup Hrun.
  destruct (columns df !! "Parch") as [parch|] eqn:Hpar; [|injection Hrun as <-; by left].
  erewrite (fillna_run h _ "Parch") in Hrun by solve_column.
  rewrite getitem_step in Hrun. normalize_lookup Hrun.
  destruct (columns df !! "Fare") as [fare|] eqn:Hfare; [|injection Hrun as <-; by left].
  rewrite getitem_step in Hrun. normalize_lookup Hrun. rewrite Hfare in Hrun.
  erewrite (mean_step h _ "Fare") in Hrun by solve_column.
  destruct (mean_of fare) as [mF|eF] eqn:HmF;
    [|injection Hrun as <-; right; by eapply mean_of_raises].
  erewrite (fillna_run h _ "Fare") in Hrun by solve_column.
  discriminate.
Qed.

Lemma clean_result h data df data' h' :
  h !! data = Some df -> clean data h = (Ok data', h') ->
  exists age fare age_mean fare_mean,
    columns df !! "Age" = Some age /\ columns df !! "Fare" = Some fare
    /\ mean_of age = Ok age_mean /\ mean_of fare = Ok fare_mean
    /\ data' = length h
    /\ h' = h ++ [Frame (nrows df) (cleaned_columns (columns df) age_mean fare_mean)].
Proof.
  intros Hd Hret.
  assert (passenger_table df = true) as Hpt by (eapply clean_returns; eauto).
  destruct (clean_run h data df Hd Hpt)
    as (age & fare & mA & mF & Hage & Hfare & HmA & HmF & _ & _ & Hrun).
  rewrite Hrun in Hret. injection Hret as <- <-.
  by exists age, fare, mA, mF.
Qed.

(** X11: [clean] cannot be applied twice: on the table it returned it
    raises [KeyError] (Name is gone) and leaves the store as it is. *)
Theorem clean_twice_raises (h : list DataFrame) (data data' : nat) (h' : list DataFrame) :
  is_Some (h !! data) -> clean data h = (Ok data', h') ->
  clean data' h' = (Raise KeyError, h').
Proof.
  intros [df Hd] Hret.
  destruct (clean_result _ _ _ _ _ Hd Hret) as (age & fare & mA & mF & _ & _ & _ & _ & -> & ->).
  unfold clean, bindM, DataFrame.drop.
  rewrite (list_lookup_middle h [] _ (length h) eq_refl).
  rewrite has_column_drop. cbn [forallb]. unfold has_column at 1. cbn [columns].
  rewrite cleaned_columns_lookup. rewrite decide_True by left. reflexivity.
Qed.

(** X12: a column that [clean] does not name comes back as it was, its
    missing cells included. *)
Theorem clean_other_columns (h : list DataFrame) (data data' : nat) (df : DataFrame)
    (h' : list DataFrame) (c : string) :
  h !! data = Some df -> clean data h = (Ok data', h') ->
  c ∉ ["Name"; "Ticket"; "Cabin"; "Age"; "Embarked"; "SibSp"; "Parch"; "Fare"] ->
  exists df', h' !! data' = Some df' /\ columns df' !! c = columns df !! c.
Proof.
  intros Hd Hret Hc.
  destruct (clean_result _ _ _ _ _ Hd Hret) as (age & fare & mA & mF & _ & _ & _ & _ & -> & ->).
  eexists. split; [by apply list_lookup_middle|]. cbn [columns].
  rewrite cleaned_columns_lookup.
  rewrite decide_False
    by (intros Hin; apply Hc; rewrite !elem_of_cons, elem_of_nil in *; tauto).
  unfold fill_value.
  rewrite !decide_False
    by (intros ->; apply Hc; rewrite !elem_of_cons; repeat first [by left | right]).
  destruct (columns df !! c) as [col|]; simpl; [|done]. by rewrite fill_NaN.
Qed.

Lemma fill_id v col :
  forallb (fun x => negb (isna x)) col = true -> fill v col = col.
Proof.
  induction col as [|x col IH]; [reflexivity|]. cbn [forallb]. intros Hx.
  apply andb_true_iff in Hx as [Hx Hall]. unfold fill in *. cbn [map].
  rewrite IH by done. by destruct (isna x).
Qed.

Lemma mean_of_no_value col :
  existsb (fun x => negb (isna x)) col = false -> mean_of col = Ok NaN.
Proof.
  intros Hno. unfold mean_of.
  assert (numbers col = Ok []) as ->; [|reflexivity].
  induction col as [|[|q|s] col IH]; simpl in *; try done. by apply IH.
Qed.

(** X13: an Age (or Fare) column without a single value has no mean to be
    filled with: it comes back as it was, all missing. *)
Theorem clean_all_missing_kept (h : list DataFrame) (data data' : nat) (df : DataFrame)
    (h' : list DataFrame) :
  h !! data = Some df -> clean data h = (Ok data', h') ->
  exists df',
    h' !! data' = Some df'
    /\ (has_value df "Age" = false -> columns df' !! "Age" = columns df !! "Age")
    /\ (has_value df "Fare" = false -> columns df' !! "Fare" = columns df !! "Fare").
Proof.
  intros Hd Hret.
  destruct (clean_result _ _ _ _ _ Hd Hret)
    as (age & fare & mA & mF & Hage & Hfare & HmA & HmF & -> & ->).
  eexists. split; [by apply list_lookup_middle|]. cbn [columns].
  rewrite !cleaned_columns_lookup, Hage, Hfare. unfold has_value.
  rewrite Hage, Hfare. cbn. split; intros Hno.
  - rewrite (mean_of_no_value _ Hno) in HmA. injection HmA as <-. by rewrite fill_NaN.
  - rewrite (mean_of_no_value _ Hno) in HmF. injection HmF as <-. by rewrite fill_NaN.
Qed.

(** X14: on a table without a missing value in the five filled columns
    [clean] only drops Name, Ticket and Cabin. *)
Theorem clean_complete_table (h : list DataFrame) (data data' : nat) (df : DataFrame)
    (h' : list DataFrame) :
  h !! data = Some df -> clean data h = (Ok data', h') ->
  forallb (no_missing df) ["Age"; "Embarked"; "SibSp"; "Parch"; "Fare"] = true ->
  h' !! data'
  = Some (Frame (nrows df) (delete "Name" (delete "Ticket" (delete "Cabin" (columns df))))).
Proof.
  intros Hd Hret Hfull.
  destruct (clean_result _ _ _ _ _ Hd Hret)
    as (age & fare & mA & mF & Hage & Hfare & HmA & HmF & -> & ->).
  rewrite list_lookup_middle by done. do 2 f_equal.
  cbn [forallb] in Hfull. unfold no_missing in Hfull.
  repeat match goal with
         | H : _ && _ = true |- _ => apply andb_true_iff in H as [? ?]
         end.
  apply map_eq. intros c. rewrite cleaned_columns_lookup.
  destruct (decide (c ∈ ["Name"; "Ticket"; "Cabin"])) as [Hin|Hnin].
  - repeat (apply elem_of_cons in Hin as [->|Hin]); [..|by apply elem_of_nil in Hin].
    + by rewrite lookup_delete_eq.
    + rewrite lookup_delete_ne by done. by rewrite lookup_delete_eq.
    + rewrite !lookup_delete_ne by done. by rewrite lookup_delete_eq.
  - rewrite !lookup_delete_ne
      by (intros <-; apply Hnin; rewrite !elem_of_cons; repeat first [by left | right]).
    destruct (columns df !! c) as [col|] eqn:Hc; [|done]. cbn. f_equal.
    unfold fill_value.
    repeat (case_decide; [subst c; apply fill_id;
                          match goal with
                          | H : match columns df !! _ with _ => _ end = true |- _ =>
                              rewrite Hc in H; exact H
                          end|]).
    apply fill_NaN.
Qed.

Local Open Scope Q_scope.




Local Close Scope Q_scope.

(** ** The fixtures: reasons, stacking, positions *)

Lemma string_length_app (s t : string) :
  String.length (s ++ t)%string = (String.length s + String.length t)%nat.
Proof.
  induction s as [|a s IH]; [reflexivity|].
  change (S (String.length (s ++ t)%string) = S (String.length s + String.length t)).
  by rewrite IH.
Qed.

(** X16: the reason recorded when the import raised an [Exception] with
    message [msg]: the plain sentence when [msg] is empty or is
    "No module named <name>", the sentence followed by
    " Got exception (<msg>)" otherwise; the latter is the case of the
    message with the name in quotes. *)
Theorem requires_module_reason (exec : string -> exec_outcome)
    (function : test_function) (name : string) (msg : string) :
  exec ("import " ++ name)%string = RaisedException msg ->
  let base := ("Test " ++ fn_name function ++ " skipped, requires " ++ name ++ ".")%string in
  exists mark,
    requires_module exec function name None
    = Ok (TestFunction (fn_name function) (pytestmark function ++ [mark]))
    /\ (msg = ""%string \/ msg = ("No module named " ++ name)%string ->
        reason mark = base)
    /\ (msg <> ""%string -> msg <> ("No module named " ++ name)%string ->
        reason mark = (base ++ " Got exception (" ++ msg ++ ")")%string)
    /\ (msg = ("No module named '" ++ name ++ "'")%string ->
        reason mark = (base ++ " Got exception (" ++ msg ++ ")")%string).
Proof.
  intros Hexec base. unfold requires_module. rewrite Hexec.
  eexists. split; [reflexivity|]. cbn [reason]. fold base.
  assert (msg <> ""%string -> msg <> ("No module named " ++ name)%string ->
          (if negb (String.length msg =? 0)%nat
              && negb (msg =? "No module named " ++ name)%string
           then (base ++ " Got exception (" ++ msg ++ ")")%string else base)
          = (base ++ " Got exception (" ++ msg ++ ")")%string) as Hsuffix.
  { intros Hne1 Hne2.
    assert (String.length msg <> 0)%nat as Hlen by (by destruct msg).
    apply Nat.eqb_neq in Hlen. apply String.eqb_neq in Hne2.
    by rewrite Hlen, Hne2. }
  split; [|split; [exact Hsuffix|]].
  - intros [-> | ->].
    + reflexivity.
    + rewrite String.eqb_refl, andb_false_r. reflexivity.
  - intros Hmsg. apply Hsuffix; rewrite Hmsg.
    + intros Heq. apply (f_equal String.length) in Heq.
      rewrite string_length_app in Heq. simpl in Heq. lia.
    + intros Heq. apply (f_equal String.length) in Heq.
      rewrite !string_length_app in Heq. simpl in Heq. lia.
Qed.

(** X17: [requires_matplotlib] and [requires_seaborn] on one test: the
    test keeps its name and the marks it had, and gets one mark per
    decorator, in the order applied, each skipping exactly when its own
    import raised and naming its own dependency. *)
Theorem requires_matplotlib_then_seaborn (exec : string -> exec_outcome)
    (function : test_function) :
  exec "import matplotlib" <> RaisedBaseException ->
  exec "import seaborn" <> RaisedBaseException ->
  exists m1 m2,
    (let* f := requires_matplotlib exec function in requires_seaborn exec f)
    = Ok (TestFunction (fn_name function) (pytestmark function ++ [m1; m2]))
    /\ (condition m1 = true <-> exists msg, exec "import matplotlib" = RaisedException msg)
    /\ (condition m2 = true <-> exists msg, exec "import seaborn" = RaisedException msg)
    /\ (exists sfx, reason m1
          = (("Test " ++ fn_name function ++ " skipped, requires matplotlib.") ++ sfx)%string)
    /\ (exists sfx, reason m2
          = (("Test " ++ fn_name function ++ " skipped, requires seaborn.") ++ sfx)%string).
Proof.
  intros H1 H2. unfold requires_matplotlib, requires_seaborn, requires_module.
  change ("import " ++ "matplotlib")%string with "import matplotlib".
  change ("import " ++ "seaborn")%string with "import seaborn".
  destruct (exec "import matplotlib") as [|msg1|] eqn:E1; [| |done];
    destruct (exec "import seaborn") as [|msg2|] eqn:E2; try done;
    cbn [bind fn_name pytestmark]; rewrite <- (assoc_L (++)); cbn [app];
    eexists _, _; (split; [reflexivity|]); cbn [condition reason];
    repeat split; try done; try (intros [? [=]]); try (by eexists);
    try (exists ""%string; by rewrite string_app_nil_r);
    try (destruct (_ && _); [by eexists|exists ""%string; by rewrite string_app_nil_r]).
Qed.

Local Open Scope Z_scope.

(** X18: [get_labels] at the edges: no class raises [ZeroDivisionError];
    a negative number of matrices raises [ValueError] (negative repeat
    count); fewer matrices than classes gives no label at all. *)
Theorem get_labels_edges (n_matrices n_classes : Z) :
  (n_classes = 0 -> get_labels n_matrices n_classes = Raise ZeroDivisionError)
  /\ (0 < n_classes -> n_matrices < 0 ->
      get_labels n_matrices n_classes = Raise ValueError)
  /\ (0 <= n_matrices < n_classes -> get_labels n_matrices n_classes = Ok []).
Proof.
  unfold get_labels, floordiv, np_repeat. split; [by intros ->|]. split.
  - intros Hc Hm. rewrite (proj2 (Z.eqb_neq n_classes 0)) by lia. cbn [bind].
    assert (n_matrices / n_classes < 0) by (apply Z.div_lt_upper_bound; lia).
    by rewrite (proj2 (Z.ltb_lt _ 0)).
  - intros Hm. rewrite (proj2 (Z.eqb_neq n_classes 0)) by lia. cbn [bind].
    rewrite Z.div_small by lia. cbn [Z.ltb Z.compare]. f_equal.
    induction (arange n_classes) as [|x l IH]; [reflexivity|]. exact IH.
Qed.

Lemma blocks_lookup k n : forall a i,
  (0 < k)%nat -> (i < n * k)%nat ->
  blocks k a n !! i = Some (Z.of_nat (a + i / k)).
Proof.
  induction n as [|n IH]; intros a i Hk Hi; [lia|].
  rewrite blocks_S. destruct (decide (i < k)%nat) as [Hlt|Hge].
  - rewrite lookup_app_l by (rewrite length_replicate; lia).
    rewrite lookup_replicate_2 by done. rewrite Nat.div_small by done.
    do 2 f_equal. lia.
  - rewrite lookup_app_r by (rewrite length_replicate; lia).
    rewrite length_replicate, IH by (simpl in Hi; lia).
    do 2 f_equal.
    replace i with (1 * k + (i - k))%nat at 2 by lia.
    rewrite Nat.div_add_l by lia. lia.
Qed.

(** X19: the label at position [i] is [i // (n_matrices // n_classes)]. *)
Theorem get_labels_lookup (n_matrices n_classes i : Z) :
  0 < n_classes -> n_classes <= n_matrices ->
  0 <= i < n_classes * (n_matrices / n_classes) ->
  exists labels,
    get_labels n_matrices n_classes = Ok labels
    /\ labels !! Z.to_nat i = Some (i / (n_matrices / n_classes)).
Proof.
  intros Hc Hm Hi.
  assert (0 < n_matrices / n_classes) as Hk by (apply Z.div_str_pos; lia).
  unfold get_labels, floordiv, np_repeat.
  rewrite (proj2 (Z.eqb_neq n_classes 0)) by lia. cbn [bind].
  rewrite (proj2 (Z.ltb_ge (n_matrices / n_classes) 0)) by lia.
  eexists. split; [reflexivity|].
  change (flat_map _ (arange n_classes))
    with (blocks (Z.to_nat (n_matrices / n_classes)) 0 (Z.to_nat n_classes)).
  rewrite blocks_lookup by lia. f_equal. cbn [Nat.add].
  rewrite Nat2Z.inj_div, !Z2Nat.id by lia. reflexivity.
Qed.

(** ** The further properties on small inputs *)

Local Close Scope Z_scope.
Local Open Scope string_scope.
Local Open Scope list_scope.

Lemma all_missing_returns_zero_witness :
  correlation_ratio (A := string) [None; None; None] [3; 5]%Q = Ok 0%Q.
Proof.
  apply all_missing_returns_zero; [discriminate|].
  intros v Hv. repeat (apply elem_of_cons in Hv as [->|Hv]); [done..|].
  by apply elem_of_nil in Hv.
Defined.

Lemma surplus_measurements_witness :
  exists l l',
    correlation_ratio_locals [Some "S"; Some "C"; Some "S"] [7; 71; 8; 500; 900]%Q = Ok l
    /\ correlation_ratio_locals [Some "S"; Some "C"; Some "S"]
         (take (length [Some "S"; Some "C"; Some "S"]) [7; 71; 8; 500; 900]%Q) = Ok l'
    /\ n_array l = n_array l' /\ y_avg_array l = y_avg_array l'
    /\ y_total_avg l = y_total_avg l' /\ numerator l = numerator l'
    /\ (denominator l
        == denominator l'
           + SS (y_total_avg l)
                (drop (length [Some "S"; Some "C"; Some "S"]) [7; 71; 8; 500; 900]%Q))%Q.
Proof. apply surplus_measurements; [discriminate | simpl; lia]. Defined.

Lemma scale_invariant_witness :
  exists e e',
    correlation_ratio [Some "S"; Some "C"; Some "S"] [7; 71; 8]%Q = Ok e
    /\ correlation_ratio [Some "S"; Some "C"; Some "S"] (scale (-3) [7; 71; 8]%Q) = Ok e'
    /\ (e' == e)%Q.
Proof. apply scale_invariant; [discriminate | reflexivity | discriminate]. Defined.


Lemma eta_is_one_iff_witness :
  exists l,
    correlation_ratio_locals [Some "S"; Some "C"; Some "S"] [7; 71; 7]%Q = Ok l
    /\ (~ (numerator l == 0)%Q ->
        ((eta l == 1)%Q <->
         (forall a, Some a ∈ [Some "S"; Some "C"; Some "S"] ->
                    identical (members a [Some "S"; Some "C"; Some "S"] [7; 71; 7]%Q))
         /\ (forall x, x ∈ unlabelled [Some "S"; Some "C"; Some "S"] [7; 71; 7]%Q ->
                       (x == y_total_avg l)%Q))).
Proof. apply eta_is_one_iff; [discriminate | reflexivity]. Defined.

Lemma row_order_irrelevant_witness :
  exists e e',
    correlation_ratio [Some "S"; Some "C"; Some "S"] [7; 71; 8]%Q = Ok e
    /\ correlation_ratio [Some "C"; Some "S"; Some "S"] [71; 7; 8]%Q = Ok e'
    /\ (e' == e)%Q.
Proof.
  apply row_order_irrelevant; [discriminate | reflexivity | reflexivity |].
  apply perm_swap.
Defined.

Lemma clean_missing_droppable_witness :
  clean 0 [Frame 3 (delete "Cabin" (columns sample_passengers))]
  = (Raise KeyError, [Frame 3 (delete "Cabin" (columns sample_passengers))]).
Proof.
  apply (clean_missing_droppable _ 0 (Frame 3 (delete "Cabin" (columns sample_passengers))));
    vm_compute; reflexivity.
Defined.

Lemma clean_raises_key_or_type_error_witness :
  KeyError = KeyError \/ KeyError = TypeError.
Proof.
  apply (clean_raises_key_or_type_error
           [Frame 3 (delete "Age" (columns sample_passengers))] 0
           (Frame 3 (delete "Age" (columns sample_passengers))) KeyError);
    vm_compute; reflexivity.
Defined.

Lemma clean_twice_raises_witness :
  clean 1 (clean 0 [sample_passengers]).2
  = (Raise KeyError, (clean 0 [sample_passengers]).2).
Proof.
  apply (clean_twice_raises [sample_passengers] 0 1 (clean 0 [sample_passengers]).2).
  - by eexists.
  - vm_compute. reflexivity.
Defined.

Lemma clean_other_columns_witness :
  exists df',
    (clean 0 [sample_passengers]).2 !! 1%nat = Some df'
    /\ columns df' !! "Survived" = columns sample_passengers !! "Survived".
Proof.
  apply (clean_other_columns [sample_passengers] 0 1 sample_passengers
           (clean 0 [sample_passengers]).2 "Survived").
  - reflexivity.
  - vm_compute. reflexivity.
  - intros Hin. repeat (apply elem_of_cons in Hin as [Hin|Hin]; [discriminate|]).
    by apply elem_of_nil in Hin.
Defined.

Lemma clean_all_missing_kept_witness :
  exists df',
    (clean 0 [Frame 3 (<["Age" := [NaN; NaN; NaN]]> (columns sample_passengers))]).2
      !! 1%nat = Some df'
    /\ (has_value (Frame 3 (<["Age" := [NaN; NaN; NaN]]> (columns sample_passengers)))
          "Age" = false ->
        columns df' !! "Age"
        = columns (Frame 3 (<["Age" := [NaN; NaN; NaN]]> (columns sample_passengers)))
            !! "Age")
    /\ (has_value (Frame 3 (<["Age" := [NaN; NaN; NaN]]> (columns sample_passengers)))
          "Fare" = false ->
        columns df' !! "Fare"
        = columns (Frame 3 (<["Age" := [NaN; NaN; NaN]]> (columns sample_passengers)))
            !! "Fare").
Proof.
  apply (clean_all_missing_kept
           [Frame 3 (<["Age" := [NaN; NaN; NaN]]> (columns sample_passengers))] 0 1).
  - reflexivity.
  - vm_compute. reflexivity.
Defined.

Lemma clean_complete_table_witness :
  (clean 0 [complete_passengers]).2 !! 1%nat
  = Some (Frame (nrows complete_passengers)
            (delete "Name" (delete "Ticket" (delete "Cabin" (columns complete_passengers))))).
Proof.
  apply (clean_complete_table [complete_passengers] 0 1 complete_passengers).
  - reflexivity.
  - vm_compute. reflexivity.
  - vm_compute. reflexivity.
Defined.


Lemma requires_module_reason_witness :
  exists mark,
    requires_module (fun _ => RaisedException "No module named 'seaborn'")
      (TestFunction "test_plot" []) "seaborn" None
    = Ok (TestFunction "test_plot" ([] ++ [mark]))
    /\ ("No module named 'seaborn'" = "" \/
        "No module named 'seaborn'" = ("No module named " ++ "seaborn")%string ->
        reason mark
        = ("Test " ++ "test_plot" ++ " skipped, requires " ++ "seaborn" ++ ".")%string)
    /\ ("No module named 'seaborn'" <> "" ->
        "No module named 'seaborn'" <> ("No module named " ++ "seaborn")%string ->
        reason mark
        = (("Test " ++ "test_plot" ++ " skipped, requires " ++ "seaborn" ++ ".")
           ++ " Got exception (" ++ "No module named 'seaborn'" ++ ")")%string)
    /\ ("No module named 'seaborn'" = ("No module named '" ++ "seaborn" ++ "'")%string ->
        reason mark
        = (("Test " ++ "test_plot" ++ " skipped, requires " ++ "seaborn" ++ ".")
           ++ " Got exception (" ++ "No module named 'seaborn'" ++ ")")%string).
Proof.
  apply (requires_module_reason (fun _ => RaisedException "No module named 'seaborn'")
           (TestFunction "test_plot" []) "seaborn" "No module named 'seaborn'").
  reflexivity.
Defined.

Lemma requires_matplotlib_then_seaborn_witness :
  exists m1 m2,
    (let* f := requires_matplotlib
                 (fun call => if String.eqb call "import seaborn"
                              then RaisedException "No module named 'seaborn'"
                              else Completed)
                 (TestFunction "test_plot" []) in
     requires_seaborn
       (fun call => if String.eqb call "import seaborn"
                    then RaisedException "No module named 'seaborn'"
                    else Completed) f)
    = Ok (TestFunction "test_plot" ([] ++ [m1; m2]))
    /\ (condition m1 = true <->
        exists msg, (if String.eqb "import matplotlib" "import seaborn"
                     then RaisedException "No module named 'seaborn'"
                     else Completed) = RaisedException msg)
    /\ (condition m2 = true <->
        exists msg, (if String.eqb "import seaborn" "import seaborn"
                     then RaisedException "No module named 'seaborn'"
                     else Completed) = RaisedException msg)
    /\ (exists sfx, reason m1
          = (("Test " ++ "test_plot" ++ " skipped, requires matplotlib.") ++ sfx)%string)
    /\ (exists sfx, reason m2
          = (("Test " ++ "test_plot" ++ " skipped, requires seaborn.") ++ sfx)%string).
Proof.
  apply (requires_matplotlib_then_seaborn
           (fun call => if String.eqb call "import seaborn"
                        then RaisedException "No module named 'seaborn'"
                        else Completed)
           (TestFunction "test_plot" [])); discriminate.
Defined.

Lemma get_labels_lookup_witness :
  exists labels,
    get_labels 7 3 = Ok labels /\ labels !! Z.to_nat 3 = Some (3 / (7 / 3))%Z.
Proof. apply get_labels_lookup; [lia | lia | split; [lia | reflexivity]]. Defined.

(** ** The display functions *)

Lemma pbind_Ok {X Y : Type} (c : Plot X) (k : X -> Plot Y) y t :
  pbind c k = (Ok y, t) ->
  exists x t1 t2, c = (Ok x, t1) /\ k x = (Ok y, t2) /\ t = t1 ++ t2.
Proof.
  destruct c as [[x|e] t1]; simpl; [|discriminate].
  destruct (k x) as [r t2] eqn:E. intros [= -> <-]. eauto 6.
Qed.

Lemma pbind_ok {X Y : Type} (x : X) t (k : X -> Plot Y) :
  pbind (Ok x, t) k = ((k x).1, t ++ (k x).2).
Proof. simpl. by destruct (k x). Qed.

Lemma pbind_call {Y : Type} c (k : unit -> Plot Y) :
  pbind (call c) k = ((k tt).1, c :: (k tt).2).
Proof. unfold call. by rewrite pbind_ok. Qed.

Lemma pbind_raise {X Y : Type} e t (k : X -> Plot Y) :
  pbind (Raise e, t) k = (Raise e, t).
Proof. reflexivity. Qed.

Lemma lift_Ok {X : Type} (r : result X) x t :
  lift r = (Ok x, t) -> r = Ok x /\ t = [].
Proof. unfold lift. by intros [= -> <-]. Qed.

Lemma call_Ok c u t : call c = (Ok u, t) -> t = [c].
Proof. unfold call. by intros [= <-]. Qed.

Lemma index_nat n i : (i < n)%nat -> index n (Z.of_nat i) = Ok i.
Proof.
  intros H. unfold index.
  destruct (Z.leb_spec 0 (Z.of_nat i)); [|lia].
  destruct (Z.ltb_spec (Z.of_nat i) (Z.of_nat n)); [|lia].
  simpl. by rewrite Nat2Z.id.
Qed.

Lemma index_nat_out n i : (n <= i)%nat -> index n (Z.of_nat i) = Raise IndexError.
Proof.
  intros H. unfold index.
  destruct (Z.ltb_spec (Z.of_nat i) (Z.of_nat n)); [lia|].
  rewrite andb_false_r.
  destruct (Z.ltb_spec (Z.of_nat i) 0); [lia|]. by rewrite andb_false_r.
Qed.

Lemma index_lt n d j : index n d = Ok j -> (j < n)%nat.
Proof.
  unfold index.
  destruct (Z.leb_spec 0 d), (Z.ltb_spec d (Z.of_nat n)); simpl;
    try (intros [= <-]; lia);
    destruct (Z.leb_spec (- Z.of_nat n) d), (Z.ltb_spec d 0); simpl;
    try discriminate; intros [= <-]; lia.
Qed.

Lemma item_nat {X : Type} (l : list X) i x :
  l !! i = Some x -> item l (Z.of_nat i) = Ok x.
Proof.
  intros H. unfold item. rewrite index_nat by (by eapply lookup_lt_Some).
  simpl. by rewrite H.
Qed.

Lemma item_nat_out {X : Type} (l : list X) i :
  (length l <= i)%nat -> item l (Z.of_nat i) = Raise IndexError.
Proof. intros H. unfold item. by rewrite index_nat_out. Qed.

Lemma column_length a d c : column a d = Ok c -> length c = length (rows a).
Proof.
  unfold column. destruct (index (shape1 a) d); simpl; [|discriminate].
  intros [= <-]. by rewrite length_map.
Qed.

Lemma row_length a d r :
  well_shaped a -> row a d = Ok r -> length r = shape1 a.
Proof.
  intros [Hn Hall]. unfold row. destruct (index (shape0 a) d) as [i|] eqn:Hi; simpl;
    [|discriminate].
  intros [= <-]. apply index_lt in Hi. rewrite <- Hn in Hi.
  apply lookup_lt_is_Some in Hi as [r Hr]. rewrite Hr. simpl.
  rewrite Forall_forall in Hall. apply Hall. by eapply list_elem_of_lookup_2.
Qed.

(** *** [min], [max] *)

Lemma foldl_max_spec rest : forall x,
  let m := foldl (fun m y => if Qlt_le_dec m y then y else m) x rest in
  (x <= m)%Q /\ Forall (fun y => (y <= m)%Q) rest /\ (m = x \/ m ∈ rest).
Proof.
  induction rest as [|y rest IH]; intros x; cbn zeta.
  - cbn [foldl]. split; [apply Qle_refl|]. split; [constructor|by left].
  - cbn [foldl]. destruct (Qlt_le_dec x y) as [Hlt|Hle].
    + destruct (IH y) as (H1 & H2 & H3). split; [|split].
      * eapply Qle_trans; [apply Qlt_le_weak, Hlt|exact H1].
      * constructor; assumption.
      * right. destruct H3 as [-> | H3]; [left|by right].
    + destruct (IH x) as (H1 & H2 & H3). split; [exact H1|split].
      * constructor; [eapply Qle_trans; eassumption|assumption].
      * destruct H3 as [H3 | H3]; [by left|right; by right].
Qed.

Lemma foldl_min_spec rest : forall x,
  let m := foldl (fun m y => if Qlt_le_dec y m then y else m) x rest in
  (m <= x)%Q /\ Forall (fun y => (m <= y)%Q) rest /\ (m = x \/ m ∈ rest).
Proof.
  induction rest as [|y rest IH]; intros x; cbn zeta.
  - cbn [foldl]. split; [apply Qle_refl|]. split; [constructor|by left].
  - cbn [foldl]. destruct (Qlt_le_dec y x) as [Hlt|Hle].
    + destruct (IH y) as (H1 & H2 & H3). split; [|split].
      * eapply Qle_trans; [exact H1|apply Qlt_le_weak, Hlt].
      * constructor; assumption.
      * right. destruct H3 as [-> | H3]; [left|by right].
    + destruct (IH x) as (H1 & H2 & H3). split; [exact H1|split].
      * constructor; [eapply Qle_trans; eassumption|assumption].
      * destruct H3 as [H3 | H3]; [by left|right; by right].
Qed.

Lemma py_max_spec xs m :
  py_max xs = Ok m -> Forall (fun y => (y <= m)%Q) xs /\ m ∈ xs.
Proof.
  destruct xs as [|x rest]; [discriminate|]. intros [= <-].
  destruct (foldl_max_spec rest x) as (H1 & H2 & H3). split.
  - by constructor.
  - destruct H3 as [-> | H3]; [left|by right].
Qed.

Lemma py_min_spec xs m :
  py_min xs = Ok m -> Forall (fun y => (m <= y)%Q) xs /\ m ∈ xs.
Proof.
  destruct xs as [|x rest]; [discriminate|]. intros [= <-].
  destruct (foldl_min_spec rest x) as (H1 & H2 & H3). split.
  - by constructor.
  - destruct H3 as [-> | H3]; [left|by right].
Qed.

Lemma py_max_is_Some xs : xs <> [] -> exists m, py_max xs = Ok m.
Proof. destruct xs; [done|]. intros _. by eexists. Qed.

Lemma py_min_is_Some xs : xs <> [] -> exists m, py_min xs = Ok m.
Proof. destruct xs; [done|]. intros _. by eexists. Qed.

(** *** [display_scree_plot] *)








(** *** [display_factorial_planes] *)

Lemma unique_NoDup a : NoDup (unique a).
Proof.
  unfold unique. rewrite merge_sort_Permutation. apply NoDup_remove_dups.
Qed.

Lemma elem_of_unique a v : v ∈ unique a <-> v ∈ a.
Proof.
  unfold unique. rewrite merge_sort_Permutation. apply elem_of_remove_dups.
Qed.

Lemma unique_sorted a : Sorted Z.le (unique a).
Proof. unfold unique. apply Sorted_merge_sort. apply _. Qed.

Lemma scatter_values_run X_projected d1 d2 alpha var xs ys :
  column X_projected d1 = Ok xs -> column X_projected d2 = Ok ys ->
  (length var <= length (rows X_projected))%nat ->
  forall values,
    scatter_values X_projected d1 d2 alpha var values
    = (Ok tt, map (fun v => Scatter (group v var xs) (group v var ys) alpha (Some v))
                  values).
Proof.
  intros Hx Hy Hlen values.
  induction values as [|v values IH]; [reflexivity|].
  cbn [scatter_values map]. unfold select. rewrite Hx, Hy. cbn [bind].
  rewrite !take_argwhere_covered.
  - cbn. by rewrite IH.
  - intros pos Hpos. apply lookup_lt_Some in Hpos.
    rewrite (column_length _ _ _ Hy). lia.
  - intros pos Hpos. apply lookup_lt_Some in Hpos.
    rewrite (column_length _ _ _ Hx). lia.
Qed.

Lemma concat_insert_once {X : Type} (c : Z) (p : X) (Z' : Z -> list X) values :
  NoDup values -> c ∈ values ->
  concat (map (fun v => if Z.eqb c v then p :: Z' v else Z' v) values)
  ≡ₚ p :: concat (map Z' values).
Proof.
  induction values as [|v values IH]; intros Hnd Hin; [by apply elem_of_nil in Hin|].
  apply NoDup_cons in Hnd as [Hv Hnd]. cbn [map concat].
  destruct (Z.eqb_spec c v) as [->|Hne].
  - cbn. constructor. apply Permutation_app_head.
    assert (forall vs, v ∉ vs ->
              map (fun v0 => if Z.eqb v v0 then p :: Z' v0 else Z' v0) vs = map Z' vs)
      as Hsame.
    { induction vs as [|w vs IHvs]; intros Hw; [reflexivity|]. cbn [map].
      apply not_elem_of_cons in Hw as [Hw1 Hw2].
      destruct (Z.eqb_spec v w); [done|]. by rewrite IHvs. }
    by rewrite Hsame.
  - apply elem_of_cons in Hin as [?|Hin]; [done|].
    rewrite (IH Hnd Hin). by rewrite Permutation_middle.
Qed.

Lemma groups_partition var : forall xs ys values,
  length xs = length var -> length ys = length var ->
  NoDup values -> (forall c, c ∈ var -> c ∈ values) ->
  concat (map (fun v => zip (group v var xs) (group v var ys)) values) ≡ₚ zip xs ys.
Proof.
  induction var as [|c var IH]; intros xs ys values Hx Hy Hnd Hall.
  - destruct xs; [|done]. cbn.
    induction values as [|v values IHv]; [reflexivity|]. cbn.
    apply IHv; [by apply NoDup_cons in Hnd as [_ ?]|intros ? H; by apply elem_of_nil in H].
  - destruct xs as [|x xs]; [done|]. destruct ys as [|y ys]; [done|].
    cbn [length] in Hx, Hy.
    assert (map (fun v => zip (group v (c :: var) (x :: xs)) (group v (c :: var) (y :: ys)))
                values
            = map (fun v => if Z.eqb c v
                            then (x, y) :: zip (group v var xs) (group v var ys)
                            else zip (group v var xs) (group v var ys)) values) as ->.
    { apply map_ext. intros v. cbn [group]. by destruct (Z.eqb c v). }
    rewrite concat_insert_once; [|done|apply Hall; left].
    cbn [zip zip_with]. constructor.
    apply IH; [lia|lia|done|]. intros c' Hc'. apply Hall. by right.
Qed.

(** X22: with an illustrative variable that has one value per row, a
    factorial plane opens with one scatter call per distinct value, in
    ascending order and each value once, then the legend; the points of
    these calls are the rows of the projection, each of them once. *)
Theorem factorial_planes_scatter_partition round1 X_projected n_comp pca labels alpha
    illustrative_var d1 d2 xs ys :
  (d2 < n_comp)%Z ->
  column X_projected d1 = Ok xs -> column X_projected d2 = Ok ys ->
  length illustrative_var = length (rows X_projected) ->
  let groups :=
    map (fun v => (v, group v illustrative_var xs, group v illustrative_var ys))
        (unique illustrative_var) in
  (exists rest,
     (factorial_plane round1 X_projected n_comp pca labels alpha (Some illustrative_var)
        d1 d2).2
     = Figure 7 6
       :: map (fun g => Scatter g.1.2 g.2 alpha (Some g.1.1)) groups ++ Legend :: rest)
  /\ Sorted Z.le (map (fun g => g.1.1) groups)
  /\ NoDup (map (fun g => g.1.1) groups)
  /\ concat (map (fun g => zip g.1.2 g.2) groups) ≡ₚ zip xs ys.
Proof.
  intros Hd Hx Hy Hlen groups. split; [|split; [|split]].
  - unfold factorial_plane. destruct (Z.ltb_spec d2 n_comp); [|lia].
    rewrite pbind_call. cbn [snd].
    rewrite (scatter_values_run _ _ _ _ _ _ _ Hx Hy) by lia.
    rewrite (pbind_ok tt _ (fun _ => call Legend)). cbn [call fst snd].
    rewrite pbind_ok. cbn [snd].
    eexists. f_equal. unfold groups. rewrite map_map. cbn [fst snd].
    rewrite <- app_assoc. reflexivity.
  - unfold groups. rewrite map_map. cbn [fst]. rewrite map_id. apply unique_sorted.
  - unfold groups. rewrite map_map. cbn [fst]. rewrite map_id. apply unique_NoDup.
  - unfold groups. rewrite map_map. cbn [fst snd].
    apply groups_partition.
    + rewrite (column_length _ _ _ Hx). lia.
    + rewrite (column_length _ _ _ Hy). lia.
    + apply unique_NoDup.
    + intros c Hc. by apply elem_of_unique.
Qed.

Lemma pbind_pret {X Y : Type} (x : X) (k : X -> Plot Y) : pbind (pret x) k = k x.
Proof. unfold pret. rewrite pbind_ok. by destruct (k x). Qed.

Lemma pbind_lift_ok {X Y : Type} (x : X) (k : X -> Plot Y) : pbind (lift (Ok x)) k = k x.
Proof. exact (pbind_pret x k). Qed.

Lemma column_pairs_Ok a d1 d2 points :
  column_pairs a d1 d2 = Ok points ->
  exists xs ys, column a d1 = Ok xs /\ column a d2 = Ok ys /\ points = zip xs ys.
Proof.
  unfold column_pairs. destruct (column a d1) as [xs|]; [|discriminate].
  destruct (column a d2) as [ys|]; [|discriminate]. cbn. intros [= <-]. eauto.
Qed.

Lemma elem_of_abs_pairs xs : forall ys q,
  length xs = length ys ->
  q ∈ flat_map (fun p : Q * Q => [Qabs p.1; Qabs p.2]) (zip xs ys)
  <-> q ∈ map Qabs (xs ++ ys).
Proof.
  induction xs as [|x xs IH]; intros [|y ys] q Hlen; try discriminate.
  - reflexivity.
  - injection Hlen as Hlen. cbn [zip zip_with flat_map fst snd app map].
    rewrite !elem_of_cons, (IH ys q Hlen).
    rewrite !map_app. cbn [map]. rewrite !elem_of_app, !elem_of_cons. tauto.
Qed.

Ltac plot_inv H :=
  let x := fresh "v" in
  let t1 := fresh "tr" in
  let t2 := fresh "tr" in
  let H1 := fresh "Hc" in
  apply pbind_Ok in H as (x & t1 & t2 & H1 & H & ->).

(** X23: when a factorial plane is drawn to the end, both axes get the same
    limits, symmetric about 0: 1.1 times the largest absolute coordinate on
    the two axes, so that no point of the projection lies outside the frame. *)
Theorem factorial_planes_frame round1 X_projected n_comp pca labels alpha illustrative_var
    d1 d2 t :
  (d2 < n_comp)%Z ->
  factorial_plane round1 X_projected n_comp pca labels alpha illustrative_var d1 d2
  = (Ok tt, t) ->
  exists xs ys m,
    column X_projected d1 = Ok xs /\ column X_projected d2 = Ok ys
    /\ m ∈ map Qabs (xs ++ ys)
    /\ Forall (fun x => (Qabs x <= m)%Q) (xs ++ ys)
    /\ Xlim (- (m * (11 # 10))) (m * (11 # 10)) ∈ t
    /\ Ylim (- (m * (11 # 10))) (m * (11 # 10)) ∈ t
    /\ Forall (fun x => (- (m * (11 # 10)) <= x <= m * (11 # 10))%Q) (xs ++ ys).
Proof.
  intros Hd H. unfold factorial_plane in H.
  destruct (Z.ltb_spec d2 n_comp); [|lia].
  do 7 plot_inv H.
  repeat match goal with
  | Hp : call _ = _ |- _ => apply call_Ok in Hp as ->
  end.
  match goal with
  | Hp : lift (column_pairs _ _ _) = _ |- _ => apply lift_Ok in Hp as [Hpts ->]
  end.
  match goal with
  | Hp : lift (amax _) = (Ok ?v, _) |- _ => apply lift_Ok in Hp as [Hm ->]; rename v into m
  end.
  apply column_pairs_Ok in Hpts as (xs & ys & Hx & Hy & ->).
  assert (length xs = length ys) as Hlen
    by (rewrite (column_length _ _ _ Hx), (column_length _ _ _ Hy); done).
  apply py_max_spec in Hm as [Hle Hin].
  apply elem_of_abs_pairs in Hin; [|done].
  assert (Forall (fun x => (Qabs x <= m)%Q) (xs ++ ys)) as Hall.
  { rewrite Forall_forall in *. intros x Hx'. apply Hle.
    apply elem_of_abs_pairs; [done|]. apply list_elem_of_fmap. by exists x. }
  exists xs, ys, m. split; [exact Hx|]. split; [exact Hy|].
  split; [exact Hin|]. split; [exact Hall|].
  split; [|split].
  - rewrite !elem_of_app. do 5 right. left. by left.
  - rewrite !elem_of_app. do 6 right. left. by left.
  - rewrite Forall_forall in *. intros x Hx'. specialize (Hall x Hx').
    pose proof (Qabs_nonneg x) as Hnn.
    apply Qabs_Qle_condition in Hall. lra.
Qed.

(** X24: on a projection without rows, a factorial plane raises
    [ValueError] (the maximum of an empty array) after the figure was opened
    and the empty scatter drawn; no frame, label or title is set. *)
Theorem factorial_planes_no_rows round1 X_projected n_comp pca labels alpha d1 d2 xs ys :
  (d2 < n_comp)%Z -> rows X_projected = [] ->
  column X_projected d1 = Ok xs -> column X_projected d2 = Ok ys ->
  factorial_plane round1 X_projected n_comp pca labels alpha None d1 d2
  = (Raise ValueError, [Figure 7 6; Scatter [] [] alpha None]).
Proof.
  intros Hd Hrows Hx Hy.
  pose proof (column_length _ _ _ Hx) as Hlx. pose proof (column_length _ _ _ Hy) as Hly.
  rewrite Hrows in Hlx, Hly. destruct xs; [|done]. destruct ys; [|done].
  unfold factorial_plane. destruct (Z.ltb_spec d2 n_comp); [|lia].
  unfold column_pairs. rewrite Hx, Hy. cbn [bind zip zip_with].
  rewrite pbind_call. cbv beta. rewrite !pbind_lift_ok, pbind_call. cbv beta.
  destruct labels as [labels|].
  - rewrite pbind_lift_ok. cbn [text_points]. rewrite pbind_pret. reflexivity.
  - rewrite pbind_pret. reflexivity.
Qed.

Lemma text_points_run points : forall i labels,
  text_points i points labels
  = (if decide (length points <= length (drop i labels))%nat then Ok tt
     else Raise IndexError,
     map (fun ps : Q * Q * string => TextAt ps.1.1 ps.1.2 ps.2 None)
         (zip points (drop i labels))).
Proof.
  induction points as [|[x y] points IH]; intros i labels.
  - cbn. rewrite decide_True by lia. reflexivity.
  - cbn [text_points].
    destruct (labels !! i) as [s|] eqn:Hs.
    + rewrite (item_nat _ _ _ Hs), pbind_lift_ok, pbind_call, IH.
      rewrite (drop_S _ _ _ Hs). cbn [fst snd zip zip_with map length].
      f_equal. repeat case_decide; try reflexivity; lia.
    + apply lookup_ge_None in Hs.
      rewrite item_nat_out by done. rewrite drop_ge by done.
      unfold lift. rewrite pbind_raise. cbn. reflexivity.
Qed.

(** X25: with fewer labels than rows, a factorial plane raises [IndexError]
    once the labels are used up: the scatter and the texts of the labelled
    rows are drawn by then, the frame is not set. *)
Theorem factorial_planes_short_labels round1 X_projected n_comp pca labels alpha d1 d2
    xs ys :
  (d2 < n_comp)%Z ->
  column X_projected d1 = Ok xs -> column X_projected d2 = Ok ys ->
  (length labels < length (rows X_projected))%nat ->
  factorial_plane round1 X_projected n_comp pca (Some labels) alpha None d1 d2
  = (Raise IndexError,
     Figure 7 6 :: Scatter xs ys alpha None
     :: map (fun ps : Q * Q * string => TextAt ps.1.1 ps.1.2 ps.2 None)
            (zip (zip xs ys) labels)).
Proof.
  intros Hd Hx Hy Hlen.
  unfold factorial_plane. destruct (Z.ltb_spec d2 n_comp); [|lia].
  unfold column_pairs. rewrite Hx, Hy. cbn [bind].
  rewrite pbind_call. cbv beta. rewrite !pbind_lift_ok, pbind_call. cbv beta.
  rewrite text_points_run, drop_0.
  rewrite decide_False.
  - rewrite pbind_raise. reflexivity.
  - rewrite length_zip_with, (column_length _ _ _ Hx), (column_length _ _ _ Hy). lia.
Qed.

(** *** [display_circles] *)

Lemma row_pairs_Ok a d1 d2 r1 r2 :
  row a d1 = Ok r1 -> row a d2 = Ok r2 -> row_pairs a d1 d2 = Ok (zip r1 r2).
Proof. intros H1 H2. unfold row_pairs. by rewrite H1, H2. Qed.

Lemma text_variables_all label_rotation xmin xmax ymin ymax points : forall i labels,
  Forall (fun p : Q * Q => (xmin <= p.1 <= xmax)%Q /\ (ymin <= p.2 <= ymax)%Q) points ->
  (length points <= length (drop i labels))%nat ->
  text_variables i points labels label_rotation (xmin, xmax, ymin, ymax)
  = (Ok tt,
     map (fun ps : Q * Q * string => TextAt ps.1.1 ps.1.2 ps.2 (Some label_rotation))
         (zip points (drop i labels))).
Proof.
  induction points as [|[x y] points IH]; intros i labels Hin Hlen; [reflexivity|].
  apply Forall_cons in Hin as [[[Hx1 Hx2] [Hy1 Hy2]] Hin]. cbn [fst snd] in *.
  cbn [text_variables].
  apply Qle_bool_iff in Hx1, Hx2, Hy1, Hy2. rewrite Hx1, Hx2, Hy1, Hy2. cbn [andb].
  destruct (labels !! i) as [s|] eqn:Hs.
  - rewrite (item_nat _ _ _ Hs), pbind_lift_ok.
    rewrite (drop_S _ _ _ Hs) in Hlen |- *. cbn [length] in Hlen.
    rewrite (pbind_ok tt [TextAt x y s (Some label_rotation)]).
    rewrite IH by (done || lia). reflexivity.
  - apply lookup_ge_None in Hs. rewrite drop_ge in Hlen by done. cbn in Hlen. lia.
Qed.

(** X26: with thirty variables or more and no limits given, a correlation
    circle draws lines instead of arrows, writes the name of every variable,
    none being skipped, and sets as limits the least and the largest
    coordinate of the variables on each axis. *)
Theorem circles_label_every_variable round1 pcs n_comp pca labels label_rotation d1 d2
    r1 r2 :
  (d2 < n_comp)%Z -> well_shaped pcs -> (30 <= shape1 pcs)%nat ->
  row pcs d1 = Ok r1 -> row pcs d2 = Ok r2 ->
  (shape1 pcs <= length labels)%nat ->
  exists xmin xmax ymin ymax rest,
    (circle round1 pcs n_comp pca (Some labels) label_rotation None d1 d2).2
    = Subplots 7 6
      :: AddLines (map (fun p => ((0, 0)%Q, p)) (zip r1 r2))
      :: map (fun ps : Q * Q * string => TextAt ps.1.1 ps.1.2 ps.2 (Some label_rotation))
             (zip (zip r1 r2) labels)
      ++ AddCircle :: Xlim xmin xmax :: Ylim ymin ymax :: rest
    /\ length (zip (zip r1 r2) labels) = shape1 pcs
    /\ xmin ∈ r1 /\ xmax ∈ r1 /\ ymin ∈ r2 /\ ymax ∈ r2
    /\ Forall (fun x => (xmin <= x <= xmax)%Q) r1
    /\ Forall (fun y => (ymin <= y <= ymax)%Q) r2.
Proof.
  intros Hd Hws H30 Hr1 Hr2 Hlab.
  pose proof (row_length _ _ _ Hws Hr1) as Hl1.
  pose proof (row_length _ _ _ Hws Hr2) as Hl2.
  destruct (py_min_is_Some r1) as [xmin Hxmin]; [intros ->; simpl in Hl1; lia|].
  destruct (py_max_is_Some r1) as [xmax Hxmax]; [intros ->; simpl in Hl1; lia|].
  destruct (py_min_is_Some r2) as [ymin Hymin]; [intros ->; simpl in Hl2; lia|].
  destruct (py_max_is_Some r2) as [ymax Hymax]; [intros ->; simpl in Hl2; lia|].
  destruct (py_min_spec _ _ Hxmin) as [Hxmin1 Hxmin2].
  destruct (py_max_spec _ _ Hxmax) as [Hxmax1 Hxmax2].
  destruct (py_min_spec _ _ Hymin) as [Hymin1 Hymin2].
  destruct (py_max_spec _ _ Hymax) as [Hymax1 Hymax2].
  assert (Forall (fun x => (xmin <= x <= xmax)%Q) r1) as Hbx.
  { rewrite Forall_forall in *. intros x Hx. split; auto. }
  assert (Forall (fun y => (ymin <= y <= ymax)%Q) r2) as Hby.
  { rewrite Forall_forall in *. intros y Hy. split; auto. }
  exists xmin, xmax, ymin, ymax.
  assert (circle_limits pcs None d1 d2 = Ok (xmin, xmax, ymin, ymax)) as Hlim.
  { unfold circle_limits. destruct (Nat.ltb_spec (shape1 pcs) 30); [lia|].
    rewrite Hr1, Hr2. cbn [bind]. rewrite Hxmin. cbn [bind]. rewrite Hxmax. cbn [bind].
    rewrite Hymin. cbn [bind]. rewrite Hymax. reflexivity. }
  unfold circle. destruct (Z.ltb_spec d2 n_comp); [|lia].
  rewrite Hlim. destruct (Nat.ltb_spec (shape1 pcs) 30); [lia|].
  rewrite (row_pairs_Ok _ _ _ _ _ Hr1 Hr2).
  rewrite pbind_call. cbv beta. rewrite !pbind_lift_ok. rewrite pbind_call. cbv beta.
  rewrite text_variables_all.
  - rewrite drop_0, pbind_ok. cbv beta. rewrite !pbind_call. cbv beta. cbn [fst snd].
    eexists. split; [reflexivity|].
    split; [rewrite !length_zip_with; lia|]. done.
  - apply Forall_forall. intros [x y] Hp. cbn [fst snd].
    rewrite Forall_forall in Hbx, Hby. split.
    + apply Hbx. by eapply elem_of_zip_l.
    + apply Hby. by eapply elem_of_zip_r.
  - rewrite drop_0, length_zip_with. lia.
Qed.

(** *** The loops over the axis ranks *)

(** X27: both display loops draw nothing for a pair of ranks whose second
    rank is not below [n_comp]: they behave as on the list of the other
    pairs.  The first rank is not looked at. *)
Theorem display_skips_ranks_beyond_n_comp round1 a n_comp pca axis_ranks :
  let drawn := filter (fun p : Z * Z => (p.2 < n_comp)%Z) axis_ranks in
  (forall labels alpha illustrative_var,
     display_factorial_planes round1 a n_comp pca axis_ranks labels alpha illustrative_var
     = display_factorial_planes round1 a n_comp pca drawn labels alpha illustrative_var)
  /\ (forall labels label_rotation lims,
        display_circles round1 a n_comp pca axis_ranks labels label_rotation lims
        = display_circles round1 a n_comp pca drawn labels label_rotation lims).
Proof.
  intros drawn. unfold drawn. clear drawn.
  split; intros; induction axis_ranks as [|[d1 d2] axis_ranks IH]; try reflexivity.
  - destruct (decide (d2 < n_comp)%Z) as [Hd|Hd].
    + rewrite filter_cons_True by done. cbn [display_factorial_planes]. by rewrite IH.
    + rewrite filter_cons_False by done. cbn [display_factorial_planes].
      unfold factorial_plane. destruct (Z.ltb_spec d2 n_comp); [lia|].
      rewrite pbind_pret. exact IH.
  - destruct (decide (d2 < n_comp)%Z) as [Hd|Hd].
    + rewrite filter_cons_True by done. cbn [display_circles]. by rewrite IH.
    + rewrite filter_cons_False by done. cbn [display_circles].
      unfold circle. destruct (Z.ltb_spec d2 n_comp); [lia|].
      rewrite pbind_pret. exact IH.
Qed.

(** *** Instances on the samples *)


Lemma factorial_planes_scatter_partition_witness :
  concat [zip [3] [1 # 2]; zip [1; -4] [-2; 0]]%Q
  ≡ₚ zip [1; 3; -4]%Q [-2; 1 # 2; 0]%Q.
Proof.
  exact (proj2 (proj2 (proj2
    (factorial_planes_scatter_partition (fun q => q) sample_projection 2 sample_pca None 1
       [1; 0; 1]%Z 0 1 [1; 3; -4]%Q [-2; 1 # 2; 0]%Q
       ltac:(lia) eq_refl eq_refl eq_refl)))).
Defined.

Lemma factorial_planes_frame_witness :
  exists xs ys m,
    column sample_projection 0 = Ok xs /\ column sample_projection 1 = Ok ys
    /\ m ∈ map Qabs (xs ++ ys)
    /\ Forall (fun x => (Qabs x <= m)%Q) (xs ++ ys)
    /\ Xlim (- (m * (11 # 10))) (m * (11 # 10))
       ∈ (factorial_plane (fun q => q) sample_projection 2 sample_pca None 1 None 0 1).2
    /\ Ylim (- (m * (11 # 10))) (m * (11 # 10))
       ∈ (factorial_plane (fun q => q) sample_projection 2 sample_pca None 1 None 0 1).2
    /\ Forall (fun x => (- (m * (11 # 10)) <= x <= m * (11 # 10))%Q) (xs ++ ys).
Proof.
  apply (factorial_planes_frame (fun q => q) sample_projection 2 sample_pca None 1 None
           0 1); [lia | reflexivity].
Defined.

Lemma factorial_planes_no_rows_witness :
  factorial_plane (fun q => q) (Array2 0 2 []) 2 sample_pca (Some ["a"]) 1 None 0 1
  = (Raise ValueError, [Figure 7 6; Scatter [] [] 1 None]).
Proof.
  apply (factorial_planes_no_rows (fun q => q) (Array2 0 2 []) 2 sample_pca (Some ["a"]) 1
           0 1 [] []); [lia | reflexivity | reflexivity | reflexivity].
Defined.

Lemma factorial_planes_short_labels_witness :
  factorial_plane (fun q => q) sample_projection 2 sample_pca (Some ["a"; "b"]) 1 None 0 1
  = (Raise IndexError,
     [Figure 7 6; Scatter [1; 3; -4]%Q [-2; 1 # 2; 0]%Q 1 None;
      TextAt 1 (-2) "a" None; TextAt 3 (1 # 2) "b" None]).
Proof.
  apply (factorial_planes_short_labels (fun q => q) sample_projection 2 sample_pca
           ["a"; "b"] 1 0 1 [1; 3; -4]%Q [-2; 1 # 2; 0]%Q);
    [lia | reflexivity | reflexivity | simpl; lia].
Defined.

Lemma circles_label_every_variable_witness :
  exists xmin xmax ymin ymax rest,
    (circle (fun q => q) sample_components 2 sample_pca (Some (replicate 30 "v")) 0 None
       0 1).2
    = Subplots 7 6
      :: AddLines (map (fun p => ((0, 0)%Q, p))
                       (zip (default [] (rows sample_components !! 0%nat))
                            (default [] (rows sample_components !! 1%nat))))
      :: map (fun ps : Q * Q * string => TextAt ps.1.1 ps.1.2 ps.2 (Some 0%Q))
             (zip (zip (default [] (rows sample_components !! 0%nat))
                       (default [] (rows sample_components !! 1%nat)))
                  (replicate 30 "v"))
      ++ AddCircle :: Xlim xmin xmax :: Ylim ymin ymax :: rest
    /\ length (zip (zip (default [] (rows sample_components !! 0%nat))
                        (default [] (rows sample_components !! 1%nat)))
                   (replicate 30 "v")) = 30%nat
    /\ xmin ∈ default [] (rows sample_components !! 0%nat)
    /\ xmax ∈ default [] (rows sample_components !! 0%nat)
    /\ ymin ∈ default [] (rows sample_components !! 1%nat)
    /\ ymax ∈ default [] (rows sample_components !! 1%nat)
    /\ Forall (fun x => (xmin <= x <= xmax)%Q) (default [] (rows sample_components !! 0%nat))
    /\ Forall (fun y => (ymin <= y <= ymax)%Q) (default [] (rows sample_components !! 1%nat)).
Proof.
  apply (circles_label_every_variable (fun q => q) sample_components 2 sample_pca
           (replicate 30 "v") 0 0 1);
    [lia | split; [reflexivity | repeat constructor] | simpl; lia
    | reflexivity | reflexivity | simpl; lia].
Defined.

(** * The binary64 code *)

(** ** Which inputs make [correlation_ratio] return *)

Lemma f64_take_raises a idx e : F64.take a idx = Raise e -> e = IndexError.
Proof.
  induction idx as [|p ps IH]; cbn [F64.take]; [discriminate|].
  destruct (a !! p); [|by intros [= <-]].
  destruct (F64.take a ps); cbn [bind]; [discriminate|].
  intros [= <-]. by apply IH.
Qed.

Lemma f64_take_argwhere_from g codes : forall pos meas,
  (forall i, codes !! i = Some g -> (pos + i < length meas)%nat) ->
  exists xs, F64.take meas (Np.argwhere_from pos g codes) = Ok xs.
Proof.
  induction codes as [|c cs IH]; intros pos meas H; [by eexists|].
  cbn [Np.argwhere_from].
  destruct (IH (S pos) meas) as [xs Hxs].
  { intros i Hi. specialize (H (S i) Hi). lia. }
  destruct (Z.eqb c g) eqn:Hcg; [|by exists xs].
  apply Z.eqb_eq in Hcg as ->.
  cbn [F64.take].
  destruct (lookup_lt_is_Some_2 meas pos) as [x Hx].
  { specialize (H 0%nat eq_refl). lia. }
  rewrite Hx, Hxs. by eexists.
Qed.

Lemma f64_take_argwhere_from_out g codes : forall pos meas i,
  codes !! i = Some g -> (length meas <= pos + i)%nat ->
  F64.take meas (Np.argwhere_from pos g codes) = Raise IndexError.
Proof.
  induction codes as [|c cs IH]; intros pos meas i Hi Hlen; [done|].
  cbn [Np.argwhere_from].
  destruct i as [|i]; simpl in Hi.
  - injection Hi as ->. rewrite Z.eqb_refl. cbn [F64.take].
    rewrite lookup_ge_None_2 by lia. reflexivity.
  - assert (F64.take meas (Np.argwhere_from (S pos) g cs) = Raise IndexError) as Hrest
      by (apply (IH (S pos) meas i); [done|lia]).
    destruct (Z.eqb c g); [|done].
    cbn [F64.take]. destruct (meas !! pos); [|done]. by rewrite Hrest.
Qed.

Lemma f64_for_loop_returns codes meas : forall range arrays,
  (forall i pos, i ∈ range -> codes !! pos = Some (Z.of_nat i) ->
                 (pos < length meas)%nat) ->
  exists arrays', F64.for_loop codes meas range arrays = Ok arrays'.
Proof.
  induction range as [|i range IH]; intros [ns avs] Hcov; [by eexists|].
  cbn [F64.for_loop].
  destruct (f64_take_argwhere_from (Z.of_nat i) codes 0 meas) as [xs Hxs].
  { intros pos Hpos. simpl. apply (Hcov i); [left|done]. }
  unfold Np.argwhere. rewrite Hxs. cbn [bind].
  apply IH. intros j pos Hj. apply Hcov. by right.
Qed.

Lemma f64_for_loop_raises codes meas : forall range arrays i pos,
  i ∈ range -> codes !! pos = Some (Z.of_nat i) -> (length meas <= pos)%nat ->
  F64.for_loop codes meas range arrays = Raise IndexError.
Proof.
  induction range as [|j range IH]; intros [ns avs] i pos Hi Hpos Hlen;
    [by apply elem_of_nil in Hi|].
  cbn [F64.for_loop].
  destruct (F64.take meas (Np.argwhere (Z.of_nat j) codes)) as [xs|e] eqn:Htake;
    cbn [bind].
  - apply (IH _ i pos); [|done|done].
    apply elem_of_cons in Hi as [->|Hi]; [|done].
    unfold Np.argwhere in Htake.
    rewrite (f64_take_argwhere_from_out _ _ 0 meas pos Hpos) in Htake by (simpl; lia).
    discriminate.
  - by rewrite (f64_take_raises _ _ _ Htake).
Qed.

Section Float64Outcome.
Context {A : Type} `{EqDecision A}.
Implicit Types (categories : list (option A)) (measurements : list float).

Lemma f64_locals_return categories measurements :
  categories <> [] -> F64.rows_measured categories measurements ->
  exists l, F64.correlation_ratio_locals categories measurements = Ok l.
Proof.
  intros Hne Hcov. unfold F64.correlation_ratio_locals.
  destruct (Pd.factorize categories) as [codes u] eqn:Hf.
  rewrite (max_factorize _ _ _ Hne Hf). cbn [bind].
  match goal with
  | |- context [F64.for_loop ?c ?m ?r ?a] =>
      destruct (f64_for_loop_returns c m r a) as [[ns avs] Hloop]
  end.
  { intros i pos _ Hpos. destruct (code_position _ _ _ _ _ Hf Hpos) as [a Ha].
    by eapply Hcov. }
  rewrite Hloop. cbn [bind]. by eexists.
Qed.

(** X1: what [correlation_ratio] does on any input, the measurements being
    a float64 array.  An empty category sequence raises [ValueError]
    ([np.max] of an empty array); otherwise it returns a value when every
    row that carries a label has a measurement, and raises [IndexError]
    when some labelled row has none.  The two lengths are never compared:
    rows whose label is missing need no measurement, and measurements past
    the last label are accepted.  Nothing is said of the value returned,
    which in binary64 can be [nan] or an infinity. *)
Theorem correlation_ratio_outcome_float64 categories measurements :
  (categories = [] ->
   F64.correlation_ratio categories measurements = Raise ValueError)
  /\ (categories <> [] -> F64.rows_measured categories measurements ->
      exists e, F64.correlation_ratio categories measurements = Ok e)
  /\ (categories <> [] -> ~ F64.rows_measured categories measurements ->
      F64.correlation_ratio categories measurements = Raise IndexError).
Proof.
  split; [by intros ->|]. split.
  - intros Hne Hcov. destruct (f64_locals_return _ _ Hne Hcov) as [l Hl].
    unfold F64.correlation_ratio. rewrite Hl. by eexists.
  - intros Hne Hun. destruct (Pd.factorize categories) as [codes u] eqn:Hf.
    unfold F64.correlation_ratio, F64.correlation_ratio_locals. rewrite Hf.
    rewrite (max_factorize _ _ _ Hne Hf). cbn [bind].
    replace (Z.of_nat (length u) - 1 + 1)%Z with (Z.of_nat (length u)) by lia.
    rewrite Nat2Z.id.
    assert (exists pos a, categories !! pos = Some (Some a)
                          /\ (length measurements <= pos)%nat) as (pos & a & Hpos & Hle).
    { destruct (decide (Exists (fun p => is_Some (default None (categories !! p))
                                         /\ (length measurements <= p)%nat)
                               (seq 0 (length categories)))) as [Hex|Hno].
      - apply Exists_exists in Hex as (p & _ & [a Ha] & Hle). exists p, a.
        split; [|done]. destruct (categories !! p) as [[b|]|]; simpl in Ha; congruence.
      - exfalso. apply Hun. intros i a Hi.
        destruct (decide (i < length measurements)%nat) as [|Hge]; [done|].
        exfalso. apply Hno, Exists_exists. exists i. split.
        + apply elem_of_seq. apply lookup_lt_Some in Hi. lia.
        + split; [rewrite Hi; by eexists|lia]. }
    destruct (position_code _ _ _ _ _ Hf Hpos) as (g & Hg & Hlt).
    rewrite (f64_for_loop_raises codes measurements _ _ g pos); [done| |done|done].
    apply elem_of_seq. lia.
Qed.

(** C2, as amended.  In binary64, on every valid input the function
    returns: exactly 0 when the numerator it computed is exactly zero, the
    quotient otherwise.  Over exact arithmetic the numerator is zero for
    every input with a single category and for every input whose
    measurements are all the same number, and 0 is returned. *)
Theorem zero_numerator_guard categories :
  categories <> [] ->
  (forall measurements : list float,
     length categories = length measurements ->
     exists l,
       F64.correlation_ratio_locals categories measurements = Ok l
       /\ ((F64.numerator l =? 0)%float = true ->
           F64.correlation_ratio categories measurements = Ok 0%float)
       /\ ((F64.numerator l =? 0)%float = false ->
           F64.correlation_ratio categories measurements
           = Ok (F64.numerator l / F64.denominator l)%float))
  /\ (forall measurements : list Q,
        length categories = length measurements ->
        exists l,
          correlation_ratio_locals categories measurements = Ok l
          /\ ((numerator l == 0)%Q -> correlation_ratio categories measurements = Ok 0%Q)
          /\ (single_category categories ->
              (numerator l == 0)%Q /\ correlation_ratio categories measurements = Ok 0%Q)
          /\ (identical measurements ->
              (numerator l == 0)%Q /\ correlation_ratio categories measurements = Ok 0%Q)).
Proof.
  intros Hne. split.
  - intros measurements Hlen.
    destruct (f64_locals_return categories measurements Hne) as [l Hl].
    { intros i a Hi. apply lookup_lt_Some in Hi. lia. }
    exists l. split; [exact Hl|].
    unfold F64.correlation_ratio. rewrite Hl. cbn [bind].
    revert Hl. unfold F64.correlation_ratio_locals.
    destruct (Pd.factorize categories) as [codes u].
    destruct (Np.max codes) as [m|]; cbn [bind]; [|discriminate].
    destruct (F64.for_loop _ _ _ _) as [[ns avs]|]; cbn [bind]; [|discriminate].
    intros [= <-]. cbn [F64.numerator F64.denominator F64.eta].
    split; intros ->; reflexivity.
  - intros measurements Hlen.
    destruct (zero_numerator_returns_zero categories measurements Hne Hlen)
      as (l & Hl & Hz & Hs & Hi).
    exists l. split; [exact Hl|]. split; [exact Hz|]. split; [exact Hs|].
    intros Hid. destruct (Hi Hid) as (? & ? & _). by split.
Qed.
End Float64Outcome.

(** C2 refuted as stated, in binary64: the measurements are one and the
    same number, the double nearest to 0.1.  With the categories a, b, b the
    grand mean comes out as 0.10000000000000002, numerator and denominator
    are the same non-zero number and 1.0 is returned; with a, a, a, b the
    numerator is not zero either, the denominator is, and the value
    returned is infinite. *)
Lemma identical_measurements_return_one :
  (forall x y : float,
     x ∈ [0x1.999999999999ap-4; 0x1.999999999999ap-4; 0x1.999999999999ap-4]%float ->
     y ∈ [0x1.999999999999ap-4; 0x1.999999999999ap-4; 0x1.999999999999ap-4]%float ->
     x = y)
  /\ F64.correlation_ratio [Some "a"; Some "b"; Some "b"]
       [0x1.999999999999ap-4; 0x1.999999999999ap-4; 0x1.999999999999ap-4]%float
     = Ok 1%float
  /\ F64.correlation_ratio [Some "a"; Some "a"; Some "a"; Some "b"]
       [0x1.999999999999ap-4; 0x1.999999999999ap-4; 0x1.999999999999ap-4;
        0x1.999999999999ap-4]%float
     = Ok infinity.
Proof.
  split; [|split; vm_compute; reflexivity].
  intros x y Hx Hy. rewrite !elem_of_cons, elem_of_nil in Hx, Hy.
  destruct Hx as [->|[->|[->|[]]]], Hy as [->|[->|[->|[]]]]; reflexivity.
Qed.


(** In binary64 a shift changes the value for balanced categories as well:
    m, m, m, f, f, f with the measurements 0, 0, 0, 0, 0, 1 give
    0.19999999999999996, and 0.1999999999999999 once 1 is added. *)
Example balanced_shift_changes_eta :
  balanced [Some "m"; Some "m"; Some "m"; Some "f"; Some "f"; Some "f"]
  /\ F64.correlation_ratio [Some "m"; Some "m"; Some "m"; Some "f"; Some "f"; Some "f"]
       [0; 0; 0; 0; 0; 1]%float
     = Ok 0x1.9999999999998p-3%float
  /\ F64.correlation_ratio [Some "m"; Some "m"; Some "m"; Some "f"; Some "f"; Some "f"]
       (F64.shift 1 [0; 0; 0; 0; 0; 1]%float)
     = Ok 0x1.9999999999996p-3%float.
Proof.
  split; [|split; vm_compute; reflexivity].
  intros a b Ha Hb. rewrite !elem_of_cons, elem_of_nil in Ha, Hb.
  destruct Ha as [Ha|[Ha|[Ha|[Ha|[Ha|[Ha|[]]]]]]], Hb as [Hb|[Hb|[Hb|[Hb|[Hb|[Hb|[]]]]]]];
    injection Ha as ->; injection Hb as ->; vm_compute; reflexivity.
Qed.

(** X29: in binary64 the value returned can lie outside [0, 1].  With the
    categories a, a, b, b and the measurements 1, 1 + 2^-52, 2, 2 it is
    1.0000000000000002, and with a, a, a, b and four times the double
    nearest to 0.1 it is infinite. *)
Theorem float64_value_exceeds_one :
  exists (categories categories' : list (option string))
         (measurements measurements' : list float) (e : float),
    categories <> [] /\ length categories = length measurements
    /\ F64.correlation_ratio categories measurements = Ok e
    /\ (1 <? e)%float = true /\ (e <? infinity)%float = true
    /\ categories' <> [] /\ length categories' = length measurements'
    /\ F64.correlation_ratio categories' measurements' = Ok infinity.
Proof.
  exists [Some "a"; Some "a"; Some "b"; Some "b"],
         [Some "a"; Some "a"; Some "a"; Some "b"],
         [1; 0x1.0000000000001p+0; 2; 2]%float,
         [0x1.999999999999ap-4; 0x1.999999999999ap-4; 0x1.999999999999ap-4;
          0x1.999999999999ap-4]%float.
  eexists. split; [discriminate|]. split; [reflexivity|].
  split; [vm_compute; reflexivity|].
  split; [vm_compute; reflexivity|]. split; [vm_compute; reflexivity|].
  split; [discriminate|]. split; [reflexivity|]. vm_compute. reflexivity.
Qed.

(** X30: in binary64 the order of the rows can change the value returned:
    the rows (m, 0), (m, 1), (f, 3) give 0.8928571428571429 in this order
    and 0.892857142857143 in the order (m, 0), (f, 3), (m, 1). *)
Theorem float64_row_order_changes_value :
  exists (categories categories' : list (option string))
         (measurements measurements' : list float) (e e' : float),
    zip categories' measurements' ≡ₚ zip categories measurements
    /\ length categories = length measurements
    /\ length categories' = length measurements'
    /\ F64.correlation_ratio categories measurements = Ok e
    /\ F64.correlation_ratio categories' measurements' = Ok e'
    /\ (e <? e')%float = true.
Proof.
  exists [Some "m"; Some "m"; Some "f"], [Some "m"; Some "f"; Some "m"],
         [0; 1; 3]%float, [0; 3; 1]%float.
  eexists _, _. split; [|split; [reflexivity|split; [reflexivity|]]].
  - cbn. constructor. apply perm_swap.
  - split; [vm_compute; reflexivity|]. split; vm_compute; reflexivity.
Qed.

(** ** [clean]: the values filled in *)







(** ** [clean]: a column of numbers and strings *)

Lemma mixed_not_numeric df c : mixed_column df c = true -> numeric_column df c = false.
Proof.
  unfold mixed_column, numeric_column. destruct (columns df !! c) as [col|]; [|done].
  intros H. apply andb_true_iff in H as [Hs _].
  induction col as [|x col IH]; [discriminate|].
  cbn [existsb forallb] in *. destruct x; cbn in *; auto.
Qed.

(** X9: on a table that has the eight columns [clean] names and whose Age
    or Fare holds a string beside a number, [clean] raises [TypeError]
    (from [mean]). *)
Theorem clean_type_error (h : list DataFrame) (data : nat) (df : DataFrame) :
  h !! data = Some df ->
  forallb (has_column df)
    ["Name"; "Ticket"; "Cabin"; "Age"; "Embarked"; "SibSp"; "Parch"; "Fare"] = true ->
  mixed_column df "Age" || mixed_column df "Fare" = true ->
  (clean data h).1 = Raise TypeError.
Proof.
  intros Hd Hcols Hmixed. apply (clean_not_numeric_raises h data df Hd Hcols).
  apply orb_true_iff in Hmixed as [H|H]; apply mixed_not_numeric in H; rewrite H.
  - reflexivity.
  - apply andb_false_r.
Qed.

(** *** Instances *)

Lemma zero_numerator_guard_witness :
  correlation_ratio [Some "a"; Some "b"; Some "b"] [1 # 10; 1 # 10; 1 # 10]%Q = Ok 0%Q
  /\ exists l,
       F64.correlation_ratio_locals [Some "a"; Some "b"; Some "b"] [1; 1; 1]%float = Ok l
       /\ ((F64.numerator l =? 0)%float = true ->
           F64.correlation_ratio [Some "a"; Some "b"; Some "b"] [1; 1; 1]%float
           = Ok 0%float)
       /\ ((F64.numerator l =? 0)%float = false ->
           F64.correlation_ratio [Some "a"; Some "b"; Some "b"] [1; 1; 1]%float
           = Ok (F64.numerator l / F64.denominator l)%float).
Proof.
  destruct (zero_numerator_guard [Some "a"; Some "b"; Some "b"] ltac:(discriminate))
    as [Hfloat Hexact].
  split.
  - destruct (Hexact [1 # 10; 1 # 10; 1 # 10]%Q eq_refl) as (l & _ & _ & _ & Hid).
    apply Hid. intros x y Hx Hy. rewrite !elem_of_cons, elem_of_nil in Hx, Hy.
    destruct Hx as [->|[->|[->|[]]]], Hy as [->|[->|[->|[]]]]; reflexivity.
  - exact (Hfloat [1; 1; 1]%float eq_refl).
Defined.


Lemma clean_type_error_witness :
  (clean 0 [Frame 3 (<["Age" := [Num 22; Str "unknown"; NaN]]>
                       (columns sample_passengers))]).1
  = Raise TypeError.
Proof.
  apply (clean_type_error _ 0
           (Frame 3 (<["Age" := [Num 22; Str "unknown"; NaN]]>
                       (columns sample_passengers))));
    vm_compute; reflexivity.
Defined.
